(** * Hienoi: particle store, pending buffer, k-d tree and simulation engine

    A shallow embedding of [hienoi/_dynamicarray.py], [hienoi/_orderedbuffer.py],
    [hienoi/_kdtree.py], [hienoi/dynamics.py] and of the simulation worker loop
    of [hienoi/application.py].

    Conventions of the embedding:
    - Python exceptions are values of [result]; a function that can raise
      returns [result A].
    - NumPy arrays are lists; a slice assignment whose shapes do not agree
      raises [ValueError].
    - Floating-point numbers are modelled by exact rationals ([Q]); rounding,
      infinities and NaN are outside the model except where the source uses
      them as markers ([numpy.inf] for an unbounded radius and [numpy.nan]
      for a distance not computed yet), which are modelled by [option].
    - [numpy.empty n] allocates [n] slots of unspecified content; the content
      is a parameter ([junk]) of the definitions. *)

From Stdlib Require Import List ZArith QArith Qminmax Bool Lia Lqa Arith.
From Stdlib Require Import Permutation Sorted Qabs.
Import ListNotations.

Set Implicit Arguments.

Close Scope Q_scope.
Open Scope nat_scope.

(** ** Python values shared by all modules *)

Module Py.

Inductive exn : Type :=
| ValueError
| IndexError.

Inductive result (A : Type) : Type :=
| Ok (a : A)
| Raise (e : exn).

Arguments Ok {A} a.
Arguments Raise {A} e.

Definition bind {A B : Type} (r : result A) (k : A -> result B) : result B :=
  match r with
  | Ok a => k a
  | Raise e => Raise e
  end.

Definition is_ok {A : Type} (r : result A) : bool :=
  match r with Ok _ => true | Raise _ => false end.

(** [l[:n]] for a Python integer [n]: a negative [n] counts from the end. *)
Definition slice_to {A : Type} (l : list A) (n : Z) : list A :=
  if (0 <=? n)%Z then firstn (Z.to_nat n) l
  else firstn (Z.to_nat (Z.of_nat (length l) + n)) l.

(** [l[i:j]] for natural indices. *)
Definition slice {A : Type} (l : list A) (i j : nat) : list A :=
  firstn (j - i) (skipn i l).

(** [dst[i:i + len(src)] = src], for a slice that lies inside [dst]. *)
Definition set_slice {A : Type} (dst : list A) (i : nat) (src : list A)
  : list A :=
  firstn i dst ++ src ++ skipn (i + length src) dst.

(** [dst[:n] = src]: NumPy requires the shapes to agree (a source of length
    one is broadcast). *)
Definition assign_prefix {A : Type} (dst : list A) (n : Z) (src : list A)
  : result (list A) :=
  let k := length (slice_to dst n) in
  if Nat.eqb (length src) k then Ok (src ++ skipn k dst)
  else match src with
       | [x] => Ok (repeat x k ++ skipn k dst)
       | _ => Raise ValueError
       end.

(** [l[i]] for a natural index: out of range raises [IndexError]. *)
Definition get {A : Type} (l : list A) (i : nat) : result A :=
  match nth_error l i with
  | Some x => Ok x
  | None => Raise IndexError
  end.

(** In-place update of [l[i]]; nothing is written out of range. *)
Fixpoint update {A : Type} (l : list A) (i : nat) (f : A -> A) : list A :=
  match l, i with
  | [], _ => []
  | x :: l', O => f x :: l'
  | x :: l', S i' => x :: update l' i' f
  end.

End Py.

Import Py.

Declare Scope py_scope.
Notation "x <- r ;; k" := (Py.bind r (fun x => k))
  (at level 61, r at next level, right associativity) : py_scope.
Open Scope py_scope.

(** ** [_dynamicarray.py] *)

Module DynArr.

Section DynamicArray.

Variable A : Type.

(** Content of slot [i] of a freshly allocated array. *)
Variable junk : nat -> A.

Definition np_empty (n : nat) : list A := map junk (seq 0 n).

(** [_array] is the allocated storage (its length is the capacity) and
    [_size] the logical size, a Python integer. *)
Record DynamicArray : Type := mkDynamicArray {
  _array : list A;
  _size : Z
}.

Definition capacity (a : DynamicArray) : Z := Z.of_nat (length (_array a)).

Definition len (a : DynamicArray) : Z := _size a.

Definition data (a : DynamicArray) : list A := slice_to (_array a) (_size a).

(** [DynamicArray(capacity, dtype)]: [numpy.empty] rejects a negative
    shape. *)
Definition init (cap : Z) : result DynamicArray :=
  if (cap <? 0)%Z then Raise ValueError
  else Ok {| _array := np_empty (Z.to_nat cap); _size := 0 |}.

(** [int(max(len(self._array) * _GROW_FACTOR,
             math.ceil(1.0 / (_GROW_FACTOR - 1.0)) * 2))]
    with [_GROW_FACTOR = 1.5]: the product [n * 1.5] truncated is [3n / 2],
    and [ceil(1.0 / 0.5) * 2 = 4]. *)
Definition minimum_step : Z := 4.

Definition grow_target (requested : Z) (a : DynamicArray) : Z :=
  Z.max requested (Z.max (3 * capacity a / 2) minimum_step).

Definition grow (requested : Z) (copy : bool) (a : DynamicArray)
  : result DynamicArray :=
  if (requested <=? capacity a)%Z then Ok a
  else
    let array := np_empty (Z.to_nat (grow_target requested a)) in
    if copy then
      array' <- assign_prefix array (_size a) (slice_to (_array a) (_size a)) ;;
      Ok {| _array := array'; _size := _size a |}
    else Ok {| _array := array; _size := 0 |}.

Definition resize (requested : Z) (copy : bool) (a : DynamicArray)
  : result DynamicArray :=
  a' <- grow requested copy a ;;
  Ok {| _array := _array a'; _size := requested |}.

Definition clear (a : DynamicArray) : DynamicArray :=
  {| _array := _array a; _size := 0 |}.

(** The invariant of a well-formed array: the logical size lies within the
    storage. *)
Definition wf (a : DynamicArray) : Prop :=
  (0 <= _size a <= capacity a)%Z.

(** [l[z] = x] for a Python integer [z]: a negative index counts from the
    end, and an index out of range raises [IndexError]. *)
Definition set_item (l : list A) (z : Z) (x : A) : result (list A) :=
  let i := if (0 <=? z)%Z then z else (Z.of_nat (length l) + z)%Z in
  if (0 <=? i)%Z && (i <? Z.of_nat (length l))%Z
  then Ok (update l (Z.to_nat i) (fun _ => x))
  else Raise IndexError.

(** A bound of a Python slice over a sequence of length [len]: a negative
    bound counts from the end, and the result is clipped to [0 .. len]. *)
Definition clip (len : nat) (z : Z) : nat :=
  if (z <? 0)%Z then Z.to_nat (Z.max 0 (Z.of_nat len + z))
  else Nat.min (Z.to_nat z) len.

(** [dst[start:stop] = src]: NumPy requires the shapes to agree (a source
    of length one is broadcast). *)
Definition assign_slice (dst : list A) (start stop : Z) (src : list A)
  : result (list A) :=
  let i := clip (length dst) start in
  let j := clip (length dst) stop in
  let k := j - i in
  if Nat.eqb (length src) k then Ok (set_slice dst i src)
  else match src with
       | [x] => Ok (set_slice dst i (repeat x k))
       | _ => Raise ValueError
       end.

(** [from_buffer(buf, dtype)]: the buffer is taken as the storage, all of
    it in use. The buffer is given as the rows it holds. *)
Definition from_buffer (buf : list A) : DynamicArray :=
  {| _array := buf; _size := Z.of_nat (length buf) |}.

(** [copy_from(data)]. The dtype of the array is a record dtype, and the
    rows of [data] have at least its fields: [fields] is the part of a row
    of [data] made of the fields of the array. Assigning every field of
    the first [size] rows assigns these rows. *)
Definition copy_from (B : Type) (fields : B -> A) (data : list B)
  (a : DynamicArray) : result DynamicArray :=
  let size := Z.of_nat (length data) in
  a' <- grow size false a ;;
  array <- assign_prefix (_array a') size (map fields data) ;;
  Ok {| _array := array; _size := size |}.

(** [append(data)]: returns the array and the index of the slot that the
    returned element views. *)
Definition append (x : A) (a : DynamicArray) : result (DynamicArray * Z) :=
  let new_size := (_size a + 1)%Z in
  a' <- grow new_size true a ;;
  array <- set_item (_array a') (_size a') x ;;
  Ok ({| _array := array; _size := new_size |}, _size a').

(** [extend(data)]. *)
Definition extend (data : list A) (a : DynamicArray) : result DynamicArray :=
  let new_size := (_size a + Z.of_nat (length data))%Z in
  a' <- grow new_size true a ;;
  array <- assign_slice (_array a') (_size a') new_size data ;;
  Ok {| _array := array; _size := new_size |}.

End DynamicArray.

End DynArr.

(** ** [_orderedbuffer.py] *)

Module OBuf.

Section OrderedBuffer.

Variable A : Type.
Variable junk : nat -> A.

(** [_Bunch(position, data)]. *)
Record Bunch : Type := mkBunch {
  position : nat * nat;
  bunch_data : list A
}.

Record OrderedBuffer : Type := mkOrderedBuffer {
  _buckets : list (list A);
  _bucket_capacity : nat;
  _pos : nat * nat;
  _bunchs : list Bunch
}.

Definition init (bucket_capacity : Z) : result OrderedBuffer :=
  if (bucket_capacity <? 1)%Z then Raise ValueError
  else Ok {| _buckets := [];
             _bucket_capacity := Z.to_nat bucket_capacity;
             _pos := (0, 0);
             _bunchs := [] |}.

Definition len (b : OrderedBuffer) : nat :=
  _bucket_capacity b * fst (_pos b) + snd (_pos b)
  + list_sum (map (fun bunch => length (bunch_data bunch)) (_bunchs b)).

(** The [while i < m] loop of [chunks], run for [m - i] rounds: the first
    bucket is read from [j], the following ones from [0]. *)
Fixpoint whole_buckets (buckets : list (list A)) (i j rounds : nat)
  : result (list (list A)) :=
  match rounds with
  | O => Ok []
  | S rounds' =>
      bkt <- get buckets i ;;
      rest <- whole_buckets buckets (S i) 0 rounds' ;;
      Ok (skipn j bkt :: rest)
  end.

(** The [for bunch in bunchs] loop of [chunks], from the cursor [(i, j)]. *)
Fixpoint chunks_loop (buckets : list (list A)) (bunchs : list Bunch)
  (i j : nat) : result (list (list A)) :=
  match bunchs with
  | [] => Ok []
  | bunch :: bunchs' =>
      let '(m, n) := position bunch in
      c1 <- whole_buckets buckets i j (m - i) ;;
      let '(i', j') := if i <? m then (m, 0) else (i, j) in
      c2 <- (if j' <? n then
               bkt <- get buckets i' ;; Ok [slice bkt j' n]
             else Ok []) ;;
      let c3 := match bunch_data bunch with
                | [] => []
                | _ => [bunch_data bunch]
                end in
      rest <- chunks_loop buckets bunchs' m n ;;
      Ok (c1 ++ c2 ++ c3 ++ rest)
  end.

Definition chunks (b : OrderedBuffer) : result (list (list A)) :=
  chunks_loop (_buckets b)
    (_bunchs b ++ [{| position := _pos b; bunch_data := [] |}]) 0 0.

Definition clear (b : OrderedBuffer) : OrderedBuffer :=
  {| _buckets := _buckets b;
     _bucket_capacity := _bucket_capacity b;
     _pos := (0, 0);
     _bunchs := [] |}.

(** [_push(data, size)] with [size = len(data)]. The bucket written to is
    [buckets[i]]; it is allocated first when [i == len(buckets)], and an
    index beyond that raises. *)
Definition _push (data : list A) (b : OrderedBuffer) : result OrderedBuffer :=
  let size := length data in
  let '(i, j) := _pos b in
  if size <=? _bucket_capacity b - j then
    let buckets :=
      if i =? length (_buckets b)
      then _buckets b ++ [map junk (seq 0 (_bucket_capacity b))]
      else _buckets b in
    if i <? length buckets then
      let buckets' := update buckets i (fun bkt => set_slice bkt j data) in
      let j' := (j + size) mod _bucket_capacity b in
      Ok {| _buckets := buckets';
            _bucket_capacity := _bucket_capacity b;
            _pos := (if j' =? 0 then i + 1 else i, j');
            _bunchs := _bunchs b |}
    else Raise IndexError
  else
    Ok {| _buckets := _buckets b;
          _bucket_capacity := _bucket_capacity b;
          _pos := _pos b;
          _bunchs := _bunchs b ++ [{| position := _pos b;
                                      bunch_data := data |}] |}.

Definition append (x : A) (b : OrderedBuffer) : result OrderedBuffer :=
  _push [x] b.

(** [extend] of an empty sequence returns at once. *)
Definition extend (data : list A) (b : OrderedBuffer) : result OrderedBuffer :=
  match data with
  | [] => Ok b
  | _ => _push data b
  end.

(** A slot handed out by [append]/[extend]: a bucket slot or an offset in
    a bunch. Writing through it mutates the buffer in place. *)
Inductive slot : Type :=
| BucketSlot (i j : nat)
| BunchSlot (k off : nat).

Definition write (h : slot) (f : A -> A) (b : OrderedBuffer) : OrderedBuffer :=
  match h with
  | BucketSlot i j =>
      {| _buckets := update (_buckets b) i (fun bkt => update bkt j f);
         _bucket_capacity := _bucket_capacity b;
         _pos := _pos b;
         _bunchs := _bunchs b |}
  | BunchSlot k off =>
      {| _buckets := _buckets b;
         _bucket_capacity := _bucket_capacity b;
         _pos := _pos b;
         _bunchs := update (_bunchs b) k
                      (fun bunch => {| position := position bunch;
                                       bunch_data :=
                                         update (bunch_data bunch) off f |}) |}
  end.

(** The element that a slot views; [None] where there is no such slot. *)
Definition read (h : slot) (b : OrderedBuffer) : option A :=
  match h with
  | BucketSlot i j =>
      match nth_error (_buckets b) i with
      | Some bkt => nth_error bkt j
      | None => None
      end
  | BunchSlot k off =>
      match nth_error (_bunchs b) k with
      | Some bunch => nth_error (bunch_data bunch) off
      | None => None
      end
  end.

End OrderedBuffer.

End OBuf.

(** ** [_kdtree.py] *)

Module KD.

(** A row of the [(n, 2)] array of positions. *)
Definition point : Type := (Q * Q)%type.

Definition Qlt_bool (x y : Q) : bool := negb (Qle_bool y x).

Definition coord (axis : nat) (p : point) : Q :=
  match axis with
  | O => fst p
  | _ => snd p
  end.

(** The node dtype [(size, bucket, lower_bounds, upper_bounds)]. *)
Record Node : Type := mkNode {
  size : nat;
  bucket : Z;
  lower_bounds : point;
  upper_bounds : point
}.

Record KDTree : Type := mkKDTree {
  _data : list point;
  _n : nat;
  _nodes : list Node;
  _buckets : list (list nat);
  _bucket_size : Z
}.

(** [data[indices]]. *)
Definition take (data : list point) (indices : list nat) : list point :=
  map (fun i => nth i data (0%Q, 0%Q)) indices.

Definition pmin (a b : point) : point :=
  (Qmin (fst a) (fst b), Qmin (snd a) (snd b)).

Definition pmax (a b : point) : point :=
  (Qmax (fst a) (fst b), Qmax (snd a) (snd b)).

(** [numpy.amin(points, axis=0)]: a reduction without identity, which
    raises [ValueError] on a zero-size array. *)
Definition amin (points : list point) : result point :=
  match points with
  | [] => Raise ValueError
  | p :: ps => Ok (fold_left pmin ps p)
  end.

Definition amax (points : list point) : result point :=
  match points with
  | [] => Raise ValueError
  | p :: ps => Ok (fold_left pmax ps p)
  end.

(** [numpy.argmax] of the two side lengths: the first maximum. *)
Definition argmax (side_lengths : point) : nat :=
  if Qlt_bool (fst side_lengths) (snd side_lengths) then 1 else 0.

Definition split_of (lower_bounds upper_bounds : point) : nat * Q :=
  let side_lengths := ((fst upper_bounds - fst lower_bounds)%Q,
                       (snd upper_bounds - snd lower_bounds)%Q) in
  let split_axis := argmax side_lengths in
  (split_axis,
   ((coord split_axis lower_bounds + coord split_axis upper_bounds) / 2)%Q).

Definition left_of (data : list point) (axis : nat) (loc : Q)
  (indices : list nat) : list nat :=
  filter (fun k => Qle_bool (coord axis (nth k data (0%Q, 0%Q))) loc) indices.

Definition right_of (data : list point) (axis : nat) (loc : Q)
  (indices : list nat) : list nat :=
  filter (fun k => Qlt_bool loc (coord axis (nth k data (0%Q, 0%Q)))) indices.

(** First pass of [_build]: the [while stack] loop. [None] is a loop that
    has not finished within [fuel] iterations. *)
Fixpoint build_loop (fuel : nat) (data : list point) (bucket_size : Z)
  (stack : list (list nat * option nat))
  (nodes : list Node) (parents : list (option nat))
  (buckets : list (list nat)) (i : nat)
  : option (result (list Node * list (option nat) * list (list nat))) :=
  match stack with
  | [] => Some (Ok (nodes, parents, buckets))
  | (indices, parent) :: stack' =>
      match fuel with
      | O => None
      | S fuel' =>
          let points := take data indices in
          match amin points with
          | Raise e => Some (Raise e)
          | Ok lower_bounds =>
              match amax points with
              | Raise e => Some (Raise e)
              | Ok upper_bounds =>
                  if (Z.of_nat (length points) <=? bucket_size)%Z then
                    build_loop fuel' data bucket_size stack'
                      (nodes ++ [mkNode 1 (Z.of_nat (length buckets))
                                   lower_bounds upper_bounds])
                      (parents ++ [parent])
                      (buckets ++ [indices]) (i + 1)
                  else
                    let '(split_axis, split_location) :=
                      split_of lower_bounds upper_bounds in
                    let left_indices :=
                      left_of data split_axis split_location indices in
                    let right_indices :=
                      right_of data split_axis split_location indices in
                    build_loop fuel' data bucket_size
                      ((left_indices, Some i) :: (right_indices, Some i)
                         :: stack')
                      (nodes ++ [mkNode 1 (-1) lower_bounds upper_bounds])
                      (parents ++ [parent])
                      buckets (i + 1)
              end
          end
      end
  end.

(** Second pass of [_build]:
    [for i in reversed(range(1, len(nodes))): sizes[parents[i]] += sizes[i]].
    Only the root has no parent, and the loop does not visit it. *)
Definition size_step (parents : list (option nat)) (sizes : list nat)
  (i : nat) : list nat :=
  match nth i parents None with
  | Some p => update sizes p (fun s => s + nth i sizes 0)
  | None => sizes
  end.

Definition size_pass (parents : list (option nat)) (sizes : list nat)
  : list nat :=
  fold_left (size_step parents) (rev (seq 1 (length sizes - 1))) sizes.

Definition set_size (nd : Node) (s : nat) : Node :=
  mkNode s (bucket nd) (lower_bounds nd) (upper_bounds nd).

Definition _build (fuel : nat) (data : list point) (bucket_size : Z)
  : option (result KDTree) :=
  match build_loop fuel data bucket_size [(seq 0 (length data), None)]
          [] [] [] 0 with
  | None => None
  | Some (Raise e) => Some (Raise e)
  | Some (Ok (nodes, parents, buckets)) =>
      let node_sizes := size_pass parents (map size nodes) in
      Some (Ok {| _data := data;
                  _n := length data;
                  _nodes := map (fun ns => set_size (fst ns) (snd ns))
                              (combine nodes node_sizes);
                  _buckets := buckets;
                  _bucket_size := bucket_size |})
  end.

(** [KDTree(data, bucket_size)]. *)
Definition init (fuel : nat) (data : list point) (bucket_size : Z)
  : option (result KDTree) :=
  if (bucket_size <? 1)%Z then Some (Raise ValueError)
  else _build fuel data bucket_size.

Definition sq (x : Q) : Q := (x * x)%Q.

Definition near1 (p l u : Q) : Q := sq (Qmax 0 (Qmax (p - u) (l - p))).

Definition far1 (p l u : Q) : Q := sq (Qmax 0 (Qmax (u - p) (p - l))).

Definition _pt_to_node_near_dist (pt lower upper : point) : Q :=
  (near1 (fst pt) (fst lower) (fst upper)
   + near1 (snd pt) (snd lower) (snd upper))%Q.

Definition _pt_to_node_far_dist (pt lower upper : point) : Q :=
  (far1 (fst pt) (fst lower) (fst upper)
   + far1 (snd pt) (snd lower) (snd upper))%Q.

(** [numpy.sum((point - x) ** 2)]. *)
Definition sqdist (pt x : point) : Q :=
  (sq (fst pt - fst x) + sq (snd pt - snd x))%Q.

(** A squared radius; [None] is [numpy.inf]. *)
Definition limit : Type := option Q.

Definition gt_limit (d : Q) (l : limit) : bool :=
  match l with
  | None => false
  | Some r => Qlt_bool r d
  end.

Definition lt_limit (d : Q) (l : limit) : bool :=
  match l with
  | None => true
  | Some r => Qlt_bool d r
  end.

Definition le_limit (d : Q) (l : limit) : bool :=
  match l with
  | None => true
  | Some r => Qle_bool d r
  end.

(** [buckets[b]] for a Python integer [b]: a negative index counts from
    the end. *)
Definition get_z {A : Type} (l : list A) (z : Z) : result A :=
  if (0 <=? z)%Z then get l (Z.to_nat z)
  else if (0 <=? Z.of_nat (length l) + z)%Z
       then get l (Z.to_nat (Z.of_nat (length l) + z))
       else Raise IndexError.

(** *** The heap of [heapq]

    [heapq] belongs to the Python standard library, not to this repository;
    it is modelled by its contract. The heap is a list of tuples
    [(-dist, j)] kept in ascending order of the tuples, [heappush] inserts,
    and [heappushpop] pushes and then pops the smallest. The layout of the
    list inside [heapq] is not modelled: it is observable only through an
    unsorted result. *)
Definition entry : Type := (Q * nat)%type.

Definition entry_ltb (a b : entry) : bool :=
  Qlt_bool (fst a) (fst b) || (Qeq_bool (fst a) (fst b) && (snd a <? snd b)).

Fixpoint heappush (heap : list entry) (x : entry) : list entry :=
  match heap with
  | [] => [x]
  | y :: heap' =>
      if entry_ltb y x then y :: heappush heap' x else x :: heap
  end.

Definition heappushpop (heap : list entry) (x : entry)
  : entry * list entry :=
  match heappush heap x with
  | [] => (x, [])
  | m :: heap' => (m, heap')
  end.

(** The [for j, dist in zip(indices, dists)] loop of a leaf. *)
Definition leaf_step (data : list point) (pt : point) (count : nat)
  (st : list entry * limit) (j : nat) : list entry * limit :=
  let '(nearests, dist_limit) := st in
  let dist := sqdist pt (nth j data (0%Q, 0%Q)) in
  if lt_limit dist dist_limit then
    if count <=? length nearests then
      let '(popped, nearests') := heappushpop nearests ((- dist)%Q, j) in
      (nearests', Some (- fst popped)%Q)
    else (heappush nearests ((- dist)%Q, j), dist_limit)
  else st.

(** The two children of node [i] with their near distances, nearest
    first: the order in which they are visited. *)
Definition children (nodes : list Node) (pt : point) (i : nat)
  : result (list (nat * Q)) :=
  let left_node_idx := i + 1 in
  ln <- get nodes left_node_idx ;;
  let right_node_idx := i + 1 + size ln in
  rn <- get nodes right_node_idx ;;
  let pt_left_node_dist :=
    _pt_to_node_near_dist pt (lower_bounds ln) (upper_bounds ln) in
  let pt_right_node_dist :=
    _pt_to_node_near_dist pt (lower_bounds rn) (upper_bounds rn) in
  if Qle_bool pt_left_node_dist pt_right_node_dist then
    Ok [(left_node_idx, pt_left_node_dist);
        (right_node_idx, pt_right_node_dist)]
  else
    Ok [(right_node_idx, pt_right_node_dist);
        (left_node_idx, pt_left_node_dist)].

(** The [while stack] loop of [_search_k_nearests]. *)
Fixpoint knn_loop (fuel : nat) (t : KDTree) (pt : point) (count : nat)
  (stack : list (nat * Q)) (st : list entry * limit)
  : option (result (list entry)) :=
  match stack with
  | [] => Some (Ok (fst st))
  | (i, pt_node_dist) :: stack' =>
      match fuel with
      | O => None
      | S fuel' =>
          if gt_limit pt_node_dist (snd st) then
            knn_loop fuel' t pt count stack' st
          else
            match get (_nodes t) i with
            | Raise e => Some (Raise e)
            | Ok nd =>
                if size nd =? 1 then
                  match get_z (_buckets t) (bucket nd) with
                  | Raise e => Some (Raise e)
                  | Ok indices =>
                      knn_loop fuel' t pt count stack'
                        (fold_left (leaf_step (_data t) pt count) indices st)
                  end
                else
                  match children (_nodes t) pt i with
                  | Raise e => Some (Raise e)
                  | Ok cs => knn_loop fuel' t pt count (cs ++ stack') st
                  end
            end
      end
  end.

(** A row of the neighbour dtype [(squared_distance, index)]. *)
Definition neighbour : Type := (Q * nat)%type.

(** [ndarray.sort(order='squared_distance')]: the rows are compared by
    squared distance, and the remaining field ([index]) breaks ties. *)
Definition neighbour_leb (a b : neighbour) : bool :=
  Qlt_bool (fst a) (fst b) || (Qeq_bool (fst a) (fst b) && (snd a <=? snd b)).

Fixpoint insert_sorted (x : neighbour) (l : list neighbour)
  : list neighbour :=
  match l with
  | [] => [x]
  | y :: l' =>
      if neighbour_leb x y then x :: l else y :: insert_sorted x l'
  end.

Definition np_sort (l : list neighbour) : list neighbour :=
  fold_right insert_sorted [] l.

Definition root_stack (t : KDTree) (pt : point) : result (list (nat * Q)) :=
  root <- get (_nodes t) 0 ;;
  Ok [(0, _pt_to_node_near_dist pt (lower_bounds root) (upper_bounds root))].

(** Every node is popped at most once, so the loops below are given one
    unit of fuel per node. *)
Definition _search_k_nearests (t : KDTree) (pt : point) (count : nat)
  (radius : limit) (sort : bool) : option (result (list neighbour)) :=
  let dist_limit := option_map sq radius in
  match root_stack t pt with
  | Raise e => Some (Raise e)
  | Ok stack =>
      match knn_loop (length (_nodes t)) t pt count stack
              ([], dist_limit) with
      | None => None
      | Some (Raise e) => Some (Raise e)
      | Some (Ok nearests) =>
          let out := map (fun e => ((- fst e)%Q, snd e)) nearests in
          Some (Ok (if sort then np_sort out else out))
      end
  end.

(** The indices held by the leaves among [leaves], bucket after bucket. *)
Fixpoint gather (buckets : list (list nat)) (leaves : list Node)
  : result (list nat) :=
  match leaves with
  | [] => Ok []
  | nd :: leaves' =>
      indices <- get_z buckets (bucket nd) ;;
      rest <- gather buckets leaves' ;;
      Ok (indices ++ rest)
  end.

(** The [while stack] loop of [_search_all_within_radius]. [neighbours] is
    the dynamic array of rows found so far; a [resize] followed by the
    assignment of both fields of the new rows appends these rows. A
    distance left at [numpy.nan] is [None]. *)
Fixpoint radius_loop (fuel : nat) (t : KDTree) (pt : point) (radius : limit)
  (stack : list (nat * Q)) (neighbours : list (option Q * nat))
  : option (result (list (option Q * nat))) :=
  match stack with
  | [] => Some (Ok neighbours)
  | (i, pt_node_near_dist) :: stack' =>
      match fuel with
      | O => None
      | S fuel' =>
          if gt_limit pt_node_near_dist radius then
            radius_loop fuel' t pt radius stack' neighbours
          else
            match get (_nodes t) i with
            | Raise e => Some (Raise e)
            | Ok nd =>
                if le_limit (_pt_to_node_far_dist pt (lower_bounds nd)
                               (upper_bounds nd)) radius then
                  let leaves :=
                    filter (fun c => size c =? 1)
                      (slice (_nodes t) i (i + size nd)) in
                  match gather (_buckets t) leaves with
                  | Raise e => Some (Raise e)
                  | Ok indices =>
                      radius_loop fuel' t pt radius stack'
                        (neighbours ++ map (fun j => (None, j)) indices)
                  end
                else if size nd =? 1 then
                  match get_z (_buckets t) (bucket nd) with
                  | Raise e => Some (Raise e)
                  | Ok indices =>
                      let dists :=
                        map (fun j =>
                               (sqdist pt (nth j (_data t) (0%Q, 0%Q)), j))
                          indices in
                      let is_within :=
                        filter (fun dj => le_limit (fst dj) radius) dists in
                      radius_loop fuel' t pt radius stack'
                        (neighbours
                         ++ map (fun dj => (Some (fst dj), snd dj)) is_within)
                  end
                else
                  match children (_nodes t) pt i with
                  | Raise e => Some (Raise e)
                  | Ok cs => radius_loop fuel' t pt radius (cs ++ stack')
                               neighbours
                  end
            end
      end
  end.

(** "Compute all the distances": the rows left at [numpy.nan]. *)
Definition fill_distance (data : list point) (pt : point)
  (row : option Q * nat) : neighbour :=
  match fst row with
  | Some d => (d, snd row)
  | None => (sqdist pt (nth (snd row) data (0%Q, 0%Q)), snd row)
  end.

Definition _search_all_within_radius (t : KDTree) (pt : point)
  (radius : limit) (sort : bool) : option (result (list neighbour)) :=
  let radius := option_map sq radius in
  match root_stack t pt with
  | Raise e => Some (Raise e)
  | Ok stack =>
      match radius_loop (length (_nodes t)) t pt radius stack [] with
      | None => None
      | Some (Raise e) => Some (Raise e)
      | Some (Ok neighbours) =>
          let out := map (fill_distance (_data t) pt) neighbours in
          Some (Ok (if sort then np_sort out else out))
      end
  end.

(** [search(point, count, radius, sort)]; [None] for [count] and [radius]
    is Python's [None]. *)
Definition search (t : KDTree) (pt : point) (count : option Z)
  (radius : option Q) (sort : bool) : option (result (list neighbour)) :=
  let count_or_empty :=
    match count with
    | None => Some (Z.of_nat (_n t))
    | Some c => if (c <? 1)%Z then None else Some c
    end in
  match count_or_empty with
  | None => Some (Ok [])
  | Some count =>
      let negative :=
        match radius with
        | None => false
        | Some r => Qlt_bool r 0
        end in
      if negative then Some (Ok [])
      else if (Z.of_nat (_n t) <=? count)%Z
           then _search_all_within_radius t pt radius sort
           else _search_k_nearests t pt (Z.to_nat count) radius sort
  end.

(** *** The brute-force reference

    Written from the specification: the [count] points of smallest squared
    distance among those within the radius, sorted ascending. *)
Definition all_rows (data : list point) (pt : point) : list neighbour :=
  map (fun i => (sqdist pt (nth i data (0%Q, 0%Q)), i)) (seq 0 (length data)).

Definition within (radius : option Q) (row : neighbour) : bool :=
  le_limit (fst row) (option_map sq radius).

Definition strictly_within (radius : option Q) (row : neighbour) : bool :=
  lt_limit (fst row) (option_map sq radius).

Definition top (count : option Z) (rows : list neighbour) : list neighbour :=
  match count with
  | None => rows
  | Some c => firstn (Z.to_nat c) rows
  end.

Definition brute_force (data : list point) (pt : point) (count : option Z)
  (radius : option Q) : list neighbour :=
  let invalid :=
    match count, radius with
    | Some c, _ => if (c <=? 0)%Z then true
                   else match radius with
                        | Some r => Qlt_bool r 0
                        | None => false
                        end
    | None, Some r => Qlt_bool r 0
    | None, None => false
    end in
  if invalid then []
  else top count (np_sort (filter (within radius) (all_rows data pt))).

End KD.

(** ** [dynamics.py] *)

Module Sim.

(** The particle record of [_ATTRS]. The caller-declared extension fields
    ([particle_attributes]) are data carried along by every operation below
    and are left out. *)
Record Particle : Type := mkParticle {
  id : Z;
  alive : bool;
  position : KD.point;
  velocity : KD.point;
  force : KD.point;
  mass : Q;
  size : Q;
  color : Q * Q * Q * Q
}.

Definition default : Particle :=
  {| id := -1;
     alive := true;
     position := (0%Q, 0%Q);
     velocity := (0%Q, 0%Q);
     force := (0%Q, 0%Q);
     mass := 1%Q;
     size := 1%Q;
     color := (1%Q, 1%Q, 1%Q, 1%Q) |}.

Definition set_id (p : Particle) (i : Z) : Particle :=
  mkParticle i (alive p) (position p) (velocity p) (force p) (mass p)
    (size p) (color p).

Definition set_alive (b : bool) (p : Particle) : Particle :=
  mkParticle (id p) b (position p) (velocity p) (force p) (mass p)
    (size p) (color p).

Definition set_force (f : KD.point) (p : Particle) : Particle :=
  mkParticle (id p) (alive p) (position p) (velocity p) f (mass p)
    (size p) (color p).

(** The [id] field is an [Int32]: a value stored into it is reduced to 32
    bits, two's complement. *)
Definition Int32 (z : Z) : Z := ((z + 2 ^ 31) mod 2 ^ 32 - 2 ^ 31)%Z.

Definition INT32_MAX : Z := (2 ^ 31 - 1)%Z.

Section Simulation.

(** Content of freshly allocated particle storage. *)
Variable junk : nat -> Particle.

(** The part of a simulation that the particle interface reads and
    writes. *)
Record State : Type := mkState {
  _array : DynArr.DynamicArray Particle;
  _buffer : OBuf.OrderedBuffer Particle;
  _last_id : Z;
  _kd_tree : option KD.KDTree
}.

(** A callback receives the simulation; [time_step] and [time] are
    read-only properties, so it is a function of them and of the state. *)
Definition callback : Type := Q -> Q -> State -> State.

Record ParticleSimulation : Type := mkParticleSimulation {
  _time_step : Q;
  _time : Q;
  _presolve_callback : option callback;
  _postsolve_callback : option callback;
  state : State
}.

Definition particles (s : State) : list Particle := DynArr.data (_array s).

Definition add_particle (kwargs : Particle -> Particle) (s : State)
  : result State :=
  let p := set_id (kwargs default) (Int32 (_last_id s + 1)) in
  buffer <- OBuf.append junk p (_buffer s) ;;
  Ok {| _array := _array s;
        _buffer := buffer;
        _last_id := id p;
        _kd_tree := _kd_tree s |}.

(** [numpy.empty(count)] rejects a negative count; [particles['id'][-1]]
    raises on the empty array returned for [count = 0]. *)
Definition add_particles (count : Z) (s : State) : result State :=
  if (count <? 0)%Z then Raise ValueError
  else
    let array :=
      map (fun k => set_id default (Int32 (_last_id s + 1 + Z.of_nat k)))
        (seq 0 (Z.to_nat count)) in
    buffer <- OBuf.extend junk array (_buffer s) ;;
    match rev array with
    | [] => Raise IndexError
    | last :: _ =>
        Ok {| _array := _array s;
              _buffer := buffer;
              _last_id := id last;
              _kd_tree := _kd_tree s |}
    end.

(** [numpy.searchsorted(a, v)], side left: a binary search. *)
Fixpoint bisect_left (fuel : nat) (a : list Z) (v : Z) (lo hi : nat) : nat :=
  match fuel with
  | O => lo
  | S fuel' =>
      if lo <? hi then
        let mid := lo + (hi - lo) / 2 in
        if (nth mid a 0 <? v)%Z then bisect_left fuel' a v (mid + 1) hi
        else bisect_left fuel' a v lo mid
      else lo
  end.

Definition searchsorted (a : list Z) (v : Z) : nat :=
  bisect_left (length a) a v 0 (length a).

(** Returns the slot found (the handle) and the particle in it. *)
Definition get_particle (i : Z) (s : State) : result (nat * Particle) :=
  let i := Int32 i in
  let idx := searchsorted (map id (particles s)) i in
  if (Z.of_nat idx <? DynArr.len (_array s))%Z then
    p <- get (particles s) idx ;;
    if (id p =? i)%Z then Ok (idx, p) else Raise ValueError
  else Raise ValueError.

(** [KDTree(self._array.data['position'])] with the default bucket size.
    The tree keeps a view of the positions of the store, not a copy of
    them, and the store is neither resized nor reallocated while a tree is
    cached: a tree cached by an earlier query reads the positions as they
    are at the time of the query, with the nodes and the buckets that
    were built then. *)
Definition get_neighbour_particles (fuel : nat) (pt : KD.point)
  (count : option Z) (radius : option Q) (sort : bool) (s : State)
  : option (result (list KD.neighbour * State)) :=
  let tree :=
    match _kd_tree s with
    | None => KD.init fuel (map position (particles s)) 128
    | Some t =>
        Some (Ok {| KD._data := map position (particles s);
                    KD._n := KD._n t;
                    KD._nodes := KD._nodes t;
                    KD._buckets := KD._buckets t;
                    KD._bucket_size := KD._bucket_size t |})
    end in
  match tree with
  | None => None
  | Some (Raise e) => Some (Raise e)
  | Some (Ok t) =>
      match KD.search t pt count radius sort with
      | None => None
      | Some (Raise e) => Some (Raise e)
      | Some (Ok neighbours) =>
          Some (Ok (neighbours,
                    {| _array := _array s;
                       _buffer := _buffer s;
                       _last_id := _last_id s;
                       _kd_tree := Some t |}))
      end
  end.

Definition count_nonzero (filter : list bool) : nat :=
  length (List.filter (fun b => b) filter).

(** [numpy.compress(filter, chunk)]. *)
Definition compress (filter : list bool) (chunk : list Particle)
  : list Particle :=
  map snd (List.filter fst (combine filter chunk)).

(** The body of the [for filter, chunk, count] loop of [consolidate]: the
    state is the storage written to and the cursor [i]. *)
Definition copy_chunk (st : list Particle * nat)
  (fcc : list bool * list Particle * nat) : list Particle * nat :=
  let '(array, i) := st in
  let '(filter, chunk, count) := fcc in
  let written :=
    if count =? length chunk then chunk else compress filter chunk in
  (set_slice array i written, i + count).

(** [consolidate]. The first chunk is a view of the storage in use before
    the call; when the storage is not reallocated the loop writes into the
    memory this chunk views, but only at positions it has already read:
    the chunk is read in the first round only, front to back, and round
    [k] writes at a position not beyond the one it reads. The chunks are
    therefore the values read before the loop. *)
Definition consolidate (s : State) : result State :=
  buffer_chunks <- OBuf.chunks (_buffer s) ;;
  let chunks := particles s :: buffer_chunks in
  let filters := map (map alive) chunks in
  let counts := map count_nonzero filters in
  let new_size := list_sum counts in
  if (OBuf.len (_buffer s) =? 0)
     && (Z.of_nat new_size =? DynArr.len (_array s))%Z
  then Ok s
  else
    array <- DynArr.resize junk (Z.of_nat new_size) false (_array s) ;;
    let '(storage, _) :=
      fold_left copy_chunk (combine (combine filters chunks) counts)
        (DynArr._array array, 0) in
    Ok {| _array := {| DynArr._array := storage;
                       DynArr._size := DynArr._size array |};
          _buffer := OBuf.clear (_buffer s);
          _last_id := _last_id s;
          _kd_tree := None |}.

(** In-place arithmetic on [self._array.data]. *)
Definition map_data (f : Particle -> Particle)
  (a : DynArr.DynamicArray Particle) : DynArr.DynamicArray Particle :=
  let d := DynArr.data a in
  {| DynArr._array := map f d ++ skipn (length d) (DynArr._array a);
     DynArr._size := DynArr._size a |}.

Definition vadd (a b : KD.point) : KD.point :=
  ((fst a + fst b)%Q, (snd a + snd b)%Q).

Definition vscale (a : KD.point) (k : Q) : KD.point :=
  ((fst a * k)%Q, (snd a * k)%Q).

Definition vdiv (a : KD.point) (k : Q) : KD.point :=
  ((fst a / k)%Q, (snd a / k)%Q).

(** [_solve] on one row:
    [velocity += force * time_step / mass; position += velocity * time_step].
    The division of the code by a mass of zero gives an infinity or a nan,
    which the rationals do not have: what is stated of [_solve] is stated
    of the rows of non-zero mass. *)
Definition _solve (time_step : Q) (p : Particle) : Particle :=
  let v := vadd (velocity p) (vdiv (vscale (force p) time_step) (mass p)) in
  let x := vadd (position p) (vscale v time_step) in
  mkParticle (id p) (alive p) x v (force p) (mass p) (size p) (color p).

Definition run_callback (cb : option callback) (time_step time : Q)
  (s : State) : result State :=
  match cb with
  | Some f => consolidate (f time_step time s)
  | None => Ok s
  end.

(** [particles = self._array.data; _solve(particles, self.time_step);
    particles['force'] = 0]. *)
Definition integrate (time_step : Q) (s : State) : State :=
  {| _array := map_data (set_force (0%Q, 0%Q))
                 (map_data (_solve time_step) (_array s));
     _buffer := _buffer s;
     _last_id := _last_id s;
     _kd_tree := _kd_tree s |}.

Definition step (sim : ParticleSimulation) : result ParticleSimulation :=
  let time := (_time sim + _time_step sim)%Q in
  s1 <- run_callback (_presolve_callback sim) (_time_step sim) time
          (state sim) ;;
  let s2 := integrate (_time_step sim) s1 in
  s3 <- run_callback (_postsolve_callback sim) (_time_step sim) time s2 ;;
  Ok {| _time_step := _time_step sim;
        _time := time;
        _presolve_callback := _presolve_callback sim;
        _postsolve_callback := _postsolve_callback sim;
        state := s3 |}.

(** [ParticleSimulation(...)]. *)
Definition init (time_step : Q) (initial_particle_capacity : Z)
  (particle_bucket_buffer_capacity : Z)
  (initialize_callback presolve_callback postsolve_callback : option callback)
  : result ParticleSimulation :=
  array <- DynArr.init junk initial_particle_capacity ;;
  buffer <- OBuf.init Particle particle_bucket_buffer_capacity ;;
  let s := {| _array := array;
              _buffer := buffer;
              _last_id := -1;
              _kd_tree := None |} in
  s' <- run_callback initialize_callback time_step 0%Q s ;;
  Ok {| _time_step := time_step;
        _time := 0%Q;
        _presolve_callback := presolve_callback;
        _postsolve_callback := postsolve_callback;
        state := s' |}.

(** A particle handle: a view of a store slot or of a buffer slot. A write
    through it is in place; the [id] field is read-only. *)
Inductive handle : Type :=
| StoreSlot (idx : nat)
| BufferSlot (h : OBuf.slot).

Definition write (h : handle) (f : Particle -> Particle) (s : State)
  : State :=
  let g := fun p => set_id (f p) (id p) in
  match h with
  | StoreSlot idx =>
      {| _array := {| DynArr._array := update (DynArr._array (_array s)) idx g;
                      DynArr._size := DynArr._size (_array s) |};
         _buffer := _buffer s;
         _last_id := _last_id s;
         _kd_tree := _kd_tree s |}
  | BufferSlot b =>
      {| _array := _array s;
         _buffer := OBuf.write b g (_buffer s);
         _last_id := _last_id s;
         _kd_tree := _kd_tree s |}
  end.

End Simulation.

End Sim.

(** ** The simulation worker of [application.py] *)

Module Worker.

Section Loop.

Variable junk : nat -> Sim.Particle.

Inductive message : Type :=
| MESSAGE_ERROR
| MESSAGE_STOP
| MESSAGE_QUIT
| MESSAGE_REQUEST_SIM_UPDATE
| MESSAGE_SIM_UPDATE (time : Q)
| MESSAGE_RUN_CALLBACKS (callbacks : list Sim.callback).

(** What the worker writes to [to_gui]. *)
Inductive sent : Type :=
| SentMessage (m : message)
| SentBuffer (rows : list Sim.Particle).

(** The local variables of [_particle_simulation_process]. *)
Record locals : Type := mkLocals {
  sim : Sim.ParticleSimulation;
  callbacks : option (list Sim.callback);
  step : bool;
  send : bool
}.

Definition start (sim : Sim.ParticleSimulation) : locals :=
  {| sim := sim; callbacks := None; step := true; send := false |}.

(** The inner [while True] loop: every message waiting on [from_gui]. *)
Definition drain (inbound : list message) (w : locals) : locals :=
  fold_left
    (fun w m =>
       match m with
       | MESSAGE_REQUEST_SIM_UPDATE =>
           {| sim := sim w; callbacks := callbacks w; step := step w;
              send := true |}
       | MESSAGE_RUN_CALLBACKS cbs =>
           {| sim := sim w; callbacks := Some cbs; step := step w;
              send := send w |}
       | _ => w
       end)
    inbound w.

Definition _run_callbacks (s : Sim.ParticleSimulation)
  (cbs : list Sim.callback) : Sim.State :=
  fold_left (fun st cb => cb (Sim._time_step s) (Sim._time s) st) cbs
    (Sim.state s).

Definition with_state (s : Sim.ParticleSimulation) (st : Sim.State)
  : Sim.ParticleSimulation :=
  {| Sim._time_step := Sim._time_step s;
     Sim._time := Sim._time s;
     Sim._presolve_callback := Sim._presolve_callback s;
     Sim._postsolve_callback := Sim._postsolve_callback s;
     Sim.state := st |}.

(** The [if step:] block. *)
Definition step_block (w : locals) : result locals :=
  if step w then
    s1 <- match callbacks w with
          | Some cbs =>
              st <- Sim.consolidate junk (_run_callbacks (sim w) cbs) ;;
              Ok (with_state (sim w) st)
          | None => Ok (sim w)
          end ;;
    s2 <- Sim.step junk s1 ;;
    Ok {| sim := s2; callbacks := None; step := false; send := send w |}
  else Ok w.

(** The [if send:] block, with what it writes. *)
Definition send_block (w : locals) : locals * list sent :=
  if send w then
    ({| sim := sim w; callbacks := callbacks w; step := true;
        send := false |},
     [SentMessage (MESSAGE_SIM_UPDATE (Sim._time (sim w)));
      SentBuffer (Sim.particles (Sim.state (sim w)))])
  else (w, []).

(** One round of the outer loop, given the message polled from
    [downwards] ([None] when there is none) and the messages waiting on
    [from_gui]. [None] is the [break] on [MESSAGE_STOP]. *)
Definition iteration (control : option message) (inbound : list message)
  (w : locals) : option (result (locals * list sent)) :=
  match control with
  | Some MESSAGE_STOP => None
  | _ =>
      Some (w1 <- step_block (drain inbound w) ;;
            Ok (send_block w1))
  end.

(** The loop over the rounds it is given, with everything it writes; it
    ends at a [break] and at an exception. *)
Fixpoint run (rounds : list (option message * list message)) (w : locals)
  : list sent :=
  match rounds with
  | [] => []
  | (control, inbound) :: rounds' =>
      match iteration control inbound w with
      | Some (Ok (w', out)) => out ++ run rounds' w'
      | _ => []
      end
  end.

Definition is_request (m : message) : bool :=
  match m with
  | MESSAGE_REQUEST_SIM_UPDATE => true
  | _ => false
  end.

Definition requests (rounds : list (option message * list message)) : nat :=
  length (filter is_request (concat (map snd rounds))).

Fixpoint update_times (out : list sent) : list Q :=
  match out with
  | [] => []
  | SentMessage (MESSAGE_SIM_UPDATE t) :: out' => t :: update_times out'
  | _ :: out' => update_times out'
  end.

End Loop.

End Worker.

(** ** The GUI process of [application.py] *)

Module Gui.

Section Loop.

(** A row of the particle buffer; the loop does not look into it. *)
Variable Row : Type.

(** [hienoi.renderer.SceneState]. *)
Record SceneState : Type := mkSceneState {
  time : Q;
  particles : list Row
}.

(** What the loop reads of [configs.application]. *)
Record config : Type := mkConfig {
  time_step : Q;
  capture : bool;
  capture_increment : Z
}.

Inductive exn : Type :=
| AssertionError
| ZeroDivisionError.

(** What the process does to the outside: the calls of the GUI and what
    it writes to its channels. *)
Inductive event : Type :=
| PollEvents (s : SceneState)
| ToPsim (m : Worker.message)
| Upwards (m : Worker.message)
| Render (s : SceneState)
| WriteSnapshot (frame : Z).

(** The local variables of [_gui_process]. [partial_state] is a dict that
    always has the key ['time'] and may have the key ['particles'].
    [from_psim] is what the worker has written to the pipe and the loop
    has not read yet: updates, each a message with its time and the
    buffer that follows it. *)
Record locals : Type := mkLocals {
  current_state : SceneState;
  partial_time : Q;
  partial_particles : option (list Row);
  next_state : option SceneState;
  request_sim_updates : bool;
  frame : Z;
  render : bool;
  accumulator : Q;
  previous_time : Q;
  elapsed_time : Q;
  from_psim : list (Q * list Row)
}.

Definition start (cfg : config) (initial : list Row) : locals :=
  {| current_state := mkSceneState 0%Q initial;
     partial_time := time_step cfg;
     partial_particles := None;
     next_state := None;
     request_sim_updates := true;
     frame := 0;
     render := true;
     accumulator := 0%Q;
     previous_time := 0%Q;
     elapsed_time := 0%Q;
     from_psim := [] |}.

(** What one round of the loop gets from the outside: the message polled
    from [downwards], [gui.quit] after the events are polled, the
    callbacks that the events have left, the updates that have arrived on
    the pipe since the last round, and [_clock() - time_start] at the end
    of the round. *)
Record input : Type := mkInput {
  control : option Worker.message;
  quit : bool;
  callbacks : list Sim.callback;
  arrivals : list (Q * list Row);
  clock : Q
}.

Inductive outcome : Type :=
| Continue (w : locals)
| Break
| Fail (e : exn).

(** The [if next_state is None:] block: the request, and the read of an
    update when the partial state has no particles yet. The particles
    kept are the data of the array unpacked from the buffer. *)
Definition receive (cfg : config) (w : locals) (pipe : list (Q * list Row))
  : option exn * list event * bool * option (list Row) * list (Q * list Row) :=
  match next_state w with
  | Some _ =>
      (None, [], request_sim_updates w, partial_particles w, pipe)
  | None =>
      let sent :=
        if request_sim_updates w
        then [ToPsim Worker.MESSAGE_REQUEST_SIM_UPDATE] else [] in
      match partial_particles w, pipe with
      | None, (t, rows) :: pipe' =>
          if KD.Qlt_bool (Qabs (t - partial_time w))
               (time_step cfg * (1 # 10))
          then (None, sent, false,
                Some (DynArr.data (DynArr.from_buffer rows)), pipe')
          else (Some AssertionError, sent, false, None, pipe)
      | _, _ => (None, sent, false, partial_particles w, pipe)
      end
  end.

(** The [if render:] block. *)
Definition render_block (cfg : config) (current : SceneState) (frame : Z)
  (render : bool) : option exn * list event * Z :=
  if render then
    if capture cfg then
      if (capture_increment cfg =? 0)%Z
      then (Some ZeroDivisionError, [Render current], frame)
      else if (frame mod capture_increment cfg =? 0)%Z
           then (None, [Render current; WriteSnapshot frame], (frame + 1)%Z)
           else (None, [Render current], (frame + 1)%Z)
    else (None, [Render current], (frame + 1)%Z)
  else (None, [], frame).

(** One round of the [while True] loop. *)
Definition iteration (cfg : config) (inp : input) (w : locals)
  : outcome * list event :=
  match control inp with
  | Some Worker.MESSAGE_STOP => (Break, [])
  | _ =>
      let polled := [PollEvents (current_state w)] in
      if quit inp then (Break, polled ++ [Upwards Worker.MESSAGE_QUIT])
      else
        let run_callbacks :=
          match callbacks inp with
          | [] => []
          | cbs => [ToPsim (Worker.MESSAGE_RUN_CALLBACKS cbs)]
          end in
        let '(failed, requested, request1, partial1, pipe1) :=
          receive cfg w (from_psim w ++ arrivals inp) in
        match failed with
        | Some e => (Fail e, polled ++ run_callbacks ++ requested)
        | None =>
            let '(next1, request2) :=
              match partial1 with
              | Some rows =>
                  (Some (mkSceneState (partial_time w) rows), true)
              | None => (next_state w, request1)
              end in
            let accumulator1 := (accumulator w + elapsed_time w)%Q in
            let '(current2, partial_time2, partial2, next2, accumulator2,
                  render2) :=
              match next1 with
              | Some next =>
                  if Qle_bool (time_step cfg) accumulator1
                  then (next, (time next + time_step cfg)%Q, None, None,
                        0%Q, true)
                  else (current_state w, partial_time w, partial1, next1,
                        accumulator1, render w)
              | None =>
                  (current_state w, partial_time w, partial1, next1,
                   accumulator1, render w)
              end in
            let '(failed3, rendered, frame3) :=
              render_block cfg current2 (frame w) render2 in
            let out := polled ++ run_callbacks ++ requested ++ rendered in
            match failed3 with
            | Some e => (Fail e, out)
            | None =>
                (Continue
                   {| current_state := current2;
                      partial_time := partial_time2;
                      partial_particles := partial2;
                      next_state := next2;
                      request_sim_updates := request2;
                      frame := frame3;
                      render := false;
                      accumulator := accumulator2;
                      previous_time := clock inp;
                      elapsed_time := (clock inp - previous_time w)%Q;
                      from_psim := pipe1 |},
                 out)
            end
        end
  end.

(** The loop over the rounds it is given, with what it does to the
    outside and the exception that ends it, if any. *)
Fixpoint run (cfg : config) (inputs : list input) (w : locals)
  : list event * option exn :=
  match inputs with
  | [] => ([], None)
  | inp :: inputs' =>
      match iteration cfg inp w with
      | (Continue w', out) =>
          let '(out', e) := run cfg inputs' w' in (out ++ out', e)
      | (Break, out) => (out, None)
      | (Fail e, out) => (out, Some e)
      end
  end.

Definition is_request (ev : event) : bool :=
  match ev with
  | ToPsim Worker.MESSAGE_REQUEST_SIM_UPDATE => true
  | _ => false
  end.

End Loop.

End Gui.

(** * Properties *)

(** ** The dynamic array *)

Module DynArrFacts.

Section Facts.

Variable A : Type.
Variable junk : nat -> A.

Lemma np_empty_length (n : nat) : length (DynArr.np_empty junk n) = n.
Proof. unfold DynArr.np_empty. now rewrite length_map, length_seq. Qed.

Lemma slice_to_nonneg (l : list A) (n : Z) :
  (0 <= n)%Z -> slice_to l n = firstn (Z.to_nat n) l.
Proof. intros H. unfold slice_to. now apply Z.leb_le in H as ->. Qed.

Lemma grow_target_bounds (requested : Z) (a : DynArr.DynamicArray A) :
  (requested <= DynArr.grow_target requested a
   /\ 3 * DynArr.capacity a - 1 <= 2 * DynArr.grow_target requested a
   /\ DynArr.minimum_step <= DynArr.grow_target requested a)%Z.
Proof.
  unfold DynArr.grow_target, DynArr.minimum_step.
  pose proof (Z.div_mod (3 * DynArr.capacity a) 2 ltac:(lia)) as Hd.
  pose proof (Z.mod_pos_bound (3 * DynArr.capacity a) 2 ltac:(lia)) as Hm.
  lia.
Qed.


(** C7 (as the code has it). A negative request is not rejected: [grow]
    returns without an error and leaves the array as it is, [resize]
    returns without an error, keeps the storage and records the negative
    number as the logical size; a zero-capacity array is constructed
    without an error. *)
Theorem negative_request_accepted (a : DynArr.DynamicArray A)
  (requested : Z) (copy : bool) :
  (requested < 0)%Z ->
  DynArr.grow junk requested copy a = Ok a
  /\ DynArr.resize junk requested copy a
     = Ok {| DynArr._array := DynArr._array a; DynArr._size := requested |}
  /\ DynArr.init junk 0 = Ok {| DynArr._array := []; DynArr._size := 0 |}.
Proof.
  intros Hneg.
  assert (Hg : DynArr.grow junk requested copy a = Ok a).
  { unfold DynArr.grow, DynArr.capacity.
    destruct (Z.leb_spec requested (Z.of_nat (length (DynArr._array a))));
      [reflexivity | lia]. }
  split; [exact Hg |]. split; [| reflexivity].
  unfold DynArr.resize. now rewrite Hg.
Qed.

End Facts.



Lemma negative_request_accepted_witness :
  DynArr.grow (fun _ => 0) (-1) true
    {| DynArr._array := [7; 8; 9]; DynArr._size := 2 |}
  = Ok {| DynArr._array := [7; 8; 9]; DynArr._size := 2 |}
  /\ DynArr.resize (fun _ => 0) (-1) true
       {| DynArr._array := [7; 8; 9]; DynArr._size := 2 |}
     = Ok {| DynArr._array := [7; 8; 9]; DynArr._size := (-1) |}
  /\ DynArr.init (fun _ => 0) 0
     = Ok {| DynArr._array := []; DynArr._size := 0 |}.
Proof.
  apply (@negative_request_accepted nat (fun _ => 0)
           {| DynArr._array := [7; 8; 9]; DynArr._size := 2 |} (-1) true).
  lia.
Defined.

(** [resize(-1)] on an array holding two elements raises nothing and
    leaves an array that is not the one it was given. *)
Lemma resize_negative_not_rejected :
  ~ (exists e,
        DynArr.resize (fun _ => 0) (-1) true
          {| DynArr._array := [7; 8; 9]; DynArr._size := 2 |} = Raise e)
  /\ DynArr.resize (fun _ => 0) (-1) true
       {| DynArr._array := [7; 8; 9]; DynArr._size := 2 |}
     <> Ok {| DynArr._array := [7; 8; 9]; DynArr._size := 2 |}.
Proof.
  split.
  - intros [e He]. discriminate He.
  - intros H. discriminate H.
Qed.

End DynArrFacts.

(** ** Lists, slices and in-place updates *)

Module ListFacts.

Section Slices.

Variable A : Type.

Lemma slice_split (l : list A) (a b c : nat) :
  a <= b -> b <= c -> slice l a b ++ slice l b c = slice l a c.
Proof.
  intros Hab Hbc. unfold slice.
  replace (c - a) with ((b - a) + (c - b)) by lia.
  rewrite <- (firstn_skipn (b - a) (firstn (b - a + (c - b)) (skipn a l))).
  f_equal.
  - rewrite firstn_firstn. f_equal. lia.
  - rewrite skipn_firstn_comm, skipn_skipn. f_equal; [lia | f_equal; lia].
Qed.

Lemma slice_nil (l : list A) (a : nat) : slice l a a = [].
Proof. unfold slice. now rewrite Nat.sub_diag. Qed.

Lemma slice_app_mid (pre mid post : list A) (j n : nat) :
  n <= length mid ->
  slice (pre ++ mid ++ post) (length pre + j) (length pre + n) = slice mid j n.
Proof.
  intros Hn. unfold slice.
  rewrite skipn_app, skipn_all2 by lia. cbn [app].
  replace (length pre + j - length pre) with j by lia.
  replace (length pre + n - (length pre + j)) with (n - j) by lia.
  rewrite skipn_app, firstn_app, length_skipn.
  replace (n - j - (length mid - j)) with 0 by lia.
  rewrite firstn_O. apply app_nil_r.
Qed.

Lemma concat_length_uniform (cap : nat) (ls : list (list A)) :
  Forall (fun l => length l = cap) ls ->
  length (concat ls) = cap * length ls.
Proof.
  induction 1 as [| l ls Hl _ IH]; cbn [concat length]; [lia |].
  rewrite length_app, IH, Hl. lia.
Qed.

Lemma nth_error_decompose (ls : list (list A)) (i : nat) (l : list A) :
  nth_error ls i = Some l ->
  ls = firstn i ls ++ l :: skipn (S i) ls.
Proof.
  revert i. induction ls as [| x ls IH]; intros [| i] H; try discriminate.
  - cbn in H. injection H as ->. reflexivity.
  - cbn in H. cbn [firstn skipn app]. f_equal. now apply IH.
Qed.

(** A bucket of a list of buckets of one length, seen in the concatenation. *)
Lemma bucket_in_concat (cap : nat) (ls : list (list A)) (i : nat)
  (l : list A) :
  Forall (fun l => length l = cap) ls ->
  nth_error ls i = Some l ->
  exists pre post,
    concat ls = pre ++ l ++ post /\ length pre = cap * i /\ length l = cap.
Proof.
  intros Hu Hi.
  pose proof (nth_error_decompose _ _ Hi) as Hd.
  exists (concat (firstn i ls)), (concat (skipn (S i) ls)).
  assert (Hlt : i < length ls) by (apply nth_error_Some; congruence).
  repeat split.
  - rewrite Hd at 1. now rewrite concat_app.
  - rewrite (concat_length_uniform (cap := cap)).
    + rewrite length_firstn. f_equal. lia.
    + rewrite <- (firstn_skipn i ls) in Hu.
      now apply Forall_app in Hu.
  - rewrite Forall_forall in Hu. apply Hu. eapply nth_error_In; eauto.
Qed.

Lemma bucket_slice (cap : nat) (ls : list (list A)) (i j n : nat)
  (l : list A) :
  Forall (fun l => length l = cap) ls ->
  nth_error ls i = Some l ->
  n <= cap ->
  slice l j n = slice (concat ls) (cap * i + j) (cap * i + n).
Proof.
  intros Hu Hi Hn.
  destruct (bucket_in_concat _ Hu Hi) as (pre & post & -> & Hpre & Hl).
  rewrite <- Hpre. symmetry. apply slice_app_mid. lia.
Qed.

Lemma skipn_as_slice (l : list A) (j : nat) :
  skipn j l = slice l j (length l).
Proof.
  unfold slice. rewrite firstn_all2; [reflexivity |].
  rewrite length_skipn. lia.
Qed.

Lemma update_length (l : list A) (i : nat) (f : A -> A) :
  length (update l i f) = length l.
Proof.
  revert i. induction l as [| x l IH]; intros [| i]; cbn; auto.
Qed.

Lemma update_nth_error (l : list A) (i k : nat) (f : A -> A) :
  nth_error (update l i f) k
  = if k =? i then option_map f (nth_error l k) else nth_error l k.
Proof.
  revert i k. induction l as [| x l IH]; intros [| i] [| k]; cbn; auto.
  now destruct (k =? i).
Qed.

Lemma update_decompose (l : list A) (i : nat) (f : A -> A) (x : A) :
  nth_error l i = Some x ->
  update l i f = firstn i l ++ f x :: skipn (S i) l.
Proof.
  revert i. induction l as [| y l IH]; intros [| i] H; try discriminate.
  - cbn in H. injection H as ->. reflexivity.
  - cbn in H. cbn [update firstn skipn app]. f_equal. now apply IH.
Qed.

Lemma update_out_of_range (l : list A) (i : nat) (f : A -> A) :
  length l <= i -> update l i f = l.
Proof.
  revert i. induction l as [| y l IH]; intros [| i] H; cbn in *;
    try reflexivity; try lia.
  f_equal. apply IH. lia.
Qed.

Lemma set_slice_length (l : list A) (i : nat) (src : list A) :
  i + length src <= length l ->
  length (set_slice l i src) = length l.
Proof.
  intros H. unfold set_slice.
  rewrite !length_app, length_firstn, length_skipn. lia.
Qed.

Lemma set_slice_app_mid (pre mid post : list A) (j : nat) (src : list A) :
  j + length src <= length mid ->
  set_slice (pre ++ mid ++ post) (length pre + j) src
  = pre ++ set_slice mid j src ++ post.
Proof.
  intros H. unfold set_slice.
  rewrite firstn_app, firstn_all2 by lia.
  replace (length pre + j - length pre) with j by lia.
  rewrite firstn_app.
  replace (j - length mid) with 0 by lia. rewrite firstn_O, app_nil_r.
  rewrite <- !app_assoc. f_equal. f_equal. f_equal.
  rewrite skipn_app, skipn_all2 by lia. cbn [app].
  replace (length pre + j + length src - length pre)
    with (j + length src) by lia.
  rewrite skipn_app.
  replace (j + length src - length mid) with 0 by lia.
  reflexivity.
Qed.

Lemma firstn_set_slice (l : list A) (i : nat) (src : list A) (k : nat) :
  k <= i -> i <= length l ->
  firstn k (set_slice l i src) = firstn k l.
Proof.
  intros Hk Hi. unfold set_slice.
  rewrite firstn_app, length_firstn.
  replace (k - Nat.min i (length l)) with 0 by lia.
  rewrite firstn_O, app_nil_r, firstn_firstn. f_equal. lia.
Qed.

Lemma slice_set_slice_below (l : list A) (i : nat) (src : list A)
  (a b : nat) :
  b <= i -> i <= length l ->
  slice (set_slice l i src) a b = slice l a b.
Proof.
  intros Hb Hi. unfold slice.
  destruct (Nat.le_gt_cases a b) as [Hab | Hba].
  - rewrite !firstn_skipn_comm.
    replace (a + (b - a)) with b by lia.
    now rewrite firstn_set_slice.
  - replace (b - a) with 0 by lia. reflexivity.
Qed.

End Slices.

End ListFacts.

(** ** The dynamic array as a container *)

Module DynArrOpsFacts.

Import ListFacts.

Section Facts.

Variable A : Type.
Variable junk : nat -> A.

Lemma slice_to_length (l : list A) (n : Z) :
  length (slice_to l n) <= length l.
Proof.
  unfold slice_to. destruct (0 <=? n)%Z; rewrite length_firstn; lia.
Qed.

Lemma assign_prefix_length (dst src r : list A) (n : Z) :
  assign_prefix dst n src = Ok r -> length r = length dst.
Proof.
  unfold assign_prefix. pose proof (slice_to_length dst n) as Hk.
  destruct (Nat.eqb_spec (length src) (length (slice_to dst n))) as [He | _].
  - intros H. injection H as <-. rewrite length_app, length_skipn. lia.
  - destruct src as [| x [| y src]]; try discriminate.
    intros H. injection H as <-.
    rewrite length_app, repeat_length, length_skipn. lia.
Qed.

Lemma clip_le (len : nat) (z : Z) : DynArr.clip len z <= len.
Proof.
  unfold DynArr.clip. destruct (z <? 0)%Z eqn:Hz; [| lia].
  apply Z.ltb_lt in Hz. lia.
Qed.

Lemma clip_nonneg (len : nat) (z : Z) :
  (0 <= z <= Z.of_nat len)%Z -> DynArr.clip len z = Z.to_nat z.
Proof.
  intros H. unfold DynArr.clip.
  destruct (Z.ltb_spec z 0); lia.
Qed.

Lemma assign_slice_length (dst src r : list A) (start stop : Z) :
  DynArr.assign_slice dst start stop src = Ok r -> length r = length dst.
Proof.
  unfold DynArr.assign_slice.
  pose proof (clip_le (length dst) start) as Hi.
  pose proof (clip_le (length dst) stop) as Hj.
  destruct (Nat.eqb_spec (length src)
              (DynArr.clip (length dst) stop - DynArr.clip (length dst) start))
    as [He | _].
  - intros H. injection H as <-. apply set_slice_length. lia.
  - destruct src as [| x [| y src]]; try discriminate.
    intros H. injection H as <-. apply set_slice_length.
    rewrite repeat_length. lia.
Qed.

Lemma set_item_length (l r : list A) (z : Z) (x : A) :
  DynArr.set_item l z x = Ok r -> length r = length l.
Proof.
  unfold DynArr.set_item.
  destruct (_ && _); [| discriminate].
  intros H. injection H as <-. apply update_length.
Qed.

(** [grow] with [copy]: the logical size and the elements in use are
    kept, and the capacity is at least the one asked for. *)
Lemma grow_copy (a : DynArr.DynamicArray A) (requested : Z) :
  DynArr.wf a ->
  exists a',
    DynArr.grow junk requested true a = Ok a'
    /\ DynArr._size a' = DynArr._size a
    /\ firstn (Z.to_nat (DynArr._size a)) (DynArr._array a')
       = firstn (Z.to_nat (DynArr._size a)) (DynArr._array a)
    /\ (requested <= DynArr.capacity a')%Z
    /\ (DynArr.capacity a <= DynArr.capacity a')%Z.
Proof.
  intros [Hlo Hhi]. unfold DynArr.grow.
  destruct (Z.leb_spec requested (DynArr.capacity a)) as [Hle | Hgt].
  { exists a. repeat split; try reflexivity; lia. }
  destruct (DynArrFacts.grow_target_bounds requested a) as (Ht1 & Ht2 & Ht3).
  set (cap := Z.to_nat (DynArr.grow_target requested a)).
  assert (Hcap : Z.of_nat cap = DynArr.grow_target requested a)
    by (subst cap; lia).
  unfold assign_prefix.
  rewrite !DynArrFacts.slice_to_nonneg by assumption.
  unfold DynArr.capacity in *.
  rewrite !length_firstn, DynArrFacts.np_empty_length.
  replace (Nat.min (Z.to_nat (DynArr._size a)) (length (DynArr._array a)))
    with (Z.to_nat (DynArr._size a)) by lia.
  replace (Nat.min (Z.to_nat (DynArr._size a)) cap)
    with (Z.to_nat (DynArr._size a)) by lia.
  rewrite Nat.eqb_refl. cbn [bind].
  eexists; split; [reflexivity |].
  cbn [DynArr._array DynArr._size].
  rewrite length_app, length_skipn, length_firstn, DynArrFacts.np_empty_length.
  split; [reflexivity |]. split; [| lia].
  rewrite firstn_app, firstn_firstn, length_firstn.
  replace (Z.to_nat (DynArr._size a)
           - Nat.min (Z.to_nat (DynArr._size a))
               (length (DynArr._array a))) with 0 by lia.
  rewrite Nat.min_id, firstn_O. apply app_nil_r.
Qed.

Lemma firstn_S_update (l : list A) (n : nat) (x : A) :
  n < length l ->
  firstn (S n) (update l n (fun _ => x)) = firstn n l ++ [x].
Proof.
  revert n. induction l as [| y l IH]; intros [| n] H; cbn in *; try lia.
  - reflexivity.
  - f_equal. apply IH. lia.
Qed.

Lemma firstn_set_slice_end (l : list A) (i : nat) (src : list A) :
  i <= length l ->
  firstn (i + length src) (set_slice l i src) = firstn i l ++ src.
Proof.
  intros Hi. unfold set_slice. rewrite app_assoc.
  rewrite firstn_app, length_app, length_firstn.
  replace (i + length src - (Nat.min i (length l) + length src)) with 0
    by lia.
  rewrite firstn_O, app_nil_r. apply firstn_all2.
  rewrite length_app, length_firstn. lia.
Qed.

(** X1. [append] on a well-formed array raises nothing, puts the element
    after the elements in use, leaves these as they are, and returns the
    slot at the previous logical size. *)
Theorem append_law (a : DynArr.DynamicArray A) (x : A) :
  DynArr.wf a ->
  exists a',
    DynArr.append junk x a = Ok (a', DynArr.len a)
    /\ DynArr.data a' = DynArr.data a ++ [x]
    /\ DynArr.len a' = (DynArr.len a + 1)%Z
    /\ DynArr.wf a'.
Proof.
  intros Hwf.
  destruct (grow_copy (DynArr._size a + 1) Hwf)
    as (a1 & Hg & Hs & Hf & Hreq & Hcap).
  destruct Hwf as [Hlo Hhi].
  unfold DynArr.append. rewrite Hg. cbn [bind]. rewrite Hs.
  unfold DynArr.set_item, DynArr.capacity in *.
  assert (H0 : (0 <=? DynArr._size a)%Z = true) by (apply Z.leb_le; lia).
  assert (H1 : (DynArr._size a <? Z.of_nat (length (DynArr._array a1)))%Z
               = true) by (apply Z.ltb_lt; lia).
  rewrite H0. rewrite H0, H1.
  cbn [andb bind]. eexists. split; [reflexivity |].
  unfold DynArr.data, DynArr.len, DynArr.wf, DynArr.capacity.
  cbn [DynArr._array DynArr._size].
  rewrite update_length.
  split; [| split; [reflexivity | lia]].
  rewrite !DynArrFacts.slice_to_nonneg by lia.
  replace (Z.to_nat (DynArr._size a + 1))
    with (S (Z.to_nat (DynArr._size a))) by lia.
  rewrite firstn_S_update by lia. now rewrite Hf.
Qed.

(** X2. [extend] on a well-formed array raises nothing and puts the new
    elements, in their order, after the elements in use. *)
Theorem extend_law (a : DynArr.DynamicArray A) (data : list A) :
  DynArr.wf a ->
  exists a',
    DynArr.extend junk data a = Ok a'
    /\ DynArr.data a' = DynArr.data a ++ data
    /\ DynArr.len a' = (DynArr.len a + Z.of_nat (length data))%Z
    /\ DynArr.wf a'.
Proof.
  intros Hwf.
  destruct (grow_copy (DynArr._size a + Z.of_nat (length data)) Hwf)
    as (a1 & Hg & Hs & Hf & Hreq & Hcap).
  destruct Hwf as [Hlo Hhi].
  unfold DynArr.extend. rewrite Hg. cbn [bind]. rewrite Hs.
  unfold DynArr.assign_slice, DynArr.capacity in *.
  rewrite !clip_nonneg by lia.
  replace (Z.to_nat (DynArr._size a + Z.of_nat (length data))
           - Z.to_nat (DynArr._size a)) with (length data) by lia.
  rewrite Nat.eqb_refl. cbn [bind]. eexists. split; [reflexivity |].
  unfold DynArr.data, DynArr.len, DynArr.wf, DynArr.capacity.
  cbn [DynArr._array DynArr._size].
  rewrite set_slice_length by lia.
  split; [| split; [reflexivity | lia]].
  rewrite !DynArrFacts.slice_to_nonneg by lia.
  replace (Z.to_nat (DynArr._size a + Z.of_nat (length data)))
    with (Z.to_nat (DynArr._size a) + length data) by lia.
  rewrite firstn_set_slice_end by lia. now rewrite Hf.
Qed.

(** X3. [copy_from] raises nothing, whatever the array was, and leaves an
    array that holds the given rows, restricted to the fields of the
    array, and nothing else; its capacity has not decreased. *)
Theorem copy_from_law (B : Type) (fields : B -> A) (data : list B)
  (a : DynArr.DynamicArray A) :
  exists a',
    DynArr.copy_from junk fields data a = Ok a'
    /\ DynArr.data a' = map fields data
    /\ DynArr.len a' = Z.of_nat (length data)
    /\ (DynArr.capacity a <= DynArr.capacity a')%Z.
Proof.
  unfold DynArr.copy_from.
  assert (Hg : exists a1,
             DynArr.grow junk (Z.of_nat (length data)) false a = Ok a1
             /\ (Z.of_nat (length data) <= DynArr.capacity a1)%Z
             /\ (DynArr.capacity a <= DynArr.capacity a1)%Z).
  { unfold DynArr.grow.
    destruct (Z.leb_spec (Z.of_nat (length data)) (DynArr.capacity a))
      as [Hle | Hgt].
    - exists a. repeat split; [exact Hle | lia].
    - eexists. split; [reflexivity |].
      destruct (DynArrFacts.grow_target_bounds (Z.of_nat (length data)) a)
        as (Ht1 & Ht2 & Ht3).
      unfold DynArr.capacity in *. cbn [DynArr._array].
      rewrite DynArrFacts.np_empty_length.
      unfold DynArr.grow_target, DynArr.capacity in *. lia. }
  destruct Hg as (a1 & -> & Hreq & Hcap). cbn [bind].
  unfold assign_prefix, DynArr.capacity in *.
  rewrite DynArrFacts.slice_to_nonneg by lia.
  rewrite length_firstn, Nat2Z.id, length_map.
  replace (Nat.min (length data) (length (DynArr._array a1)))
    with (length data) by lia.
  rewrite Nat.eqb_refl. cbn [bind]. eexists. split; [reflexivity |].
  unfold DynArr.data, DynArr.len. cbn [DynArr._array DynArr._size].
  rewrite length_app, length_map, length_skipn.
  split; [| split; [reflexivity | lia]].
  rewrite DynArrFacts.slice_to_nonneg by lia. rewrite Nat2Z.id.
  rewrite firstn_app, length_map, Nat.sub_diag, firstn_O, app_nil_r.
  apply firstn_all2. rewrite length_map. lia.
Qed.

(** X4. [resize] with [copy] to a non-negative size: shrinking keeps the
    first [requested] elements, and growing keeps every element in use
    (the slots after them hold whatever the storage held). *)
Theorem resize_keeps_prefix (a : DynArr.DynamicArray A) (requested : Z) :
  DynArr.wf a -> (0 <= requested)%Z ->
  exists a',
    DynArr.resize junk requested true a = Ok a'
    /\ DynArr.len a' = requested
    /\ DynArr.wf a'
    /\ ((requested <= DynArr.len a)%Z ->
        DynArr.data a' = firstn (Z.to_nat requested) (DynArr.data a))
    /\ ((DynArr.len a <= requested)%Z ->
        firstn (Z.to_nat (DynArr.len a)) (DynArr.data a') = DynArr.data a).
Proof.
  intros Hwf Hreq0.
  destruct (grow_copy requested Hwf) as (a1 & Hg & Hs & Hf & Hreq & Hcap).
  destruct Hwf as [Hlo Hhi].
  unfold DynArr.resize. rewrite Hg. cbn [bind].
  eexists. split; [reflexivity |].
  unfold DynArr.data, DynArr.len, DynArr.wf, DynArr.capacity in *.
  cbn [DynArr._array DynArr._size].
  split; [reflexivity |]. split; [lia |].
  rewrite !DynArrFacts.slice_to_nonneg by lia.
  split; intros Hcmp.
  - rewrite firstn_firstn.
    replace (Nat.min (Z.to_nat requested) (Z.to_nat (DynArr._size a)))
      with (Z.to_nat requested) by lia.
    assert (H : firstn (Z.to_nat requested)
                  (firstn (Z.to_nat (DynArr._size a)) (DynArr._array a1))
                = firstn (Z.to_nat requested)
                    (firstn (Z.to_nat (DynArr._size a)) (DynArr._array a)))
      by now rewrite Hf.
    rewrite !firstn_firstn in H.
    now replace (Nat.min (Z.to_nat requested) (Z.to_nat (DynArr._size a)))
      with (Z.to_nat requested) in H by lia.
  - rewrite firstn_firstn.
    replace (Nat.min (Z.to_nat (DynArr._size a)) (Z.to_nat requested))
      with (Z.to_nat (DynArr._size a)) by lia.
    exact Hf.
Qed.

(** The operations that change an array. *)
Inductive op : Type :=
| Grow (requested : Z) (copy : bool)
| Resize (requested : Z) (copy : bool)
| Append (x : A)
| Extend (data : list A)
| CopyFrom (data : list A)
| Clear.

Definition run_op (o : op) (a : DynArr.DynamicArray A)
  : result (DynArr.DynamicArray A) :=
  match o with
  | Grow requested copy => DynArr.grow junk requested copy a
  | Resize requested copy => DynArr.resize junk requested copy a
  | Append x => r <- DynArr.append junk x a ;; Ok (fst r)
  | Extend data => DynArr.extend junk data a
  | CopyFrom data => DynArr.copy_from junk (fun x => x) data a
  | Clear => Ok (DynArr.clear a)
  end.

Fixpoint run_ops (os : list op) (a : DynArr.DynamicArray A)
  : result (DynArr.DynamicArray A) :=
  match os with
  | [] => Ok a
  | o :: os' => a' <- run_op o a ;; run_ops os' a'
  end.

Lemma grow_capacity (requested : Z) (copy : bool)
  (a a' : DynArr.DynamicArray A) :
  DynArr.grow junk requested copy a = Ok a' ->
  (DynArr.capacity a <= DynArr.capacity a')%Z
  /\ (requested <= DynArr.capacity a')%Z.
Proof.
  unfold DynArr.grow.
  destruct (Z.leb_spec requested (DynArr.capacity a)) as [Hle | Hgt].
  { intros H. injection H as <-. lia. }
  destruct (DynArrFacts.grow_target_bounds requested a) as (Ht1 & Ht2 & Ht3).
  assert (Hnew : (DynArr.capacity a
                  <= Z.of_nat (Z.to_nat (DynArr.grow_target requested a))
                  /\ requested
                     <= Z.of_nat (Z.to_nat (DynArr.grow_target requested a)))%Z)
    by lia.
  destruct copy.
  - destruct (assign_prefix _ _ _) as [array' |] eqn:Hp; [| discriminate].
    cbn [bind]. intros H. injection H as <-.
    apply assign_prefix_length in Hp.
    unfold DynArr.capacity at 2 3. cbn [DynArr._array].
    rewrite Hp, DynArrFacts.np_empty_length. exact Hnew.
  - intros H. injection H as <-.
    unfold DynArr.capacity at 2 3. cbn [DynArr._array].
    rewrite DynArrFacts.np_empty_length. exact Hnew.
Qed.

Lemma run_op_capacity (o : op) (a a' : DynArr.DynamicArray A) :
  run_op o a = Ok a' -> (DynArr.capacity a <= DynArr.capacity a')%Z.
Proof.
  destruct o as [requested copy | requested copy | x | data | data |];
    cbn [run_op].
  - intros H. now apply grow_capacity in H.
  - unfold DynArr.resize.
    destruct (DynArr.grow junk requested copy a) as [a1 |] eqn:Hg;
      [| discriminate].
    cbn [bind]. intros H. injection H as <-.
    apply grow_capacity in Hg. unfold DynArr.capacity in *.
    cbn [DynArr._array]. lia.
  - unfold DynArr.append.
    destruct (DynArr.grow junk _ true a) as [a1 |] eqn:Hg; [| discriminate].
    cbn [bind].
    destruct (DynArr.set_item _ _ _) as [array |] eqn:Hs; [| discriminate].
    cbn [bind fst]. intros H. injection H as <-.
    apply grow_capacity in Hg. apply set_item_length in Hs.
    unfold DynArr.capacity in *. cbn [DynArr._array]. lia.
  - unfold DynArr.extend.
    destruct (DynArr.grow junk _ true a) as [a1 |] eqn:Hg; [| discriminate].
    cbn [bind].
    destruct (DynArr.assign_slice _ _ _ _) as [array |] eqn:Hs;
      [| discriminate].
    cbn [bind]. intros H. injection H as <-.
    apply grow_capacity in Hg. apply assign_slice_length in Hs.
    unfold DynArr.capacity in *. cbn [DynArr._array]. lia.
  - unfold DynArr.copy_from.
    destruct (DynArr.grow junk _ false a) as [a1 |] eqn:Hg; [| discriminate].
    cbn [bind].
    destruct (assign_prefix _ _ _) as [array |] eqn:Hs; [| discriminate].
    cbn [bind]. intros H. injection H as <-.
    apply grow_capacity in Hg. apply assign_prefix_length in Hs.
    unfold DynArr.capacity in *. cbn [DynArr._array]. lia.
  - intros H. injection H as <-. unfold DynArr.capacity. cbn. lia.
Qed.

(** X5. The capacity never decreases: whatever sequence of [grow],
    [resize], [append], [extend], [copy_from] and [clear] is run, with
    whatever arguments and from whatever array, the storage that is left
    when the sequence returns is at least as large as the one it
    started with. *)
Theorem capacity_never_shrinks (os : list op) (a a' : DynArr.DynamicArray A) :
  run_ops os a = Ok a' -> (DynArr.capacity a <= DynArr.capacity a')%Z.
Proof.
  revert a. induction os as [| o os IH]; intros a; cbn [run_ops].
  - intros H. injection H as <-. lia.
  - destruct (run_op o a) as [a1 |] eqn:Ho; [| discriminate].
    cbn [bind]. intros H. apply IH in H.
    apply run_op_capacity in Ho. lia.
Qed.

End Facts.

(** A full array of two elements: [append] has to reallocate. *)
Lemma append_law_witness :
  exists a',
    DynArr.append (fun _ => 0) 9
      {| DynArr._array := [7; 8]; DynArr._size := 2 |} = Ok (a', 2%Z)
    /\ DynArr.data a' = [7; 8; 9]
    /\ DynArr.len a' = 3%Z
    /\ DynArr.wf a'.
Proof.
  apply (@append_law nat (fun _ => 0)
           {| DynArr._array := [7; 8]; DynArr._size := 2 |} 9).
  unfold DynArr.wf, DynArr.capacity; simpl; lia.
Defined.

(** Three slots, one in use, extended by two elements. *)
Lemma extend_law_witness :
  exists a',
    DynArr.extend (fun _ => 0) [8; 9]
      {| DynArr._array := [7; 1; 2]; DynArr._size := 1 |} = Ok a'
    /\ DynArr.data a' = [7; 8; 9]
    /\ DynArr.len a' = 3%Z
    /\ DynArr.wf a'.
Proof.
  apply (@extend_law nat (fun _ => 0)
           {| DynArr._array := [7; 1; 2]; DynArr._size := 1 |} [8; 9]).
  unfold DynArr.wf, DynArr.capacity; simpl; lia.
Defined.

Lemma resize_keeps_prefix_witness :
  exists a',
    DynArr.resize (fun _ => 0) 1 true
      {| DynArr._array := [7; 8; 9]; DynArr._size := 2 |} = Ok a'
    /\ DynArr.len a' = 1%Z
    /\ DynArr.wf a'
    /\ ((1 <= 2)%Z -> DynArr.data a' = [7])
    /\ ((2 <= 1)%Z -> firstn 2 (DynArr.data a') = [7; 8]).
Proof.
  apply (@resize_keeps_prefix nat (fun _ => 0)
           {| DynArr._array := [7; 8; 9]; DynArr._size := 2 |} 1).
  - unfold DynArr.wf, DynArr.capacity; simpl; lia.
  - lia.
Defined.

(** An empty array after [append] and [clear]: four slots, none in use. *)
Lemma capacity_never_shrinks_witness :
  (DynArr.capacity {| DynArr._array := @nil nat; DynArr._size := 0 |}
   <= DynArr.capacity {| DynArr._array := [1; 0; 0; 0]; DynArr._size := 0 |})%Z.
Proof.
  apply (@capacity_never_shrinks nat (fun _ => 0)
           [Append 1; Clear nat]
           {| DynArr._array := []; DynArr._size := 0 |}
           {| DynArr._array := [1; 0; 0; 0]; DynArr._size := 0 |}).
  reflexivity.
Defined.

End DynArrOpsFacts.

(** ** The ordered buffer *)

Module OBufFacts.

Import ListFacts.

Section Facts.

Variable A : Type.
Variable junk : nat -> A.

(** The address of a position in the concatenation of the buckets. *)
Definition addr (cap : nat) (p : nat * nat) : nat := cap * fst p + snd p.

(** Positions that follow one another from the address [a] on. *)
Fixpoint ordered (cap a : nat) (ps : list (nat * nat)) : Prop :=
  match ps with
  | [] => True
  | p :: ps' => a <= addr cap p /\ snd p < cap /\ ordered cap (addr cap p) ps'
  end.

(** The invariant of a buffer: buckets of one length, bunch positions in
    insertion order and not beyond the cursor, the cursor within the
    allocated buckets. *)
Definition wf (b : OBuf.OrderedBuffer A) : Prop :=
  1 <= OBuf._bucket_capacity b
  /\ Forall (fun l => length l = OBuf._bucket_capacity b) (OBuf._buckets b)
  /\ ordered (OBuf._bucket_capacity b) 0
       (map (@OBuf.position A) (OBuf._bunchs b) ++ [OBuf._pos b])
  /\ addr (OBuf._bucket_capacity b) (OBuf._pos b)
     <= OBuf._bucket_capacity b * length (OBuf._buckets b).

(** The elements of the buffer in insertion order: the bucket slots
    between two bunch positions, then the bunch, and so on. *)
Fixpoint content_loop (flat : list A) (cap : nat)
  (bunchs : list (OBuf.Bunch A)) (a : nat) : list A :=
  match bunchs with
  | [] => []
  | bunch :: bunchs' =>
      slice flat a (addr cap (OBuf.position bunch))
      ++ OBuf.bunch_data bunch
      ++ content_loop flat cap bunchs' (addr cap (OBuf.position bunch))
  end.

Definition contents (b : OBuf.OrderedBuffer A) : list A :=
  content_loop (concat (OBuf._buckets b)) (OBuf._bucket_capacity b)
    (OBuf._bunchs b ++ [{| OBuf.position := OBuf._pos b;
                           OBuf.bunch_data := [] |}]) 0.

Lemma mul_bound (cap m n len : nat) :
  0 < cap -> cap * m + n <= cap * len ->
  m <= len /\ (0 < n -> m < len).
Proof.
  intros Hc H. split.
  - destruct (Nat.le_gt_cases m len) as [|Hgt]; [assumption |].
    assert (cap * (len + 1) <= cap * m) by (apply Nat.mul_le_mono_l; lia).
    lia.
  - intros Hn. destruct (Nat.le_gt_cases len m) as [Hle |]; [| assumption].
    assert (cap * len <= cap * m) by (apply Nat.mul_le_mono_l; lia).
    lia.
Qed.

Lemma addr_le (cap i j m n : nat) :
  n < cap -> cap * i + j <= cap * m + n ->
  i <= m /\ (i = m -> j <= n).
Proof.
  intros Hn H. split.
  - destruct (Nat.le_gt_cases i m) as [|Hgt]; [assumption |].
    assert (cap * (m + 1) <= cap * i) by (apply Nat.mul_le_mono_l; lia).
    lia.
  - intros ->. lia.
Qed.

Lemma concat_opt (data : list A) :
  concat match data with [] => [] | _ :: _ => [data] end = data.
Proof. destruct data; cbn; now rewrite ?app_nil_r. Qed.

Lemma get_ok (l : list (list A)) (i : nat) :
  i < length l -> exists x, get l i = Ok x /\ nth_error l i = Some x.
Proof.
  intros H. unfold get.
  destruct (nth_error l i) as [x |] eqn:E; [eauto |].
  apply nth_error_None in E. lia.
Qed.

Lemma whole_buckets_ok (cap : nat) (buckets : list (list A))
  (rounds i j : nat) :
  Forall (fun l => length l = cap) buckets ->
  j <= cap ->
  i + rounds <= length buckets ->
  exists cs,
    OBuf.whole_buckets buckets i j rounds = Ok cs
    /\ concat cs = slice (concat buckets) (cap * i + j) (cap * (i + rounds)).
Proof.
  intros Hu. revert i j.
  induction rounds as [| r IH]; intros i j Hj Hr.
  - exists []. split; [reflexivity |].
    unfold slice. replace (cap * (i + 0) - (cap * i + j)) with 0 by lia.
    reflexivity.
  - destruct (@get_ok buckets i ltac:(lia)) as (bkt & Hg & Hn).
    destruct (IH (S i) 0 ltac:(lia) ltac:(lia)) as (cs & Hcs & Hc).
    exists (skipn j bkt :: cs). split.
    + cbn [OBuf.whole_buckets]. rewrite Hg. cbn [bind]. rewrite Hcs.
      reflexivity.
    + cbn [concat]. rewrite Hc.
      assert (Hl : length bkt = cap).
      { rewrite Forall_forall in Hu. apply Hu.
        eapply nth_error_In; eauto. }
      rewrite skipn_as_slice, Hl.
      rewrite (bucket_slice (cap := cap) i j (n := cap) Hu Hn) by lia.
      replace (cap * S i + 0) with (cap * i + cap) by lia.
      replace (cap * (S i + r)) with (cap * (i + S r)) by lia.
      apply slice_split; nia.
Qed.

Lemma chunks_loop_content (cap : nat) (buckets : list (list A))
  (bunchs : list (OBuf.Bunch A)) (i j : nat) :
  Forall (fun l => length l = cap) buckets ->
  j < cap ->
  ordered cap (addr cap (i, j)) (map (@OBuf.position A) bunchs) ->
  Forall (fun bunch => addr cap (OBuf.position bunch)
                       <= cap * length buckets) bunchs ->
  exists cs,
    OBuf.chunks_loop buckets bunchs i j = Ok cs
    /\ concat cs = content_loop (concat buckets) cap bunchs (addr cap (i, j)).
Proof.
  intros Hu. revert i j.
  induction bunchs as [| bunch bunchs IH]; intros i j Hj Hord Hb.
  - exists []. split; reflexivity.
  - destruct bunch as [[m n] data].
    cbn [map OBuf.position ordered] in Hord.
    destruct Hord as (Ha & Hn & Hord).
    inversion Hb as [| ? ? Hm Hb']; subst. cbn [OBuf.position] in Hm.
    unfold addr in Ha, Hm, Hord; cbn [fst snd] in Ha, Hm, Hord, Hn.
    destruct (addr_le _ _ _ Hn Ha) as [Him Hjn'].
    destruct (@mul_bound cap m n (length buckets) ltac:(lia) Hm)
      as [Hml Hmlt'].
    destruct (IH m n Hn Hord Hb') as (rest & Hrest & Hrc).
    destruct (@whole_buckets_ok cap buckets (m - i) i j Hu ltac:(lia)
                ltac:(lia)) as (c1 & Hc1 & Hcc1).
    replace (i + (m - i)) with m in Hcc1 by lia.
    cbn [OBuf.chunks_loop OBuf.position]. rewrite Hc1. cbn [bind].
    cbn [content_loop OBuf.position OBuf.bunch_data].
    unfold addr at 1 2 3; cbn [fst snd].
    destruct (Nat.ltb_spec i m) as [Hlt | Hge].
    + (* the cursor moves to the start of bucket [m] *)
      destruct (Nat.ltb_spec 0 n) as [Hn0 | Hn0].
      * destruct (get_ok _ (Hmlt' Hn0)) as (bkt & Hg & Hne).
        rewrite Hg. cbn [bind]. rewrite Hrest. cbn [bind].
        eexists; split; [reflexivity |].
        rewrite !concat_app, Hcc1, Hrc, concat_opt. cbn [concat].
        rewrite app_nil_r.
        rewrite (bucket_slice (cap := cap) m 0 (n := n) Hu Hne) by lia.
        rewrite app_assoc. f_equal.
        replace (cap * m + 0) with (cap * m) by lia.
        assert (cap * (i + 1) <= cap * m)
          by (apply Nat.mul_le_mono_l; lia).
        apply slice_split; lia.
      * cbn [bind]. rewrite Hrest. cbn [bind].
        eexists; split; [reflexivity |].
        rewrite !concat_app, Hcc1, Hrc, concat_opt. cbn [concat app].
        unfold addr; cbn [fst snd].
        replace (cap * m + n) with (cap * m) by lia.
        reflexivity.
    + assert (i = m) by lia. subst m.
      replace (i - i) with 0 in Hc1 by lia. cbn in Hc1.
      injection Hc1 as <-.
      destruct (Nat.ltb_spec j n) as [Hjn | Hjn].
      * destruct (get_ok _ (Hmlt' ltac:(lia))) as (bkt & Hg & Hne).
        rewrite Hg. cbn [bind]. rewrite Hrest. cbn [bind].
        eexists; split; [reflexivity |].
        rewrite !concat_app, Hrc, concat_opt. cbn [concat app].
        rewrite app_nil_r.
        rewrite (bucket_slice (cap := cap) i j (n := n) Hu Hne) by lia.
        reflexivity.
      * cbn [bind]. rewrite Hrest. cbn [bind].
        eexists; split; [reflexivity |].
        rewrite !concat_app, Hrc, concat_opt. cbn [concat app].
        assert (n = j) by (specialize (Hjn' eq_refl); lia).
        subst n. rewrite slice_nil. reflexivity.
Qed.

Lemma ordered_last (cap a : nat) (ps : list (nat * nat)) (p : nat * nat) :
  ordered cap a (ps ++ [p]) ->
  a <= addr cap p
  /\ snd p < cap
  /\ Forall (fun q => addr cap q <= addr cap p) ps
  /\ fold_left (fun _ q => addr cap q) ps a <= addr cap p.
Proof.
  revert a. induction ps as [| q ps IH]; intros a H.
  - cbn in H. destruct H as (H1 & H2 & _). cbn. auto.
  - cbn [app ordered] in H. destruct H as (H1 & H2 & H3).
    destruct (IH _ H3) as (I1 & I2 & I3 & I4).
    repeat split; [lia | assumption | | exact I4].
    constructor; [assumption | assumption].
Qed.

Lemma ordered_snoc (cap a : nat) (ps : list (nat * nat)) (p p' : nat * nat) :
  ordered cap a (ps ++ [p]) ->
  addr cap p <= addr cap p' -> snd p' < cap ->
  ordered cap a (ps ++ [p; p']).
Proof.
  revert a. induction ps as [| q ps IH]; intros a H Hp Hs.
  - cbn in *. intuition.
  - cbn [app ordered] in *. destruct H as (H1 & H2 & H3). auto.
Qed.

Lemma ordered_replace_last (cap a : nat) (ps : list (nat * nat))
  (p p' : nat * nat) :
  ordered cap a (ps ++ [p]) ->
  addr cap p <= addr cap p' -> snd p' < cap ->
  ordered cap a (ps ++ [p']).
Proof.
  revert a. induction ps as [| q ps IH]; intros a H Hp Hs.
  - cbn in *. intuition. lia.
  - cbn [app ordered] in *. destruct H as (H1 & H2 & H3). auto.
Qed.

(** The buffer yields its elements in insertion order, chunk by chunk. *)
Lemma chunks_contents (b : OBuf.OrderedBuffer A) :
  wf b ->
  exists cs, OBuf.chunks b = Ok cs /\ concat cs = contents b.
Proof.
  intros (Hcap & Hu & Hord & Hb).
  unfold OBuf.chunks, contents.
  set (final := {| OBuf.position := OBuf._pos b; OBuf.bunch_data := [] |}).
  destruct (@chunks_loop_content (OBuf._bucket_capacity b) (OBuf._buckets b)
              (OBuf._bunchs b ++ [final]) 0 0 Hu ltac:(lia))
    as (cs & Hcs & Hc).
  - unfold addr; cbn [fst snd]. rewrite Nat.mul_0_r.
    now rewrite map_app.
  - destruct (ordered_last _ _ _ _ Hord) as (_ & _ & Hall & _).
    apply Forall_app. split.
    + rewrite Forall_map in Hall. eapply Forall_impl; [| exact Hall].
      cbn. intros; lia.
    + constructor; [exact Hb | constructor].
  - exists cs. split; [exact Hcs |].
    rewrite Hc. unfold addr; cbn [fst snd]. now rewrite Nat.mul_0_r.
Qed.

Definition last_addr (cap : nat) (bunchs : list (OBuf.Bunch A)) (a : nat)
  : nat :=
  fold_left (fun _ q => addr cap q) (map (@OBuf.position A) bunchs) a.

Lemma content_loop_app (flat : list A) (cap : nat)
  (l1 l2 : list (OBuf.Bunch A)) (a : nat) :
  content_loop flat cap (l1 ++ l2) a
  = content_loop flat cap l1 a
    ++ content_loop flat cap l2 (last_addr cap l1 a).
Proof.
  revert a. induction l1 as [| x l1 IH]; intros a; [reflexivity |].
  cbn [app content_loop]. rewrite IH. now rewrite !app_assoc.
Qed.

Lemma slice_agree (l l' : list A) (a b c : nat) :
  firstn c l = firstn c l' -> b <= c -> slice l a b = slice l' a b.
Proof.
  intros H Hb. unfold slice.
  destruct (Nat.le_gt_cases a b) as [Hab | Hba].
  - rewrite !firstn_skipn_comm.
    replace (a + (b - a)) with b by lia.
    replace (firstn b l) with (firstn b (firstn c l))
      by (rewrite firstn_firstn; f_equal; lia).
    replace (firstn b l') with (firstn b (firstn c l'))
      by (rewrite firstn_firstn; f_equal; lia).
    now rewrite H.
  - now replace (b - a) with 0 by lia.
Qed.

Lemma content_loop_agree (flat flat' : list A) (cap c : nat)
  (bunchs : list (OBuf.Bunch A)) (a : nat) :
  firstn c flat = firstn c flat' ->
  Forall (fun bunch => addr cap (OBuf.position bunch) <= c) bunchs ->
  content_loop flat cap bunchs a = content_loop flat' cap bunchs a.
Proof.
  intros Hf Hall. revert a.
  induction Hall as [| x bunchs Hx _ IH]; intros a; [reflexivity |].
  cbn [content_loop]. rewrite IH.
  now rewrite (slice_agree _ _ a Hf Hx).
Qed.

Lemma contents_unfold (b : OBuf.OrderedBuffer A) :
  contents b
  = content_loop (concat (OBuf._buckets b)) (OBuf._bucket_capacity b)
      (OBuf._bunchs b) 0
    ++ slice (concat (OBuf._buckets b))
         (last_addr (OBuf._bucket_capacity b) (OBuf._bunchs b) 0)
         (addr (OBuf._bucket_capacity b) (OBuf._pos b)).
Proof.
  unfold contents. rewrite content_loop_app. cbn [content_loop].
  cbn [OBuf.position OBuf.bunch_data app]. now rewrite app_nil_r.
Qed.

Lemma concat_update_set_slice (cap : nat) (buckets : list (list A))
  (i j : nat) (data : list A) :
  Forall (fun l => length l = cap) buckets ->
  i < length buckets ->
  j + length data <= cap ->
  concat (update buckets i (fun bkt => set_slice bkt j data))
  = set_slice (concat buckets) (cap * i + j) data.
Proof.
  intros Hu Hi Hj.
  destruct (get_ok _ Hi) as (bkt & _ & Hn).
  rewrite (update_decompose _ _ _ Hn).
  rewrite (nth_error_decompose _ _ Hn) at 3.
  rewrite !concat_app. cbn [concat].
  assert (Hl : length bkt = cap).
  { rewrite Forall_forall in Hu. apply Hu. eapply nth_error_In; eauto. }
  assert (Hp : length (concat (firstn i buckets)) = cap * i).
  { rewrite (concat_length_uniform (cap := cap)).
    - rewrite length_firstn. f_equal. lia.
    - rewrite <- (firstn_skipn i buckets) in Hu. now apply Forall_app in Hu. }
  rewrite <- Hp. symmetry. apply set_slice_app_mid. lia.
Qed.

Lemma slice_set_slice_at (l : list A) (a : nat) (data : list A) :
  a + length data <= length l ->
  slice (set_slice l a data) a (a + length data) = data.
Proof.
  intros H. unfold slice, set_slice.
  rewrite skipn_app, length_firstn.
  replace (Nat.min a (length l)) with a by lia.
  rewrite skipn_all2 by (rewrite length_firstn; lia).
  rewrite Nat.sub_diag. cbn [skipn app].
  replace (a + length data - a) with (length data) by lia.
  rewrite firstn_app, Nat.sub_diag, firstn_all. cbn [firstn].
  apply app_nil_r.
Qed.

Lemma last_addr_le (cap : nat) (b : OBuf.OrderedBuffer A) :
  wf b ->
  last_addr (OBuf._bucket_capacity b) (OBuf._bunchs b) 0
  <= addr (OBuf._bucket_capacity b) (OBuf._pos b).
Proof.
  intros (_ & _ & Hord & _).
  now destruct (ordered_last _ _ _ _ Hord) as (_ & _ & _ & H).
Qed.

Lemma bunchs_below_pos (b : OBuf.OrderedBuffer A) :
  wf b ->
  Forall (fun bunch => addr (OBuf._bucket_capacity b) (OBuf.position bunch)
                       <= addr (OBuf._bucket_capacity b) (OBuf._pos b))
    (OBuf._bunchs b).
Proof.
  intros (_ & _ & Hord & _).
  destruct (ordered_last _ _ _ _ Hord) as (_ & _ & H & _).
  now rewrite Forall_map in H.
Qed.

(** Writing [data] into bucket slots from the cursor on, in storage that
    agrees with the buffer's below the cursor, appends [data] to the
    contents. *)
Lemma bucket_write_contents (b : OBuf.OrderedBuffer A)
  (buckets1 : list (list A)) (i j : nat) (data : list A) (p' : nat * nat) :
  wf b ->
  OBuf._pos b = (i, j) ->
  Forall (fun l => length l = OBuf._bucket_capacity b) buckets1 ->
  i < length buckets1 ->
  j + length data <= OBuf._bucket_capacity b ->
  firstn (addr (OBuf._bucket_capacity b) (i, j)) (concat buckets1)
  = firstn (addr (OBuf._bucket_capacity b) (i, j)) (concat (OBuf._buckets b)) ->
  addr (OBuf._bucket_capacity b) p'
  = addr (OBuf._bucket_capacity b) (i, j) + length data ->
  snd p' < OBuf._bucket_capacity b ->
  let b' := {| OBuf._buckets :=
                 update buckets1 i (fun bkt => set_slice bkt j data);
               OBuf._bucket_capacity := OBuf._bucket_capacity b;
               OBuf._pos := p';
               OBuf._bunchs := OBuf._bunchs b |} in
  wf b' /\ contents b' = contents b ++ data.
Proof.
  intros Hwf Hpos Hu1 Hi Hj Hagree Hp' Hs b'.
  pose proof (last_addr_le 0 Hwf) as Hla.
  pose proof (bunchs_below_pos Hwf) as Hbelow.
  destruct Hwf as (Hcap & Hu & Hord & Hb).
  rewrite Hpos in *.
  set (cap := OBuf._bucket_capacity b) in *.
  set (a0 := addr cap (i, j)) in *.
  assert (Hlen1 : length (concat buckets1) = cap * length buckets1)
    by now apply concat_length_uniform.
  assert (Ha0 : a0 + length data <= cap * length buckets1).
  { unfold a0, addr; cbn [fst snd].
    assert (cap * (i + 1) <= cap * length buckets1)
      by (apply Nat.mul_le_mono_l; lia).
    lia. }
  split.
  - unfold wf, b'; cbn [OBuf._buckets OBuf._bucket_capacity OBuf._pos
                         OBuf._bunchs].
    repeat split.
    + exact Hcap.
    + apply Forall_forall. intros l Hl.
      apply In_nth_error in Hl. destruct Hl as [k Hk].
      rewrite update_nth_error in Hk.
      rewrite Forall_forall in Hu1.
      destruct (k =? i).
      * destruct (nth_error buckets1 k) as [bkt |] eqn:E; [| discriminate].
        cbn in Hk. injection Hk as <-.
        assert (length bkt = cap) by (apply Hu1; eapply nth_error_In; eauto).
        rewrite set_slice_length; lia.
      * apply Hu1. eapply nth_error_In; eauto.
    + eapply ordered_replace_last; [exact Hord | | exact Hs].
      fold cap. rewrite Hp'. fold a0. lia.
    + rewrite update_length. fold cap. rewrite Hp'. exact Ha0.
  - rewrite !contents_unfold.
    unfold b'; cbn [OBuf._buckets OBuf._bucket_capacity OBuf._pos
                     OBuf._bunchs].
    rewrite Hpos. fold cap. fold a0. rewrite Hp'.
    rewrite (@concat_update_set_slice cap buckets1 i j data Hu1 Hi Hj).
    change (cap * i + j) with a0.
    set (F := set_slice (concat buckets1) a0 data).
    assert (HF : firstn a0 F = firstn a0 (concat (OBuf._buckets b))).
    { unfold F. rewrite firstn_set_slice by lia. exact Hagree. }
    rewrite (content_loop_agree _ _ _ 0 HF Hbelow).
    rewrite <- app_assoc. f_equal.
    rewrite <- (slice_split F (a := last_addr cap (OBuf._bunchs b) 0)
                  (b := a0) (c := a0 + length data)) by lia.
    f_equal.
    + now apply slice_agree with (c := a0).
    + unfold F. apply slice_set_slice_at. lia.
Qed.

Lemma last_addr_snoc (cap : nat) (bunchs : list (OBuf.Bunch A))
  (x : OBuf.Bunch A) (a : nat) :
  last_addr cap (bunchs ++ [x]) a = addr cap (OBuf.position x).
Proof.
  unfold last_addr. now rewrite map_app, fold_left_app.
Qed.

(** [_push] of a non-empty run of elements succeeds on a well-formed
    buffer, keeps it well-formed, and appends the run to the contents. *)
Lemma push_contents (b : OBuf.OrderedBuffer A) (data : list A) :
  wf b -> data <> [] ->
  exists b',
    OBuf._push junk data b = Ok b'
    /\ wf b'
    /\ contents b' = contents b ++ data.
Proof.
  intros Hwf Hd.
  pose proof Hwf as (Hcap & Hu & Hord & Hb).
  destruct (ordered_last _ _ _ _ Hord) as (_ & Hj & _ & _).
  assert (Hsize : 0 < length data) by (destruct data; cbn; [congruence | lia]).
  unfold OBuf._push. destruct (OBuf._pos b) as [i j] eqn:Hpos.
  cbn [snd] in Hj. unfold addr in Hb; cbn [fst snd] in Hb.
  destruct (@mul_bound (OBuf._bucket_capacity b) i j
              (length (OBuf._buckets b)) ltac:(lia) Hb) as [Hil Hil'].
  set (cap := OBuf._bucket_capacity b) in *.
  destruct (Nat.leb_spec (length data) (cap - j)) as [Hfit | Hnofit].
  - set (buckets1 := if i =? length (OBuf._buckets b)
                     then OBuf._buckets b ++ [map junk (seq 0 cap)]
                     else OBuf._buckets b).
    assert (Hu1 : Forall (fun l => length l = cap) buckets1).
    { unfold buckets1. destruct (i =? length (OBuf._buckets b)); [| exact Hu].
      apply Forall_app. split; [exact Hu |].
      constructor; [| constructor]. now rewrite length_map, length_seq. }
    assert (Hi1 : i < length buckets1).
    { unfold buckets1.
      destruct (Nat.eqb_spec i (length (OBuf._buckets b)));
        [rewrite length_app; cbn; lia | lia]. }
    assert (Hag : firstn (addr cap (i, j)) (concat buckets1)
                  = firstn (addr cap (i, j)) (concat (OBuf._buckets b))).
    { unfold buckets1.
      destruct (i =? length (OBuf._buckets b)); [| reflexivity].
      rewrite concat_app, firstn_app.
      rewrite (concat_length_uniform Hu).
      unfold addr; cbn [fst snd]. fold cap.
      replace (cap * i + j - cap * length (OBuf._buckets b)) with 0 by lia.
      rewrite firstn_O. apply app_nil_r. }
    apply Nat.ltb_lt in Hi1 as Hi1b. rewrite Hi1b.
    eexists; split; [reflexivity |].
    apply (@bucket_write_contents b buckets1 i j data); auto;
      try (fold cap; lia).
    + unfold addr; cbn [fst snd]. fold cap.
      destruct (Nat.eq_dec (j + length data) cap) as [Heq | Hne].
      * rewrite Heq, Nat.Div0.mod_same. cbn [Nat.eqb]. lia.
      * rewrite Nat.mod_small by lia.
        destruct (Nat.eqb_spec (j + length data) 0); lia.
    + cbn [snd]. fold cap. apply Nat.mod_upper_bound. lia.
  - eexists; split; [reflexivity |]. split.
    + unfold wf; cbn [OBuf._buckets OBuf._bucket_capacity OBuf._pos
                       OBuf._bunchs].
      repeat split; auto.
      rewrite map_app, <- app_assoc. cbn [map app OBuf.position].
      apply ordered_snoc; auto.
    + rewrite !contents_unfold.
      cbn [OBuf._buckets OBuf._bucket_capacity OBuf._pos OBuf._bunchs].
      rewrite Hpos. fold cap.
      rewrite content_loop_app, last_addr_snoc.
      cbn [content_loop OBuf.position OBuf.bunch_data].
      rewrite slice_nil, !app_nil_r. now rewrite <- !app_assoc.
Qed.

Lemma init_wf (bucket_capacity : Z) (b : OBuf.OrderedBuffer A) :
  OBuf.init A bucket_capacity = Ok b -> wf b /\ contents b = [].
Proof.
  unfold OBuf.init.
  destruct (Z.ltb_spec bucket_capacity 1) as [| Hge]; [discriminate |].
  intros Hb. injection Hb as <-. split.
  - unfold wf, addr; cbn. repeat split; try lia. constructor.
  - unfold contents, slice; cbn. now rewrite firstn_nil.
Qed.

Lemma clear_wf (b : OBuf.OrderedBuffer A) :
  wf b -> wf (OBuf.clear b) /\ contents (OBuf.clear b) = []
            /\ OBuf.len (OBuf.clear b) = 0.
Proof.
  intros (Hcap & Hu & _ & _). repeat split.
  - exact Hcap.
  - exact Hu.
  - cbn. unfold addr; cbn. lia.
  - cbn. unfold addr; cbn. lia.
  - unfold addr; cbn. lia.
  - unfold contents; cbn. unfold addr; cbn.
    rewrite Nat.mul_0_r. reflexivity.
  - unfold OBuf.len; cbn. lia.
Qed.

Lemma slice_length (l : list A) (a b : nat) :
  b <= length l -> length (slice l a b) = b - a.
Proof.
  intros H. unfold slice. rewrite length_firstn, length_skipn. lia.
Qed.

Lemma content_loop_length (flat : list A) (cap : nat)
  (bunchs : list (OBuf.Bunch A)) (a : nat) :
  ordered cap a (map (@OBuf.position A) bunchs) ->
  Forall (fun bunch => addr cap (OBuf.position bunch) <= length flat)
    bunchs ->
  length (content_loop flat cap bunchs a) + a
  = last_addr cap bunchs a
    + list_sum (map (fun bunch => length (OBuf.bunch_data bunch)) bunchs).
Proof.
  revert a. induction bunchs as [| x bunchs IH]; intros a Hord Hall.
  - cbn. lia.
  - cbn [map ordered] in Hord. destruct Hord as (Ha & _ & Hord).
    inversion Hall as [| ? ? Hx Hall']; subst.
    specialize (IH _ Hord Hall').
    cbn [content_loop map list_sum]. unfold last_addr in *.
    cbn [map fold_left]. cbn [list_sum fold_right].
    change (fold_right Init.Nat.add 0) with list_sum.
    rewrite !length_app, slice_length by exact Hx. lia.
Qed.

(** The number of elements that [chunks] yields is [len]. *)
Lemma contents_length (b : OBuf.OrderedBuffer A) :
  wf b -> length (contents b) = OBuf.len b.
Proof.
  intros Hwf. pose proof Hwf as (Hcap & Hu & Hord & Hb).
  pose proof (bunchs_below_pos Hwf) as Hbelow.
  unfold contents, OBuf.len.
  set (final := {| OBuf.position := OBuf._pos b; OBuf.bunch_data := [] |}).
  assert (Hall : Forall (fun bunch =>
                           addr (OBuf._bucket_capacity b) (OBuf.position bunch)
                           <= length (concat (OBuf._buckets b)))
                   (OBuf._bunchs b ++ [final])).
  { rewrite (concat_length_uniform Hu).
    apply Forall_app. split.
    - eapply Forall_impl; [| exact Hbelow]. cbn. intros; lia.
    - constructor; [exact Hb | constructor]. }
  pose proof (@content_loop_length (concat (OBuf._buckets b))
                (OBuf._bucket_capacity b) (OBuf._bunchs b ++ [final]) 0) as H.
  rewrite map_app in H. specialize (H Hord Hall).
  rewrite last_addr_snoc, map_app, list_sum_app in H.
  unfold final in H at 2 3.
  cbn [map list_sum fold_right OBuf.position OBuf.bunch_data length] in H.
  unfold addr in H. lia.
Qed.

Lemma len_zero_contents (b : OBuf.OrderedBuffer A) :
  wf b -> OBuf.len b = 0 -> contents b = [].
Proof.
  intros Hwf H. apply length_zero_iff_nil. now rewrite contents_length.
Qed.

(** *** The buffer as a list *)

Inductive op : Type :=
| Append (x : A)
| Extend (data : list A)
| Clear.

Definition run_op (o : op) (b : OBuf.OrderedBuffer A)
  : result (OBuf.OrderedBuffer A) :=
  match o with
  | Append x => OBuf.append junk x b
  | Extend data => OBuf.extend junk data b
  | Clear => Ok (OBuf.clear b)
  end.

Fixpoint run_ops (os : list op) (b : OBuf.OrderedBuffer A)
  : result (OBuf.OrderedBuffer A) :=
  match os with
  | [] => Ok b
  | o :: os' => b' <- run_op o b ;; run_ops os' b'
  end.

(** What the operations do to a list. *)
Definition model_op (l : list A) (o : op) : list A :=
  match o with
  | Append x => l ++ [x]
  | Extend data => l ++ data
  | Clear => []
  end.

Definition model (os : list op) : list A := fold_left model_op os [].

Lemma run_op_contents (o : op) (b : OBuf.OrderedBuffer A) :
  wf b ->
  exists b',
    run_op o b = Ok b' /\ wf b' /\ contents b' = model_op (contents b) o.
Proof.
  intros Hwf. destruct o as [x | [| x data] |]; cbn [run_op model_op].
  - unfold OBuf.append. apply push_contents; [exact Hwf | discriminate].
  - exists b. cbn [OBuf.extend]. now rewrite app_nil_r.
  - cbn [OBuf.extend]. apply push_contents; [exact Hwf | discriminate].
  - exists (OBuf.clear b). destruct (clear_wf Hwf) as (H1 & H2 & _). auto.
Qed.

Lemma run_ops_contents (os : list op) (b : OBuf.OrderedBuffer A) :
  wf b ->
  exists b',
    run_ops os b = Ok b' /\ wf b'
    /\ contents b' = fold_left model_op os (contents b).
Proof.
  revert b. induction os as [| o os IH]; intros b Hwf; cbn [run_ops fold_left].
  - now exists b.
  - destruct (run_op_contents o Hwf) as (b1 & -> & Hwf1 & <-).
    cbn [bind]. now apply IH.
Qed.

(** X6. The buffer behaves as a list: from a freshly constructed buffer,
    no sequence of [append], [extend] and [clear] raises, and the chunks
    read afterwards hold, in insertion order, exactly the elements added
    since the last [clear]; [len] is their number. *)
Theorem buffer_is_a_list (bucket_capacity : Z) (b0 : OBuf.OrderedBuffer A)
  (os : list op) :
  OBuf.init A bucket_capacity = Ok b0 ->
  exists b cs,
    run_ops os b0 = Ok b
    /\ OBuf.chunks b = Ok cs
    /\ concat cs = model os
    /\ OBuf.len b = length (model os).
Proof.
  intros Hinit. apply init_wf in Hinit as [Hwf0 Hc0].
  destruct (run_ops_contents os Hwf0) as (b & Hrun & Hwf & Hc).
  destruct (chunks_contents Hwf) as (cs & Hcs & Hcat).
  exists b, cs. rewrite Hc0 in Hc. fold (model os) in Hc.
  repeat split; try assumption.
  - now rewrite Hcat.
  - now rewrite <- contents_length, Hc.
Qed.

(** *** Slots stay valid *)

(** A slot that has been handed out and not cleared since: a bucket slot
    below the cursor, or a slot of a bunch. *)
Definition live (h : OBuf.slot) (b : OBuf.OrderedBuffer A) : Prop :=
  match h with
  | OBuf.BucketSlot i j =>
      j < OBuf._bucket_capacity b
      /\ addr (OBuf._bucket_capacity b) (i, j)
         < addr (OBuf._bucket_capacity b) (OBuf._pos b)
  | OBuf.BunchSlot k off =>
      exists bunch,
        nth_error (OBuf._bunchs b) k = Some bunch
        /\ off < length (OBuf.bunch_data bunch)
  end.

Lemma nth_error_firstn_lt (l : list A) (n i : nat) :
  i < n -> nth_error (firstn n l) i = nth_error l i.
Proof.
  revert n i. induction l as [| x l IH]; intros [| n] [| i] H; cbn;
    try reflexivity; try lia.
  apply IH. lia.
Qed.

Lemma push_stable (h : OBuf.slot) (data : list A)
  (b b' : OBuf.OrderedBuffer A) :
  wf b -> live h b -> OBuf._push junk data b = Ok b' ->
  live h b' /\ OBuf.read h b' = OBuf.read h b.
Proof.
  intros (Hcap & Hu & Hord & Hb) Hlive.
  destruct (ordered_last _ _ _ _ Hord) as (_ & Hj & _ & _).
  unfold OBuf._push. destruct (OBuf._pos b) as [i j] eqn:Hpos.
  cbn [snd] in Hj. unfold addr in Hb. cbn [fst snd] in Hb.
  set (cap := OBuf._bucket_capacity b) in *.
  destruct (Nat.leb_spec (length data) (cap - j)) as [Hfit | Hnofit].
  - set (buckets1 := if i =? length (OBuf._buckets b)
                     then OBuf._buckets b ++ [map junk (seq 0 cap)]
                     else OBuf._buckets b).
    destruct (i <? length buckets1); [| discriminate].
    intros H. injection H as <-.
    destruct h as [i0 j0 | k off]; cbn [live OBuf.read] in *;
      cbn [OBuf._buckets OBuf._bucket_capacity OBuf._pos OBuf._bunchs];
      [| split; [exact Hlive | reflexivity]].
    rewrite Hpos in Hlive. unfold addr in *. cbn [fst snd] in *.
    fold cap in Hlive. fold cap.
    destruct Hlive as [Hj0 Hlt].
    assert (Hnew : cap * i + j
                   <= cap * (if (j + length data) mod cap =? 0
                             then i + 1 else i)
                      + (j + length data) mod cap).
    { destruct (Nat.eq_dec (j + length data) cap) as [He | Hne].
      - rewrite He, Nat.Div0.mod_same. cbn [Nat.eqb]. lia.
      - rewrite Nat.mod_small by lia.
        destruct (Nat.eqb_spec (j + length data) 0); lia. }
    split; [split; [exact Hj0 | lia] |].
    rewrite update_nth_error.
    assert (Hi0 : i0 <= i).
    { destruct (Nat.le_gt_cases i0 i) as [| Hgt]; [assumption |].
      assert (cap * (i + 1) <= cap * i0)
        by (apply Nat.mul_le_mono_l; lia).
      lia. }
    assert (Hlen : i0 < length (OBuf._buckets b)).
    { destruct (Nat.lt_ge_cases i0 (length (OBuf._buckets b)))
        as [| Hge]; [assumption |].
      assert (cap * length (OBuf._buckets b) <= cap * i0)
        by (apply Nat.mul_le_mono_l; lia).
      assert (cap * i0 <= cap * i) by (apply Nat.mul_le_mono_l; lia).
      lia. }
    assert (Hsame : nth_error buckets1 i0 = nth_error (OBuf._buckets b) i0).
    { subst buckets1. destruct (i =? length (OBuf._buckets b));
        [now apply nth_error_app1 | reflexivity]. }
    rewrite Hsame.
    destruct (Nat.eqb_spec i0 i) as [-> | Hne]; [| reflexivity].
    destruct (nth_error (OBuf._buckets b) i) as [bkt |] eqn:Hbkt;
      [| reflexivity].
    cbn [option_map]. unfold set_slice.
    assert (Hbl : length bkt = cap).
    { rewrite Forall_forall in Hu. apply Hu. eapply nth_error_In; eauto. }
    rewrite nth_error_app1 by (rewrite length_firstn; lia).
    apply nth_error_firstn_lt. lia.
  - intros H. injection H as <-.
    destruct h as [i0 j0 | k off]; cbn [live OBuf.read] in *;
      cbn [OBuf._buckets OBuf._bucket_capacity OBuf._pos OBuf._bunchs].
    + rewrite Hpos in *. split; [exact Hlive | reflexivity].
    + destruct Hlive as (bunch & Hk & Hoff).
      assert (Hkl : k < length (OBuf._bunchs b))
        by (apply nth_error_Some; congruence).
      rewrite nth_error_app1 by exact Hkl. rewrite Hk.
      split; [| reflexivity]. now exists bunch.
Qed.

Lemma push_wf (data : list A) (b b' : OBuf.OrderedBuffer A) :
  wf b -> data <> [] -> OBuf._push junk data b = Ok b' -> wf b'.
Proof.
  intros Hwf Hd H. destruct (push_contents Hwf Hd) as (b1 & H1 & Hwf1 & _).
  congruence.
Qed.

(** X7. Elements that have been added are never moved or overwritten by
    later additions: along any sequence of [append] and [extend] calls on
    a well-formed buffer, a slot handed out before stays a slot of the
    buffer and views the same element. *)
Theorem slots_stay_valid (h : OBuf.slot) (os : list op)
  (b b' : OBuf.OrderedBuffer A) :
  wf b -> live h b ->
  Forall (fun o => o <> Clear) os ->
  run_ops os b = Ok b' ->
  live h b' /\ OBuf.read h b' = OBuf.read h b.
Proof.
  revert b. induction os as [| o os IH]; intros b Hwf Hlive Hos;
    cbn [run_ops].
  - intros H. injection H as <-. auto.
  - inversion Hos as [| o' os' Ho Hos']; subst.
    destruct (run_op o b) as [b1 |] eqn:Hrun; [| discriminate].
    cbn [bind]. intros H.
    assert (H1 : wf b1 /\ live h b1 /\ OBuf.read h b1 = OBuf.read h b).
    { destruct o as [x | [| x data] |]; cbn [run_op] in Hrun.
      - unfold OBuf.append in Hrun. split.
        + eapply push_wf; [exact Hwf | | exact Hrun]; discriminate.
        + eapply push_stable; eauto.
      - cbn [OBuf.extend] in Hrun. injection Hrun as <-. auto.
      - cbn [OBuf.extend] in Hrun. split.
        + eapply push_wf; [exact Hwf | | exact Hrun]; discriminate.
        + eapply push_stable; eauto.
      - congruence. }
    destruct H1 as (Hwf1 & Hlive1 & Hread1).
    destruct (IH b1 Hwf1 Hlive1 Hos' H) as [Hl Hr].
    split; [exact Hl | congruence].
Qed.

End Facts.

(** *** Writes through a slot

    A write changes elements in place and nothing else; two buffers of the
    same shape whose elements are related slot by slot have related
    contents. *)
Section Related.

Variable A : Type.
Variable R : A -> A -> Prop.

Definition related (b b' : OBuf.OrderedBuffer A) : Prop :=
  Forall2 (Forall2 R) (OBuf._buckets b) (OBuf._buckets b')
  /\ OBuf._bucket_capacity b = OBuf._bucket_capacity b'
  /\ OBuf._pos b = OBuf._pos b'
  /\ Forall2 (fun x y => OBuf.position x = OBuf.position y
                         /\ Forall2 R (OBuf.bunch_data x) (OBuf.bunch_data y))
       (OBuf._bunchs b) (OBuf._bunchs b').

Lemma Forall2_firstn (n : nat) (l l' : list A) :
  Forall2 R l l' -> Forall2 R (firstn n l) (firstn n l').
Proof.
  intros H. revert n. induction H; intros [| n]; cbn; constructor; auto.
Qed.

Lemma Forall2_skipn (n : nat) (l l' : list A) :
  Forall2 R l l' -> Forall2 R (skipn n l) (skipn n l').
Proof.
  intros H. revert n. induction H; intros [| n]; cbn; auto.
Qed.

Lemma Forall2_slice (a b : nat) (l l' : list A) :
  Forall2 R l l' -> Forall2 R (slice l a b) (slice l' a b).
Proof. intros H. now apply Forall2_firstn, Forall2_skipn. Qed.

Lemma Forall2_concat (ls ls' : list (list A)) :
  Forall2 (Forall2 R) ls ls' -> Forall2 R (concat ls) (concat ls').
Proof.
  induction 1; cbn; [constructor | now apply Forall2_app].
Qed.

Lemma related_positions (l l' : list (OBuf.Bunch A)) :
  Forall2 (fun x y => OBuf.position x = OBuf.position y
                      /\ Forall2 R (OBuf.bunch_data x) (OBuf.bunch_data y))
    l l' ->
  map (@OBuf.position A) l = map (@OBuf.position A) l'.
Proof.
  induction 1 as [| x y l l' [Hp _] _ IH]; cbn; [reflexivity |].
  now rewrite Hp, IH.
Qed.

Lemma related_wf (b b' : OBuf.OrderedBuffer A) :
  related b b' -> wf b -> wf b'.
Proof.
  intros (Hb & Hc & Hp & Hbu) (Hcap & Hu & Hord & Hbound).
  unfold wf. rewrite <- Hc, <- Hp, <- (related_positions Hbu).
  rewrite <- (Forall2_length Hb).
  repeat split; auto.
  clear - Hb Hu. induction Hb as [| x y l l' Hxy _ IH]; [constructor |].
  inversion Hu; subst. constructor; auto.
  now rewrite <- (Forall2_length Hxy).
Qed.

Lemma related_content_loop (flat flat' : list A) (cap : nat)
  (l l' : list (OBuf.Bunch A)) (a : nat) :
  Forall2 R flat flat' ->
  Forall2 (fun x y => OBuf.position x = OBuf.position y
                      /\ Forall2 R (OBuf.bunch_data x) (OBuf.bunch_data y))
    l l' ->
  Forall2 R (content_loop flat cap l a) (content_loop flat' cap l' a).
Proof.
  intros Hf H. revert a.
  induction H as [| x y l l' [Hp Hd] _ IH]; intros a; cbn [content_loop];
    [constructor |].
  rewrite <- Hp.
  apply Forall2_app; [now apply Forall2_slice |].
  apply Forall2_app; [exact Hd | apply IH].
Qed.

Lemma related_contents (b b' : OBuf.OrderedBuffer A) :
  related b b' -> Forall2 R (contents b) (contents b').
Proof.
  intros (Hb & Hc & Hp & Hbu). unfold contents. rewrite <- Hc, <- Hp.
  apply related_content_loop; [now apply Forall2_concat |].
  apply Forall2_app; [exact Hbu |].
  constructor; [| constructor]. split; [reflexivity | constructor].
Qed.

End Related.

Section Writes.

Variable A : Type.
Variable R : A -> A -> Prop.
Hypothesis R_refl : forall x, R x x.

Lemma Forall2_refl (B : Type) (S : B -> B -> Prop) (l : list B) :
  (forall x, S x x) -> Forall2 S l l.
Proof. intros H. induction l; constructor; auto. Qed.

Lemma Forall2_update (B : Type) (S : B -> B -> Prop) (l : list B) (i : nat)
  (f : B -> B) :
  (forall x, S x x) -> (forall x, S x (f x)) ->
  Forall2 S l (update l i f).
Proof.
  intros Hr Hf. revert i.
  induction l as [| x l IH]; intros [| i]; cbn; constructor; auto.
  now apply Forall2_refl.
Qed.

(** A write through any slot, with a function related to the identity,
    gives a buffer related to the one written. *)
Lemma write_related (h : OBuf.slot) (g : A -> A) (b : OBuf.OrderedBuffer A) :
  (forall x, R x (g x)) -> related R b (OBuf.write h g b).
Proof.
  intros Hg. destruct h as [i j | k off]; unfold related; cbn.
  - repeat split; auto.
    + apply Forall2_update.
      * intros l. now apply Forall2_refl.
      * intros l. now apply Forall2_update.
    + apply Forall2_refl. intros x. split; [reflexivity |].
      now apply Forall2_refl.
  - repeat split; auto.
    + apply Forall2_refl. intros l. now apply Forall2_refl.
    + apply Forall2_update.
      * intros x. split; [reflexivity | now apply Forall2_refl].
      * intros x. cbn. split; [reflexivity | now apply Forall2_update].
Qed.

End Writes.

(** Buckets of two slots: [1] goes to the first bucket, [2; 3; 4] does not
    fit and is kept as a bunch, [5] fills the first bucket. *)
Definition demo_fresh : OBuf.OrderedBuffer nat :=
  {| OBuf._buckets := []; OBuf._bucket_capacity := 2;
     OBuf._pos := (0, 0); OBuf._bunchs := [] |}.

Definition demo_one : OBuf.OrderedBuffer nat :=
  {| OBuf._buckets := [[1; 0]]; OBuf._bucket_capacity := 2;
     OBuf._pos := (0, 1); OBuf._bunchs := [] |}.

Definition demo_five : OBuf.OrderedBuffer nat :=
  {| OBuf._buckets := [[1; 5]]; OBuf._bucket_capacity := 2;
     OBuf._pos := (1, 0);
     OBuf._bunchs := [{| OBuf.position := (0, 1);
                         OBuf.bunch_data := [2; 3; 4] |}] |}.

Lemma buffer_is_a_list_witness :
  exists b cs,
    run_ops (fun _ => 0) [Append 1; Extend [2; 3; 4]; Append 5] demo_fresh
    = Ok b
    /\ OBuf.chunks b = Ok cs
    /\ concat cs = [1; 2; 3; 4; 5]
    /\ OBuf.len b = 5.
Proof.
  apply (@buffer_is_a_list nat (fun _ => 0) 2 demo_fresh
           [Append 1; Extend [2; 3; 4]; Append 5]).
  reflexivity.
Defined.

Lemma slots_stay_valid_witness :
  live (OBuf.BucketSlot 0 0) demo_five
  /\ OBuf.read (OBuf.BucketSlot 0 0) demo_five = Some 1.
Proof.
  apply (@slots_stay_valid nat (fun _ => 0) (OBuf.BucketSlot 0 0)
           [Extend [2; 3; 4]; Append 5] demo_one demo_five).
  - unfold wf, addr; cbn.
    split; [lia |]. split; [repeat constructor |]. lia.
  - unfold live, addr; cbn. lia.
  - repeat constructor; discriminate.
  - reflexivity.
Defined.

End OBufFacts.

(** ** The simulation engine *)

Module SimFacts.

Import ListFacts.

Section Facts.

Variable junk : nat -> Sim.Particle.

(** The particles waiting in the buffer, in insertion order. *)
Definition pending (s : Sim.State) : list Sim.Particle :=
  OBufFacts.contents (Sim._buffer s).

Definition ids (l : list Sim.Particle) : list Z := map Sim.id l.

Definition increasing (l : list Z) : Prop := StronglySorted Z.lt l.

(** The invariant of the engine: well-formed store and buffer, and ids
    that increase along the store and then along the buffer, none beyond
    the last id handed out. *)
Definition Inv (s : Sim.State) : Prop :=
  DynArr.wf (Sim._array s)
  /\ OBufFacts.wf (Sim._buffer s)
  /\ increasing (ids (Sim.particles s ++ pending s))
  /\ Forall (fun i => (i <= Sim._last_id s)%Z)
       (ids (Sim.particles s ++ pending s))
  /\ (-1 <= Sim._last_id s <= Sim.INT32_MAX)%Z.

Lemma filter_length_eq (A : Type) (f : A -> bool) (l : list A) :
  length (filter f l) = length l -> filter f l = l.
Proof.
  induction l as [| x l IH]; cbn; [reflexivity |].
  pose proof (filter_length_le f l) as Hle.
  destruct (f x); cbn; intros H.
  - f_equal. apply IH. lia.
  - lia.
Qed.

Lemma count_nonzero_alive (c : list Sim.Particle) :
  Sim.count_nonzero (map Sim.alive c) = length (filter Sim.alive c).
Proof.
  unfold Sim.count_nonzero.
  induction c as [| p c IH]; cbn; [reflexivity |].
  destruct (Sim.alive p); cbn; now rewrite IH.
Qed.

Lemma compress_alive (c : list Sim.Particle) :
  Sim.compress (map Sim.alive c) c = filter Sim.alive c.
Proof.
  unfold Sim.compress.
  induction c as [| p c IH]; cbn; [reflexivity |].
  destruct (Sim.alive p); cbn; now rewrite IH.
Qed.

Lemma sum_counts (chunks : list (list Sim.Particle)) :
  list_sum (map Sim.count_nonzero (map (map Sim.alive) chunks))
  = length (filter Sim.alive (concat chunks)).
Proof.
  induction chunks as [| c chunks IH]; [reflexivity |].
  cbn [map concat]. rewrite filter_app, length_app, <- IH.
  rewrite <- count_nonzero_alive. reflexivity.
Qed.

Lemma zip_chunks (chunks : list (list Sim.Particle)) :
  combine (combine (map (map Sim.alive) chunks) chunks)
    (map Sim.count_nonzero (map (map Sim.alive) chunks))
  = map (fun c => (map Sim.alive c, c, Sim.count_nonzero (map Sim.alive c)))
      chunks.
Proof.
  induction chunks as [| c chunks IH]; cbn; [reflexivity |].
  now rewrite IH.
Qed.

(** The copy loop of [consolidate] lays the alive rows of the chunks one
    after the other, from the cursor on. *)
Lemma copy_chunks (chunks : list (list Sim.Particle))
  (array : list Sim.Particle) (i : nat) :
  i + length (filter Sim.alive (concat chunks)) <= length array ->
  fold_left Sim.copy_chunk
    (map (fun c => (map Sim.alive c, c, Sim.count_nonzero (map Sim.alive c)))
       chunks)
    (array, i)
  = (firstn i array ++ filter Sim.alive (concat chunks)
       ++ skipn (i + length (filter Sim.alive (concat chunks))) array,
     i + length (filter Sim.alive (concat chunks))).
Proof.
  revert array i.
  induction chunks as [| c chunks IH]; intros array i Hlen.
  - cbn. rewrite Nat.add_0_r, firstn_skipn. reflexivity.
  - cbn [map fold_left concat] in *.
    rewrite filter_app, length_app in *.
    set (w := filter Sim.alive c) in *.
    set (r := filter Sim.alive (concat chunks)) in *.
    assert (Hw : (if Sim.count_nonzero (map Sim.alive c) =? length c
                  then c else Sim.compress (map Sim.alive c) c) = w).
    { rewrite count_nonzero_alive.
      destruct (Nat.eqb_spec (length (filter Sim.alive c)) (length c)) as [E|];
        [| apply compress_alive].
      symmetry. now apply filter_length_eq. }
    unfold Sim.copy_chunk at 2. rewrite Hw, count_nonzero_alive. fold w.
    assert (Hs : length (set_slice array i w) = length array)
      by (apply set_slice_length; lia).
    rewrite IH by (rewrite Hs; fold r; lia). fold r.
    f_equal; [| lia].
    unfold set_slice.
    rewrite firstn_app, length_firstn.
    replace (Nat.min i (length array)) with i by lia.
    rewrite firstn_firstn.
    replace (Nat.min (i + length w) i) with i by lia.
    replace (i + length w - i) with (length w) by lia.
    rewrite firstn_app, firstn_all, Nat.sub_diag, firstn_O, app_nil_r.
    rewrite <- !app_assoc. f_equal. f_equal. f_equal.
    rewrite !skipn_app, length_firstn.
    replace (Nat.min i (length array)) with i by lia.
    rewrite (skipn_all2 (firstn i array)) by (rewrite length_firstn; lia).
    rewrite (skipn_all2 w) by lia.
    cbn [app]. rewrite skipn_skipn. f_equal. lia.
Qed.

(** The test of the early return of [consolidate]. *)
Definition nothing_to_do (s : Sim.State) : bool :=
  (OBuf.len (Sim._buffer s) =? 0)
  && (Z.of_nat (length (filter Sim.alive (Sim.particles s ++ pending s)))
      =? DynArr.len (Sim._array s))%Z.

Lemma resize_nocopy (A : Type) (jk : nat -> A) (n : nat)
  (a : DynArr.DynamicArray A) :
  exists storage,
    DynArr.resize jk (Z.of_nat n) false a
    = Ok {| DynArr._array := storage; DynArr._size := Z.of_nat n |}
    /\ n <= length storage.
Proof.
  unfold DynArr.resize, DynArr.grow, DynArr.capacity.
  destruct (Z.leb_spec (Z.of_nat n) (Z.of_nat (length (DynArr._array a)))).
  - eexists; split; [reflexivity | lia].
  - eexists; split; [reflexivity |]. cbn [DynArr._array].
    rewrite DynArrFacts.np_empty_length.
    pose proof (DynArrFacts.grow_target_bounds (Z.of_nat n) a). lia.
Qed.

(** What [consolidate] computes on a well-formed buffer: the store becomes
    the alive rows of the store followed by the alive rows of the buffer
    in insertion order, the buffer is emptied, and the cached tree is
    dropped unless the early return is taken, which changes nothing. *)
Lemma consolidate_spec (s : Sim.State) :
  OBufFacts.wf (Sim._buffer s) ->
  exists s',
    Sim.consolidate junk s = Ok s'
    /\ Sim.particles s' = filter Sim.alive (Sim.particles s ++ pending s)
    /\ pending s' = []
    /\ OBuf.len (Sim._buffer s') = 0
    /\ OBufFacts.wf (Sim._buffer s')
    /\ DynArr.wf (Sim._array s')
    /\ Sim._last_id s' = Sim._last_id s
    /\ (if nothing_to_do s then s' = s else Sim._kd_tree s' = None).
Proof.
  intros Hwf.
  destruct (OBufFacts.chunks_contents Hwf) as (cs & Hcs & Hc).
  unfold Sim.consolidate. rewrite Hcs. cbn [bind]. cbv zeta.
  rewrite sum_counts. cbn [concat]. rewrite Hc. fold (pending s).
  fold (nothing_to_do s).
  set (alive_rows := filter Sim.alive (Sim.particles s ++ pending s)).
  destruct (nothing_to_do s) eqn:Hnothing.
  - (* the early return *)
    unfold nothing_to_do in Hnothing.
    apply andb_true_iff in Hnothing as [Hlen Hsize].
    apply Nat.eqb_eq in Hlen. apply Z.eqb_eq in Hsize.
    fold alive_rows in Hsize.
    assert (Hp : pending s = []) by now apply OBufFacts.len_zero_contents.
    assert (Hrows : alive_rows = filter Sim.alive (Sim.particles s))
      by (unfold alive_rows; now rewrite Hp, app_nil_r).
    assert (Hdata : length (Sim.particles s)
                    = Nat.min (Z.to_nat (DynArr._size (Sim._array s)))
                        (length (DynArr._array (Sim._array s)))).
    { unfold Sim.particles, DynArr.data, DynArr.len in *.
      rewrite DynArrFacts.slice_to_nonneg by lia. apply length_firstn. }
    pose proof (filter_length_le Sim.alive (Sim.particles s)) as Hle.
    unfold DynArr.len in Hsize. rewrite Hrows in Hsize.
    exists s.
    split; [reflexivity |].
    split; [rewrite Hrows; symmetry; apply filter_length_eq; lia |].
    split; [exact Hp |].
    split; [exact Hlen |].
    split; [exact Hwf |].
    split; [unfold DynArr.wf, DynArr.capacity; lia |].
    split; reflexivity.
  - destruct (resize_nocopy junk (length alive_rows) (Sim._array s))
      as (storage & -> & Hstorage).
    cbn [bind DynArr._array DynArr._size].
    rewrite (zip_chunks (Sim.particles s :: cs)).
    rewrite copy_chunks
      by (cbn [concat]; rewrite Hc; fold (pending s); fold alive_rows; lia).
    cbn [concat]. rewrite Hc. fold (pending s). fold alive_rows.
    cbn [firstn app Nat.add].
    destruct (OBufFacts.clear_wf Hwf) as (Hcw & Hcc & Hcl).
    eexists; split; [reflexivity |].
    unfold Sim.particles, pending, DynArr.data, DynArr.wf, DynArr.capacity;
      cbn [Sim._array Sim._buffer Sim._last_id Sim._kd_tree
           DynArr._array DynArr._size].
    split.
    { rewrite DynArrFacts.slice_to_nonneg by lia.
      rewrite Nat2Z.id, firstn_app, firstn_all, Nat.sub_diag, firstn_O.
      apply app_nil_r. }
    split; [exact Hcc |].
    split; [exact Hcl |].
    split; [exact Hcw |].
    split; [rewrite length_app, length_skipn; lia |].
    split; reflexivity.
Qed.

(** The states of an engine in use: construction, the particle
    interface, and the integration of [step]. Adding particles is
    considered as long as the ids fit the [Int32] field. *)
Inductive reachable : Sim.State -> Prop :=
| reach_init (initial_particle_capacity bucket_capacity : Z) a b :
    DynArr.init junk initial_particle_capacity = Ok a ->
    OBuf.init Sim.Particle bucket_capacity = Ok b ->
    reachable {| Sim._array := a; Sim._buffer := b;
                 Sim._last_id := -1; Sim._kd_tree := None |}
| reach_add_particle s kwargs s' :
    reachable s ->
    (Sim._last_id s < Sim.INT32_MAX)%Z ->
    Sim.add_particle junk kwargs s = Ok s' ->
    reachable s'
| reach_add_particles s count s' :
    reachable s ->
    (Sim._last_id s + count <= Sim.INT32_MAX)%Z ->
    Sim.add_particles junk count s = Ok s' ->
    reachable s'
| reach_write s h f :
    reachable s -> reachable (Sim.write h f s)
| reach_consolidate s s' :
    reachable s -> Sim.consolidate junk s = Ok s' -> reachable s'
| reach_neighbours s fuel pt count radius sort neighbours s' :
    reachable s ->
    Sim.get_neighbour_particles fuel pt count radius sort s
    = Some (Ok (neighbours, s')) ->
    reachable s'
| reach_integrate s time_step :
    reachable s -> reachable (Sim.integrate time_step s).

Lemma Int32_id (z : Z) :
  (- 2 ^ 31 <= z <= Sim.INT32_MAX)%Z -> Sim.Int32 z = z.
Proof.
  unfold Sim.Int32, Sim.INT32_MAX. intros H.
  rewrite Z.mod_small; lia.
Qed.

Lemma increasing_app (l1 l2 : list Z) :
  increasing l1 -> increasing l2 ->
  (forall x y, In x l1 -> In y l2 -> (x < y)%Z) ->
  increasing (l1 ++ l2).
Proof.
  unfold increasing. intros H1 H2 H.
  induction H1 as [| x l1 H1 IH Hx]; cbn; [exact H2 |].
  constructor.
  - apply IH. intros; apply H; [now right | assumption].
  - apply Forall_app. split; [exact Hx |].
    apply Forall_forall. intros y Hy. apply H; [now left | assumption].
Qed.

Lemma increasing_filter (f : Sim.Particle -> bool) (l : list Sim.Particle) :
  increasing (ids l) -> increasing (ids (filter f l)).
Proof.
  unfold increasing, ids.
  induction l as [| p l IH]; cbn; intros H; [constructor |].
  inversion H as [| ? ? Hs Hall]; subst.
  destruct (f p); cbn; [| now apply IH].
  constructor; [now apply IH |].
  rewrite Forall_map in *. rewrite Forall_forall in *.
  intros q Hq. apply Hall. apply filter_In in Hq. tauto.
Qed.

Lemma Forall_ids_filter (P : Z -> Prop) (f : Sim.Particle -> bool)
  (l : list Sim.Particle) :
  Forall P (ids l) -> Forall P (ids (filter f l)).
Proof.
  unfold ids. rewrite !Forall_map, !Forall_forall.
  intros H q Hq. apply H. apply filter_In in Hq. tauto.
Qed.

Lemma ids_same (l l' : list Sim.Particle) :
  Forall2 (fun p q => Sim.id q = Sim.id p) l l' -> ids l' = ids l.
Proof. induction 1; cbn; [reflexivity | f_equal; assumption]. Qed.

Lemma slice_to_ids (l l' : list Sim.Particle) (n : Z) :
  Forall2 (fun p q => Sim.id q = Sim.id p) l l' ->
  ids (slice_to l' n) = ids (slice_to l n).
Proof.
  intros H. unfold slice_to. rewrite (Forall2_length H).
  destruct (0 <=? n)%Z; apply ids_same;
    now apply OBufFacts.Forall2_firstn.
Qed.

Lemma sequence_ids (last : Z) (n : nat) :
  (-1 <= last)%Z -> (last + Z.of_nat n <= Sim.INT32_MAX)%Z ->
  ids (map (fun k => Sim.set_id Sim.default
                       (Sim.Int32 (last + 1 + Z.of_nat k))) (seq 0 n))
  = map (fun k => (last + 1 + Z.of_nat k)%Z) (seq 0 n).
Proof.
  intros Hl Hn. unfold ids. rewrite map_map. apply map_ext_in.
  intros k Hk. apply in_seq in Hk. cbn [Sim.set_id Sim.id].
  apply Int32_id. unfold Sim.INT32_MAX in *. lia.
Qed.

Lemma increasing_sequence (first : Z) (start n : nat) :
  increasing (map (fun k => (first + Z.of_nat k)%Z) (seq start n)).
Proof.
  unfold increasing. revert start.
  induction n as [| n IH]; intros start; cbn; constructor; [apply IH |].
  rewrite Forall_map, Forall_forall. intros k Hk.
  apply in_seq in Hk. lia.
Qed.

Lemma Inv_append (s : Sim.State) (buffer : OBuf.OrderedBuffer Sim.Particle)
  (rows : list Sim.Particle) (first : Z) :
  Inv s ->
  OBufFacts.wf buffer ->
  OBufFacts.contents buffer = pending s ++ rows ->
  first = (Sim._last_id s + 1)%Z ->
  ids rows = map (fun k => (first + Z.of_nat k)%Z) (seq 0 (length rows)) ->
  (Sim._last_id s + Z.of_nat (length rows) <= Sim.INT32_MAX)%Z ->
  Inv {| Sim._array := Sim._array s;
         Sim._buffer := buffer;
         Sim._last_id := Sim._last_id s + Z.of_nat (length rows);
         Sim._kd_tree := Sim._kd_tree s |}.
Proof.
  intros (Ha & Hb & Hinc & Hall & Hlast) Hwf Hc -> Hids Hmax.
  unfold Inv, pending, Sim.particles in *;
    cbn [Sim._array Sim._buffer Sim._last_id Sim._kd_tree].
  rewrite Hc, app_assoc. unfold ids in *. rewrite map_app, Hids.
  split; [exact Ha |]. split; [exact Hwf |]. split; [| split].
  - apply increasing_app; [exact Hinc | apply increasing_sequence |].
    intros x y Hx Hy. rewrite Forall_forall in Hall.
    specialize (Hall _ Hx). apply in_map_iff in Hy as (k & <- & Hk). lia.
  - apply Forall_app. split.
    + eapply Forall_impl; [| exact Hall]. cbn. intros; lia.
    + rewrite Forall_map, Forall_forall. intros k Hk.
      apply in_seq in Hk. lia.
  - lia.
Qed.

Lemma Inv_init (initial_particle_capacity bucket_capacity : Z) a b :
  DynArr.init junk initial_particle_capacity = Ok a ->
  OBuf.init Sim.Particle bucket_capacity = Ok b ->
  Inv {| Sim._array := a; Sim._buffer := b;
         Sim._last_id := -1; Sim._kd_tree := None |}.
Proof.
  unfold DynArr.init. intros Ha Hb.
  destruct (Z.ltb_spec initial_particle_capacity 0); [discriminate |].
  injection Ha as <-.
  destruct (OBufFacts.init_wf _ Hb) as [Hwf Hc].
  unfold Inv, pending, Sim.particles, DynArr.data, DynArr.wf, DynArr.capacity;
    cbn [Sim._array Sim._buffer Sim._last_id DynArr._array DynArr._size].
  rewrite Hc. cbn [firstn slice_to Z.leb Z.compare Z.to_nat app ids map].
  split; [lia |]. split; [exact Hwf |].
  split; [constructor |]. split; [constructor |].
  unfold Sim.INT32_MAX; lia.
Qed.

Lemma Inv_add_particle (s s' : Sim.State)
  (kwargs : Sim.Particle -> Sim.Particle) :
  Inv s ->
  (Sim._last_id s < Sim.INT32_MAX)%Z ->
  Sim.add_particle junk kwargs s = Ok s' ->
  Inv s'
  /\ Sim.particles s' = Sim.particles s
  /\ pending s'
     = pending s ++ [Sim.set_id (kwargs Sim.default) (Sim._last_id s + 1)].
Proof.
  intros HInv Hmax. pose proof HInv as (Ha & Hb & Hinc & Hall & Hlast).
  unfold Sim.add_particle, OBuf.append.
  rewrite Int32_id by (unfold Sim.INT32_MAX in *; lia).
  set (p := Sim.set_id (kwargs Sim.default) (Sim._last_id s + 1)).
  destruct (@OBufFacts.push_contents _ junk (Sim._buffer s) [p] Hb
              ltac:(discriminate)) as (b' & -> & Hwf' & Hc).
  cbn [bind]. intros H. injection H as <-.
  split; [| split; [reflexivity | exact Hc]].
  apply (@Inv_append s b' [p] (Sim._last_id s + 1)%Z); auto.
  - cbn. f_equal. lia.
  - cbn [length]. lia.
Qed.

Lemma Inv_add_particles (s s' : Sim.State) (count : Z) :
  Inv s ->
  (Sim._last_id s + count <= Sim.INT32_MAX)%Z ->
  Sim.add_particles junk count s = Ok s' ->
  Inv s'
  /\ Sim.particles s' = Sim.particles s
  /\ (1 <= count)%Z
  /\ Sim._last_id s' = (Sim._last_id s + count)%Z
  /\ ids (pending s')
     = ids (pending s)
       ++ map (fun k => (Sim._last_id s + 1 + Z.of_nat k)%Z)
            (seq 0 (Z.to_nat count)).
Proof.
  intros HInv Hmax. pose proof HInv as (Ha & Hb & Hinc & Hall & Hlast).
  unfold Sim.add_particles.
  destruct (Z.ltb_spec count 0) as [| Hc0]; [discriminate |].
  set (rows := map (fun k => Sim.set_id Sim.default
                               (Sim.Int32 (Sim._last_id s + 1 + Z.of_nat k)))
                 (seq 0 (Z.to_nat count))).
  assert (Hlen : length rows = Z.to_nat count)
    by (unfold rows; now rewrite length_map, length_seq).
  assert (Hids : ids rows
                 = map (fun k => (Sim._last_id s + 1 + Z.of_nat k)%Z)
                     (seq 0 (length rows))).
  { rewrite Hlen. apply sequence_ids; lia. }
  destruct (Z.to_nat count) as [| n] eqn:En.
  - (* no row: [particles['id'][-1]] raises *)
    assert (rows = []) by now apply length_zero_iff_nil.
    replace rows with (@nil Sim.Particle). cbn. discriminate.
  - assert (Hne : rows <> []) by (intros E; rewrite E in Hlen; discriminate).
    unfold OBuf.extend.
    destruct rows as [| r rows'] eqn:Er; [congruence |].
    rewrite <- Er in *.
    destruct (@OBufFacts.push_contents _ junk (Sim._buffer s) rows Hb Hne)
      as (b' & -> & Hwf' & Hc).
    cbn [bind].
    destruct (rev rows) as [| last rest] eqn:Erev.
    { apply (f_equal (@length _)) in Erev. rewrite length_rev in Erev.
      cbn in Erev. lia. }
    assert (Hrows : rows = rev rest ++ [last])
      by (rewrite <- (rev_involutive rows), Erev; reflexivity).
    assert (Hlast_id : Sim.id last
                       = (Sim._last_id s + Z.of_nat (length rows))%Z).
    { pose proof Hids as Hi. rewrite Hlen, seq_S, map_app in Hi.
      rewrite Hrows in Hi at 1. unfold ids in Hi. rewrite map_app in Hi.
      cbn [map] in Hi. apply app_inj_tail in Hi as [_ Hid].
      rewrite Hid, Hlen. lia. }
    intros H. injection H as <-.
    cbn [Sim._last_id Sim._array Sim._buffer]. rewrite Hlast_id.
    split; [| split; [reflexivity | split; [lia | split; [lia |]]]].
    + apply (@Inv_append s b' rows (Sim._last_id s + 1)%Z); auto. lia.
    + unfold pending; cbn [Sim._buffer]. rewrite Hc.
      unfold ids in *. rewrite map_app, Hids, Hlen. reflexivity.
Qed.

Definition same_id (p q : Sim.Particle) : Prop := Sim.id q = Sim.id p.

Lemma Inv_write (s : Sim.State) (h : Sim.handle)
  (f : Sim.Particle -> Sim.Particle) :
  Inv s -> Inv (Sim.write h f s).
Proof.
  intros (Ha & Hb & Hinc & Hall & Hlast).
  set (g := fun p => Sim.set_id (f p) (Sim.id p)).
  assert (Hg : forall p, same_id p (g p)) by reflexivity.
  assert (Hr : forall p, same_id p p) by reflexivity.
  destruct h as [idx | slot].
  - pose proof (@OBufFacts.Forall2_update Sim.Particle same_id
                  (DynArr._array (Sim._array s)) idx g Hr Hg) as H2.
    unfold Inv, Sim.write, pending, Sim.particles, DynArr.data, DynArr.wf,
      DynArr.capacity in *;
      cbn [Sim._array Sim._buffer Sim._last_id Sim._kd_tree
           DynArr._array DynArr._size].
    fold g. rewrite update_length.
    unfold ids in *. rewrite map_app in *.
    change (map Sim.id) with ids. rewrite (slice_to_ids _ H2).
    auto.
  - pose proof (@OBufFacts.write_related Sim.Particle same_id Hr slot g
                  (Sim._buffer s) Hg) as Hrel.
    unfold Inv, Sim.write, pending in *;
      cbn [Sim._array Sim._buffer Sim._last_id Sim._kd_tree].
    fold g.
    pose proof (@OBufFacts.related_contents _ _ _ _ Hrel) as Hc.
    unfold ids in *. rewrite map_app in *.
    change (map Sim.id) with ids. rewrite (ids_same Hc).
    split; [exact Ha |].
    split; [eapply OBufFacts.related_wf; eauto |].
    auto.
Qed.

Lemma map_data_data (f : Sim.Particle -> Sim.Particle)
  (a : DynArr.DynamicArray Sim.Particle) :
  DynArr.wf a ->
  DynArr.data (Sim.map_data f a) = map f (DynArr.data a)
  /\ DynArr.wf (Sim.map_data f a)
  /\ DynArr.len (Sim.map_data f a) = DynArr.len a.
Proof.
  intros [Hlo Hhi].
  unfold Sim.map_data, DynArr.data, DynArr.wf, DynArr.capacity, DynArr.len
    in *; cbn [DynArr._array DynArr._size].
  rewrite !DynArrFacts.slice_to_nonneg by assumption.
  rewrite length_app, length_map, length_skipn, length_firstn.
  repeat split; try lia.
  rewrite firstn_app, length_map, length_firstn, firstn_all2
    by (rewrite length_map, length_firstn; lia).
  replace (Z.to_nat (DynArr._size a)
           - Nat.min (Z.to_nat (DynArr._size a)) (length (DynArr._array a)))
    with 0 by lia.
  rewrite firstn_O. apply app_nil_r.
Qed.

Lemma integrate_particles (time_step : Q) (s : Sim.State) :
  DynArr.wf (Sim._array s) ->
  Sim.particles (Sim.integrate time_step s)
  = map (fun p => Sim.set_force (0%Q, 0%Q) (Sim._solve time_step p))
      (Sim.particles s)
  /\ DynArr.wf (Sim._array (Sim.integrate time_step s)).
Proof.
  intros Ha. unfold Sim.integrate, Sim.particles; cbn [Sim._array].
  destruct (map_data_data (Sim._solve time_step) Ha) as (H1 & Hw1 & _).
  destruct (map_data_data (Sim.set_force (0%Q, 0%Q)) Hw1) as (H2 & Hw2 & _).
  rewrite H2, H1, map_map. auto.
Qed.

Lemma Inv_integrate (time_step : Q) (s : Sim.State) :
  Inv s -> Inv (Sim.integrate time_step s).
Proof.
  intros (Ha & Hb & Hinc & Hall & Hlast).
  destruct (@integrate_particles time_step s Ha) as [Hp Hw].
  unfold Inv. rewrite Hp.
  unfold pending in *; cbn [Sim.integrate Sim._buffer Sim._last_id].
  replace (ids (map (fun p => Sim.set_force (0%Q, 0%Q)
                                (Sim._solve time_step p))
                  (Sim.particles s)
                ++ OBufFacts.contents (Sim._buffer s)))
    with (ids (Sim.particles s ++ OBufFacts.contents (Sim._buffer s)))
    by (unfold ids; rewrite !map_app, map_map; reflexivity).
  auto.
Qed.

Lemma Inv_consolidate (s s' : Sim.State) :
  Inv s -> Sim.consolidate junk s = Ok s' -> Inv s'.
Proof.
  intros (Ha & Hb & Hinc & Hall & Hlast) Hc.
  destruct (@consolidate_spec s Hb)
    as (s2 & Hc2 & Hp & Hpend & _ & Hwf & Hwa & Hl & _).
  rewrite Hc in Hc2. injection Hc2 as <-.
  unfold Inv. rewrite Hp, Hpend, Hl, app_nil_r.
  split; [exact Hwa |]. split; [exact Hwf |].
  split; [now apply increasing_filter |].
  split; [now apply Forall_ids_filter | exact Hlast].
Qed.

(** Every state of an engine in use satisfies the invariant; in
    particular its store is sorted by id, the precondition of
    [get_particle]. *)
Lemma reachable_Inv (s : Sim.State) : reachable s -> Inv s.
Proof.
  induction 1 as [ic bc a b Ha Hb
                 | s kwargs s' _ IH Hmax Hadd
                 | s count s' _ IH Hmax Hadd
                 | s h f _ IH
                 | s s' _ IH Hc
                 | s fuel pt count radius sort ns s' _ IH Hn
                 | s dt _ IH].
  - eapply Inv_init; eauto.
  - eapply Inv_add_particle; eauto.
  - eapply Inv_add_particles; eauto.
  - now apply Inv_write.
  - eapply Inv_consolidate; eauto.
  - unfold Sim.get_neighbour_particles in Hn.
    destruct (match Sim._kd_tree s with
              | Some t => _
              | None => KD.init fuel (map Sim.position (Sim.particles s)) 128
              end) as [[t | e] |]; try discriminate.
    destruct (KD.search t pt count radius sort) as [[n | e] |];
      try discriminate.
    injection Hn as _ <-. exact IH.
  - now apply Inv_integrate.
Qed.


Lemma particles_length (s : Sim.State) :
  DynArr.wf (Sim._array s) ->
  Z.of_nat (length (Sim.particles s)) = DynArr.len (Sim._array s).
Proof.
  intros [Hlo Hhi].
  unfold Sim.particles, DynArr.data, DynArr.len, DynArr.capacity in *.
  rewrite DynArrFacts.slice_to_nonneg by assumption.
  rewrite length_firstn. lia.
Qed.

Lemma filter_all (A : Type) (f : A -> bool) (l : list A) :
  forallb f l = true <-> filter f l = l.
Proof.
  induction l as [| x l IH]; cbn; [tauto |].
  destruct (f x) eqn:E; cbn.
  - rewrite IH. split; [intros ->; reflexivity | intros H; now injection H].
  - split; [discriminate |]. intros H.
    pose proof (filter_length_le f l) as Hle.
    apply (f_equal (@length _)) in H. cbn in H. lia.
Qed.

(** On a well-formed engine the early return of [consolidate] is taken
    exactly when the buffer is empty and every store row is alive. *)
Lemma nothing_to_do_iff (s : Sim.State) :
  DynArr.wf (Sim._array s) -> OBufFacts.wf (Sim._buffer s) ->
  nothing_to_do s
  = (OBuf.len (Sim._buffer s) =? 0) && forallb Sim.alive (Sim.particles s).
Proof.
  intros Ha Hb. unfold nothing_to_do.
  destruct (Nat.eqb_spec (OBuf.len (Sim._buffer s)) 0) as [Hlen |];
    [| reflexivity].
  cbn [andb]. unfold pending.
  rewrite (@OBufFacts.len_zero_contents _ _ Hb Hlen), app_nil_r.
  rewrite <- (@particles_length s Ha).
  destruct (forallb Sim.alive (Sim.particles s)) eqn:E.
  - apply filter_all in E. rewrite E. apply Z.eqb_refl.
  - apply Z.eqb_neq. intros H. apply Nat2Z.inj in H.
    apply filter_length_eq in H. apply filter_all in H. congruence.
Qed.


(** C6. Consolidation is idempotent: with an empty buffer and every store
    row alive the call returns the state it was given, storage included;
    and a second call in a row returns the state the first one left. *)
Theorem consolidate_idempotent (s : Sim.State) :
  DynArr.wf (Sim._array s) ->
  OBufFacts.wf (Sim._buffer s) ->
  (OBuf.len (Sim._buffer s) = 0 ->
   forallb Sim.alive (Sim.particles s) = true ->
   Sim.consolidate junk s = Ok s)
  /\ exists s',
       Sim.consolidate junk s = Ok s' /\ Sim.consolidate junk s' = Ok s'.
Proof.
  intros Ha Hb.
  assert (Hearly : forall t,
             DynArr.wf (Sim._array t) -> OBufFacts.wf (Sim._buffer t) ->
             OBuf.len (Sim._buffer t) = 0 ->
             forallb Sim.alive (Sim.particles t) = true ->
             Sim.consolidate junk t = Ok t).
  { intros t Hta Htb Hlen Halive.
    destruct (@consolidate_spec t Htb) as (t' & Hc & _ & _ & _ & _ & _ & _ & Hk).
    rewrite (@nothing_to_do_iff t Hta Htb), Hlen, Halive in Hk. cbn in Hk.
    now rewrite Hc, Hk. }
  split; [now apply Hearly |].
  destruct (@consolidate_spec s Hb)
    as (s' & Hc & Hp & _ & Hlen & Hwb & Hwa & _ & _).
  exists s'. split; [exact Hc |].
  apply Hearly; auto.
  apply filter_all. rewrite Hp. clear.
  induction (Sim.particles s ++ pending s) as [| p l IH]; cbn;
    [reflexivity |].
  destruct (Sim.alive p) eqn:E; cbn; [rewrite E |]; now rewrite ?IH.
Qed.





Lemma write_store_ids (s : Sim.State) (h : Sim.handle)
  (f : Sim.Particle -> Sim.Particle) :
  ids (Sim.particles (Sim.write h f s)) = ids (Sim.particles s).
Proof.
  destruct h as [idx | slot]; [| reflexivity].
  unfold Sim.write, Sim.particles, DynArr.data;
    cbn [Sim._array DynArr._array DynArr._size].
  apply slice_to_ids. apply OBufFacts.Forall2_update; reflexivity.
Qed.

Lemma ids_nil (l : list Sim.Particle) : ids l = [] <-> l = [].
Proof. destruct l; cbn; split; congruence. Qed.

(** A cached tree was built from a store that is not empty, and the
    store has not become empty since. *)
Lemma cached_tree_store (s : Sim.State) :
  reachable s ->
  forall t, Sim._kd_tree s = Some t -> Sim.particles s <> [].
Proof.
  induction 1 as [ic bc a b Ha Hb
                 | s kwargs s' Hr IH Hmax Hadd
                 | s count s' Hr IH Hmax Hadd
                 | s h f Hr IH
                 | s s' Hr IH Hc
                 | s fuel pt count radius sort ns s' Hr IH Hn
                 | s dt Hr IH]; intros t Ht.
  - discriminate.
  - destruct (@Inv_add_particle s s' kwargs (reachable_Inv Hr) Hmax Hadd)
      as (_ & -> & _).
    unfold Sim.add_particle in Hadd.
    destruct (OBuf.append junk _ (Sim._buffer s)); [| discriminate].
    injection Hadd as <-. eapply IH; eauto.
  - destruct (@Inv_add_particles s s' count (reachable_Inv Hr) Hmax Hadd)
      as (_ & -> & _).
    unfold Sim.add_particles in Hadd.
    destruct (count <? 0)%Z; [discriminate |].
    destruct (OBuf.extend junk _ (Sim._buffer s)); [| discriminate].
    cbn [bind] in Hadd.
    destruct (rev _); [discriminate |].
    injection Hadd as <-. eapply IH; eauto.
  - intros E. apply ids_nil in E. rewrite write_store_ids in E.
    apply ids_nil in E. revert E. eapply IH.
    destruct h; exact Ht.
  - pose proof (reachable_Inv Hr) as (_ & Hb & _).
    destruct (@consolidate_spec s Hb) as (s2 & Hc2 & _ & _ & _ & _ & _ & _ & Hk).
    rewrite Hc in Hc2. injection Hc2 as <-.
    destruct (nothing_to_do s); [subst s'; eapply IH; eauto | congruence].
  - unfold Sim.get_neighbour_particles in Hn.
    destruct (Sim._kd_tree s) as [t0 |] eqn:Hk.
    + destruct (KD.search _ pt count radius sort) as [[n | e] |];
        try discriminate.
      injection Hn as _ <-. eapply IH; eauto.
    + destruct (Sim.particles s) as [| p l] eqn:Hp.
      * exfalso. cbn in Hn. destruct fuel; cbn in Hn; discriminate.
      * destruct (KD.init fuel _ 128) as [[t1 | e] |]; try discriminate.
        destruct (KD.search t1 pt count radius sort) as [[n | e] |];
          try discriminate.
        injection Hn as _ <-.
        unfold Sim.particles in *; cbn [Sim._array]. rewrite Hp. discriminate.
  - pose proof (reachable_Inv Hr) as (Ha & _).
    destruct (@integrate_particles dt s Ha) as [-> _].
    intros E. apply map_eq_nil in E. revert E. eapply IH. exact Ht.
Qed.

(** C10. With an empty store every neighbour query raises: no tree is
    cached for an empty store, and the build takes the bounds of an empty
    set of points, which raises [ValueError], whatever the query. *)
Theorem empty_store_query_raises (s : Sim.State) :
  reachable s ->
  Sim.particles s = [] ->
  forall fuel pt count radius sort,
    Sim.get_neighbour_particles (S fuel) pt count radius sort s
    = Some (Raise ValueError).
Proof.
  intros Hr Hempty fuel pt count radius sort.
  unfold Sim.get_neighbour_particles.
  destruct (Sim._kd_tree s) as [t |] eqn:Hk.
  - exfalso. eapply cached_tree_store; eauto.
  - rewrite Hempty. reflexivity.
Qed.

(** *** The lifecycle of a step, in the words of the specification *)

(** Semi-implicit Euler on one row, in the words of the specification:
    [velocity += force / mass * time_step], then
    [position += velocity * time_step] with the new velocity. *)
Definition euler_velocity (time_step : Q) (p : Sim.Particle) : KD.point :=
  ((fst (Sim.velocity p) + fst (Sim.force p) / Sim.mass p * time_step)%Q,
   (snd (Sim.velocity p) + snd (Sim.force p) / Sim.mass p * time_step)%Q).

Definition euler_position (time_step : Q) (p : Sim.Particle) : KD.point :=
  ((fst (Sim.position p) + fst (euler_velocity time_step p) * time_step)%Q,
   (snd (Sim.position p) + snd (euler_velocity time_step p) * time_step)%Q).

Definition veq (a b : KD.point) : Prop :=
  (fst a == fst b)%Q /\ (snd a == snd b)%Q.

(** Row [q] is row [p] after the integration: the force is zero, the
    other fields that the integration does not compute are those of [p],
    and the velocity and the position are those of the specification, as
    rationals. A row of mass zero has no rational velocity: the division
    by zero of the code gives an infinity or a nan. *)
Definition integrated (time_step : Q) (p q : Sim.Particle) : Prop :=
  Sim.id q = Sim.id p
  /\ Sim.alive q = Sim.alive p
  /\ Sim.mass q = Sim.mass p
  /\ Sim.size q = Sim.size p
  /\ Sim.color q = Sim.color p
  /\ Sim.force q = (0%Q, 0%Q)
  /\ (~ (Sim.mass p == 0)%Q ->
      veq (Sim.velocity q) (euler_velocity time_step p)
      /\ veq (Sim.position q) (euler_position time_step p)).

(** State [s'] is what [consolidate] makes of state [s]: the alive
    particles of the store and of the buffer chunks, in this order, and
    an empty buffer. *)
Definition consolidated (s s' : Sim.State) : Prop :=
  exists chunks,
    OBuf.chunks (Sim._buffer s) = Ok chunks
    /\ Sim.consolidate junk s = Ok s'
    /\ Sim.particles s'
       = filter Sim.alive (Sim.particles s ++ concat chunks)
    /\ OBuf.len (Sim._buffer s') = 0.

(** A callback that keeps the engine well-formed, as the particle
    interface does. *)
Definition callback_ok (cb : option Sim.callback) : Prop :=
  forall f, cb = Some f -> forall time_step time s,
      Inv s -> Inv (f time_step time s).

Lemma solve_integrated (time_step : Q) (p : Sim.Particle) :
  integrated time_step p
    (Sim.set_force (0%Q, 0%Q) (Sim._solve time_step p)).
Proof.
  unfold integrated, veq, euler_position, euler_velocity, Sim._solve,
    Sim.set_force, Sim.vadd, Sim.vscale, Sim.vdiv; cbn [Sim.id Sim.alive
    Sim.position Sim.velocity Sim.force Sim.mass Sim.size Sim.color fst snd].
  repeat (split; [reflexivity |]).
  intros Hm. repeat split; field; exact Hm.
Qed.

Lemma consolidated_of_wf (s : Sim.State) :
  OBufFacts.wf (Sim._buffer s) ->
  exists s', consolidated s s' /\ DynArr.wf (Sim._array s').
Proof.
  intros Hb.
  destruct (@OBufFacts.chunks_contents _ _ Hb) as (cs & Hcs & Hc).
  destruct (@consolidate_spec s Hb) as (s' & Hcons & Hp & _ & Hlen & _ & Ha & _).
  exists s'. split; [| exact Ha].
  exists cs. rewrite Hc. auto.
Qed.

Lemma forallb_filter (A : Type) (f : A -> bool) (l : list A) :
  forallb f (filter f l) = true.
Proof.
  induction l as [| x l IH]; cbn; [reflexivity |].
  destruct (f x) eqn:E; cbn; [rewrite E |]; now rewrite ?IH.
Qed.

Lemma run_callback_ok (cb : option Sim.callback) (time_step time : Q)
  (s : Sim.State) :
  Inv s -> callback_ok cb ->
  exists s',
    Sim.run_callback junk cb time_step time s = Ok s'
    /\ Inv s'
    /\ match cb with
       | Some f =>
           Sim.consolidate junk (f time_step time s) = Ok s'
           /\ forallb Sim.alive (Sim.particles s') = true
       | None => s' = s
       end.
Proof.
  intros HInv Hok. destruct cb as [f |]; cbn [Sim.run_callback].
  - pose proof (Hok f eq_refl time_step time s HInv) as Hf.
    pose proof Hf as (_ & Hb & _).
    destruct (@consolidate_spec (f time_step time s) Hb)
      as (s' & Hc & Hp & _).
    exists s'. split; [exact Hc |]. split; [eapply Inv_consolidate; eauto |].
    split; [exact Hc |]. rewrite Hp. apply forallb_filter.
  - exists s. auto.
Qed.

(** C3 (as the code has it). A step adds exactly [time_step] to the
    time. When there is a presolve callback it runs it and then
    consolidates; when there is none it does not consolidate. It then
    integrates every row of the store, alive or not, and no particle of
    the buffer, by semi-implicit Euler, and zeroes the force of these
    rows. When there is a postsolve callback it runs it and then
    consolidates; in this order. The callbacks are any functions that
    leave a well-formed buffer in the state they are run on. *)
Theorem step_lifecycle (sim : Sim.ParticleSimulation) :
  DynArr.wf (Sim._array (Sim.state sim)) ->
  (forall f, Sim._presolve_callback sim = Some f ->
     OBufFacts.wf
       (Sim._buffer
          (f (Sim._time_step sim) (Sim._time sim + Sim._time_step sim)%Q
             (Sim.state sim)))) ->
  (forall g s1, Sim._postsolve_callback sim = Some g ->
     Sim.run_callback junk (Sim._presolve_callback sim) (Sim._time_step sim)
       (Sim._time sim + Sim._time_step sim)%Q (Sim.state sim) = Ok s1 ->
     OBufFacts.wf
       (Sim._buffer
          (g (Sim._time_step sim) (Sim._time sim + Sim._time_step sim)%Q
             (Sim.integrate (Sim._time_step sim) s1)))) ->
  exists s1 s2 s3,
    match Sim._presolve_callback sim with
    | Some f =>
        consolidated
          (f (Sim._time_step sim) (Sim._time sim + Sim._time_step sim)%Q
             (Sim.state sim)) s1
    | None => s1 = Sim.state sim
    end
    /\ Forall2 (integrated (Sim._time_step sim))
         (Sim.particles s1) (Sim.particles s2)
    /\ Sim._buffer s2 = Sim._buffer s1
    /\ Sim._last_id s2 = Sim._last_id s1
    /\ Sim._kd_tree s2 = Sim._kd_tree s1
    /\ match Sim._postsolve_callback sim with
       | Some g =>
           consolidated
             (g (Sim._time_step sim) (Sim._time sim + Sim._time_step sim)%Q
                s2) s3
       | None => s3 = s2
       end
    /\ Sim.step junk sim
       = Ok {| Sim._time_step := Sim._time_step sim;
               Sim._time := (Sim._time sim + Sim._time_step sim)%Q;
               Sim._presolve_callback := Sim._presolve_callback sim;
               Sim._postsolve_callback := Sim._postsolve_callback sim;
               Sim.state := s3 |}.
Proof.
  intros Ha Hpre Hpost.
  set (dt := Sim._time_step sim) in *.
  set (t := (Sim._time sim + dt)%Q) in *.
  assert (H1 : exists s1,
    Sim.run_callback junk (Sim._presolve_callback sim) dt t (Sim.state sim)
    = Ok s1
    /\ DynArr.wf (Sim._array s1)
    /\ match Sim._presolve_callback sim with
       | Some f => consolidated (f dt t (Sim.state sim)) s1
       | None => s1 = Sim.state sim
       end).
  { destruct (Sim._presolve_callback sim) as [f |]; cbn [Sim.run_callback].
    - destruct (@consolidated_of_wf _ (Hpre f eq_refl)) as (s1 & Hc & Ha1).
      exists s1. pose proof Hc as (cs & _ & Hcons & _). auto.
    - exists (Sim.state sim). auto. }
  destruct H1 as (s1 & Hr1 & Ha1 & Hs1).
  assert (H3 : exists s3,
    Sim.run_callback junk (Sim._postsolve_callback sim) dt t
      (Sim.integrate dt s1) = Ok s3
    /\ match Sim._postsolve_callback sim with
       | Some g => consolidated (g dt t (Sim.integrate dt s1)) s3
       | None => s3 = Sim.integrate dt s1
       end).
  { specialize (fun g => Hpost g s1).
    destruct (Sim._postsolve_callback sim) as [g |]; cbn [Sim.run_callback].
    - destruct (@consolidated_of_wf _ (Hpost g eq_refl Hr1)) as (s3 & Hc & _).
      exists s3. pose proof Hc as (cs & _ & Hcons & _). auto.
    - exists (Sim.integrate dt s1). auto. }
  destruct H3 as (s3 & Hr3 & Hs3).
  exists s1, (Sim.integrate dt s1), s3.
  split; [exact Hs1 |].
  split.
  { destruct (@integrate_particles dt s1 Ha1) as [-> _].
    clear. induction (Sim.particles s1) as [| p l IH]; cbn [map];
      constructor; [apply solve_integrated | exact IH]. }
  split; [reflexivity |]. split; [reflexivity |]. split; [reflexivity |].
  split; [exact Hs3 |].
  unfold Sim.step. fold dt. fold t. rewrite Hr1. cbn [bind].
  rewrite Hr3. reflexivity.
Qed.

End Facts.

(** *** A worked scenario

    An engine of capacity 4 with buckets of 2; three particles are added,
    the second is marked not alive through its handle, the engine is
    consolidated and queried for neighbours. *)

Definition j0 : nat -> Sim.Particle := fun _ => Sim.default.

Definition unwrap (r : result Sim.State) (d : Sim.State) : Sim.State :=
  match r with
  | Ok s => s
  | Raise _ => d
  end.

Definition demo0 : Sim.State :=
  Eval vm_compute in
    {| Sim._array := {| DynArr._array := DynArr.np_empty j0 4;
                        DynArr._size := 0 |};
       Sim._buffer := {| OBuf._buckets := [];
                         OBuf._bucket_capacity := 2;
                         OBuf._pos := (0, 0);
                         OBuf._bunchs := [] |};
       Sim._last_id := -1;
       Sim._kd_tree := None |}.

Definition demo1 : Sim.State :=
  Eval vm_compute in unwrap (Sim.add_particle j0 (fun p => p) demo0) demo0.

Definition demo2 : Sim.State :=
  Eval vm_compute in unwrap (Sim.add_particle j0 (fun p => p) demo1) demo0.

Definition demo3 : Sim.State :=
  Eval vm_compute in unwrap (Sim.add_particle j0 (fun p => p) demo2) demo0.

Definition demo4 : Sim.State :=
  Eval vm_compute in
    Sim.write (Sim.BufferSlot (OBuf.BucketSlot 0 1)) (Sim.set_alive false)
      demo3.

Definition demo5 : Sim.State :=
  Eval vm_compute in unwrap (Sim.consolidate j0 demo4) demo0.

Definition demo6 : Sim.State :=
  Eval vm_compute in
    match Sim.get_neighbour_particles 8 (0%Q, 0%Q) (Some 1%Z) None true
            demo5 with
    | Some (Ok (_, s)) => s
    | _ => demo0
    end.

Ltac reach_demo0 :=
  exact (@reach_init j0 4 2 _ _ eq_refl eq_refl).

Ltac reach_add :=
  eapply (@reach_add_particle j0 _ (fun p => p));
  [ | vm_compute; reflexivity | vm_compute; reflexivity ].

Ltac reach_demo3 :=
  (* demo3 <- demo2 <- demo1 <- demo0 *)
  apply (@reach_add_particle j0 demo2 (fun p => p) demo3);
  [ apply (@reach_add_particle j0 demo1 (fun p => p) demo2);
    [ apply (@reach_add_particle j0 demo0 (fun p => p) demo1);
      [ reach_demo0 | reflexivity | reflexivity ]
    | reflexivity | reflexivity ]
  | reflexivity | reflexivity ].

Ltac reach_demo4 :=
  exact (@reach_write j0 demo3 (Sim.BufferSlot (OBuf.BucketSlot 0 1))
           (Sim.set_alive false) ltac:(reach_demo3)).

Ltac reach_demo5 :=
  apply (@reach_consolidate j0 demo4 demo5); [ reach_demo4 | reflexivity ].

Ltac reach_demo6 :=
  apply (@reach_neighbours j0 demo5 8 (0%Q, 0%Q) (Some 1%Z) None true
           [(0%Q, 1)] demo6);
  [ reach_demo5 | vm_compute; reflexivity ].

(** The store after the scenario: the first and the third particle. *)
Example demo5_ids : ids (Sim.particles demo5) = [0%Z; 2%Z].
Proof. reflexivity. Qed.



Lemma consolidate_idempotent_witness :
  (OBuf.len (Sim._buffer demo5) = 0 ->
   forallb Sim.alive (Sim.particles demo5) = true ->
   Sim.consolidate j0 demo5 = Ok demo5)
  /\ exists s',
       Sim.consolidate j0 demo5 = Ok s' /\ Sim.consolidate j0 s' = Ok s'.
Proof.
  apply (@consolidate_idempotent j0 demo5).
  - unfold DynArr.wf, DynArr.capacity. cbn. lia.
  - unfold OBufFacts.wf, OBufFacts.addr. cbn.
    repeat split; try lia. repeat constructor.
Defined.

(** The scenario with one more particle added and not yet consolidated:
    it has id 3 and is in the buffer. *)
Definition demo7 : Sim.State :=
  Eval vm_compute in unwrap (Sim.add_particle j0 (fun p => p) demo5) demo0.

Example demo7_ids :
  ids (Sim.particles demo7) = [0%Z; 2%Z] /\ ids (pending demo7) = [3%Z].
Proof. split; reflexivity. Qed.



(** The test of [get_particle] in the scenario: the second particle was
    removed, the third is found in the second slot. *)
Example get_particle_demo :
  Sim.get_particle 1 demo5 = Raise ValueError
  /\ option_map fst
       (match Sim.get_particle 2 demo5 with
        | Ok r => Some r
        | Raise _ => None
        end) = Some 1.
Proof. split; reflexivity. Qed.

Lemma empty_store_query_raises_witness :
  Sim.get_neighbour_particles 1 (0%Q, 0%Q) (Some 1%Z) None false demo3
  = Some (Raise ValueError).
Proof.
  apply (@empty_store_query_raises j0 demo3).
  - reach_demo3.
  - reflexivity.
Defined.

(** A presolve callback that adds a particle of velocity (1, 0) and a
    postsolve callback that marks the first store row not alive. *)
Definition moving (p : Sim.Particle) : Sim.Particle :=
  Sim.mkParticle (Sim.id p) (Sim.alive p) (Sim.position p) (1%Q, 0%Q)
    (Sim.force p) (Sim.mass p) (Sim.size p) (Sim.color p).

Definition add_moving : Sim.callback :=
  fun _ _ s => unwrap (Sim.add_particle j0 moving s) s.

Definition kill_first : Sim.callback :=
  fun _ _ s => Sim.write (Sim.StoreSlot 0) (Sim.set_alive false) s.

Definition demo_sim : Sim.ParticleSimulation :=
  {| Sim._time_step := 1 # 2;
     Sim._time := 0;
     Sim._presolve_callback := Some add_moving;
     Sim._postsolve_callback := Some kill_first;
     Sim.state := demo5 |}.

Lemma step_lifecycle_witness :
  exists s1 s2 s3,
    consolidated j0 (add_moving (1 # 2)%Q (0 + (1 # 2))%Q demo5) s1
    /\ Forall2 (integrated (1 # 2)%Q) (Sim.particles s1) (Sim.particles s2)
    /\ Sim._buffer s2 = Sim._buffer s1
    /\ Sim._last_id s2 = Sim._last_id s1
    /\ Sim._kd_tree s2 = Sim._kd_tree s1
    /\ consolidated j0 (kill_first (1 # 2)%Q (0 + (1 # 2))%Q s2) s3
    /\ Sim.step j0 demo_sim
       = Ok {| Sim._time_step := (1 # 2)%Q;
               Sim._time := (0 + (1 # 2))%Q;
               Sim._presolve_callback := Some add_moving;
               Sim._postsolve_callback := Some kill_first;
               Sim.state := s3 |}.
Proof.
  apply (@step_lifecycle j0 demo_sim).
  - unfold DynArr.wf, DynArr.capacity. cbn. lia.
  - intros f Hf. injection Hf as <-.
    unfold OBufFacts.wf, OBufFacts.addr. cbn.
    repeat split; try lia. repeat constructor.
  - intros g s1 Hg Hrun. injection Hg as <-.
    vm_compute in Hrun. injection Hrun as <-.
    unfold OBufFacts.wf, OBufFacts.addr. cbn.
    repeat split; try lia. repeat constructor.
Defined.

(** A step of an engine without callbacks does not consolidate, and it
    integrates the rows of the store whether alive or not: of two store
    rows of velocity (1, 0) at the origin, the second one not alive, and
    an alive particle of the same velocity in the buffer, a step of one
    time unit moves both store rows, keeps the row that is not alive, and
    leaves the buffered particle in the buffer where it was. *)
Definition lazy_state : Sim.State :=
  Eval vm_compute in
    let s1 := unwrap (Sim.add_particle j0 moving demo0) demo0 in
    let s2 := unwrap (Sim.add_particle j0 moving s1) demo0 in
    let s3 := unwrap (Sim.consolidate j0 s2) demo0 in
    let s4 := Sim.write (Sim.StoreSlot 1) (Sim.set_alive false) s3 in
    unwrap (Sim.add_particle j0 moving s4) demo0.

Definition lazy_sim : Sim.ParticleSimulation :=
  {| Sim._time_step := 1;
     Sim._time := 0;
     Sim._presolve_callback := None;
     Sim._postsolve_callback := None;
     Sim.state := lazy_state |}.

Lemma step_without_callbacks :
  map Sim.alive (Sim.particles lazy_state) = [true; false]
  /\ exists sim' chunks p,
       Sim.step j0 lazy_sim = Ok sim'
       /\ map Sim.alive (Sim.particles (Sim.state sim')) = [true; false]
       /\ Forall (fun q => (fst (Sim.position q) == 1)%Q)
            (Sim.particles (Sim.state sim'))
       /\ OBuf.chunks (Sim._buffer (Sim.state sim')) = Ok chunks
       /\ concat chunks = [p]
       /\ Sim.alive p = true
       /\ Sim.velocity p = (1%Q, 0%Q)
       /\ Sim.position p = (0%Q, 0%Q).
Proof.
  split; [reflexivity |].
  do 3 eexists.
  split; [vm_compute; reflexivity |].
  split; [reflexivity |].
  split; [repeat constructor |].
  split; [vm_compute; reflexivity |].
  split; [reflexivity |].
  repeat split.
Qed.

(** *** Adding particles and finding them again *)

Section Use.

Variable junk : nat -> Sim.Particle.

Lemma increasing_NoDup (l : list Z) : increasing l -> NoDup l.
Proof.
  induction 1 as [| x l _ IH Hx]; constructor; [| exact IH].
  intros Hin. rewrite Forall_forall in Hx. specialize (Hx x Hin). lia.
Qed.

(** X11. Ids are never reused: in every state of an engine in use (while
    the ids fit the [Int32] field) [add_particle] raises nothing, leaves
    the store as it is, puts the new particle at the end of the buffer
    with the id that follows the last one handed out, and this id is the
    id of no particle of the store or of the buffer; the ids of the store
    and of the buffer stay pairwise distinct. *)
Theorem fresh_id (s : Sim.State) (kwargs : Sim.Particle -> Sim.Particle) :
  reachable junk s ->
  (Sim._last_id s < Sim.INT32_MAX)%Z ->
  exists s',
    Sim.add_particle junk kwargs s = Ok s'
    /\ Sim._last_id s' = (Sim._last_id s + 1)%Z
    /\ Sim.particles s' = Sim.particles s
    /\ pending s'
       = pending s ++ [Sim.set_id (kwargs Sim.default) (Sim._last_id s + 1)]
    /\ ~ In (Sim._last_id s + 1)%Z (ids (Sim.particles s ++ pending s))
    /\ NoDup (ids (Sim.particles s' ++ pending s')).
Proof.
  intros Hr Hlt. pose proof (reachable_Inv Hr) as HInv.
  pose proof HInv as (Ha & Hb & Hinc & Hall & Hlast).
  assert (Hid : Sim.Int32 (Sim._last_id s + 1) = (Sim._last_id s + 1)%Z)
    by (apply Int32_id; unfold Sim.INT32_MAX in *; lia).
  set (p := Sim.set_id (kwargs Sim.default) (Sim.Int32 (Sim._last_id s + 1))).
  destruct (@OBufFacts.push_contents _ junk (Sim._buffer s) [p] Hb
              ltac:(discriminate)) as (b' & Hpush & _).
  assert (Hadd : Sim.add_particle junk kwargs s
                 = Ok {| Sim._array := Sim._array s;
                         Sim._buffer := b';
                         Sim._last_id := Sim.id p;
                         Sim._kd_tree := Sim._kd_tree s |}).
  { unfold Sim.add_particle, OBuf.append. fold p. now rewrite Hpush. }
  destruct (Inv_add_particle junk kwargs HInv Hlt Hadd) as (HInv' & Hp & Hq).
  eexists. split; [exact Hadd |].
  split; [cbn [Sim._last_id]; subst p; cbn [Sim.set_id Sim.id]; exact Hid |].
  split; [exact Hp |]. split; [exact Hq |]. split.
  - intros Hin. rewrite Forall_forall in Hall. specialize (Hall _ Hin). lia.
  - apply increasing_NoDup. apply HInv'.
Qed.

(** X12. [add_particles(count)]: a negative count raises [ValueError] and
    a count of zero raises [IndexError] (the last id of an empty array is
    read); a positive count, while the ids fit the [Int32] field, raises
    nothing, leaves the store as it is and puts [count] default particles
    with the next [count] ids, in order, at the end of the buffer. *)
Theorem add_particles_law (s : Sim.State) (count : Z) :
  reachable junk s ->
  (Sim._last_id s + count <= Sim.INT32_MAX)%Z ->
  match Sim.add_particles junk count s with
  | Ok s' =>
      (1 <= count)%Z
      /\ Sim._last_id s' = (Sim._last_id s + count)%Z
      /\ Sim.particles s' = Sim.particles s
      /\ pending s'
         = pending s
           ++ map (fun k => Sim.set_id Sim.default
                              (Sim._last_id s + 1 + Z.of_nat k))
                (seq 0 (Z.to_nat count))
  | Raise e =>
      ((count < 0)%Z /\ e = ValueError) \/ (count = 0%Z /\ e = IndexError)
  end.
Proof.
  intros Hr Hmax. pose proof (reachable_Inv Hr) as HInv.
  pose proof HInv as (Ha & Hb & Hinc & Hall & Hlast).
  destruct (Sim.add_particles junk count s) as [s' | e] eqn:Hadd.
  - destruct (@Inv_add_particles junk s s' count HInv Hmax Hadd)
      as (_ & Hp & Hc & Hl & _).
    split; [exact Hc |]. split; [exact Hl |]. split; [exact Hp |].
    unfold Sim.add_particles in Hadd.
    destruct (Z.ltb_spec count 0) as [| _]; [lia |].
    set (rows := map (fun k => Sim.set_id Sim.default
                                 (Sim.Int32 (Sim._last_id s + 1 + Z.of_nat k)))
                   (seq 0 (Z.to_nat count))) in *.
    assert (Hrows : rows
                    = map (fun k => Sim.set_id Sim.default
                                      (Sim._last_id s + 1 + Z.of_nat k))
                        (seq 0 (Z.to_nat count))).
    { apply map_ext_in. intros k Hk. apply in_seq in Hk.
      rewrite Int32_id; [reflexivity |].
      unfold Sim.INT32_MAX in *. lia. }
    rewrite <- Hrows.
    assert (Hne : rows <> []).
    { intros E. apply (f_equal (@length _)) in E.
      unfold rows in E. rewrite length_map, length_seq in E. cbn in E. lia. }
    destruct (@OBufFacts.push_contents _ junk (Sim._buffer s) rows Hb Hne)
      as (b' & Hpush & _ & Hcont).
    assert (Hext : OBuf.extend junk rows (Sim._buffer s) = Ok b').
    { destruct rows; [congruence | exact Hpush]. }
    rewrite Hext in Hadd. cbn [bind] in Hadd.
    destruct (rev rows); [discriminate |].
    injection Hadd as <-. exact Hcont.
  - unfold Sim.add_particles in Hadd.
    destruct (Z.ltb_spec count 0) as [Hneg | Hpos].
    { injection Hadd as <-. left. auto. }
    right.
    set (rows := map (fun k => Sim.set_id Sim.default
                                 (Sim.Int32 (Sim._last_id s + 1 + Z.of_nat k)))
                   (seq 0 (Z.to_nat count))) in *.
    destruct (Z.eq_dec count 0) as [-> | Hnz].
    { cbn in Hadd. injection Hadd as <-. auto. }
    exfalso.
    assert (Hlen : length rows = Z.to_nat count)
      by (unfold rows; now rewrite length_map, length_seq).
    assert (Hne : rows <> []).
    { intros E. rewrite E in Hlen. cbn in Hlen. lia. }
    destruct (@OBufFacts.push_contents _ junk (Sim._buffer s) rows Hb Hne)
      as (b' & Hpush & _).
    assert (Hext : OBuf.extend junk rows (Sim._buffer s) = Ok b').
    { destruct rows; [congruence | exact Hpush]. }
    rewrite Hext in Hadd. cbn [bind] in Hadd.
    destruct (rev rows) eqn:Erev; [| discriminate].
    apply (f_equal (@length _)) in Erev. rewrite length_rev in Erev.
    cbn in Erev. lia.
Qed.


End Use.

(** A fourth particle added to the three of the scenario. *)
Lemma fresh_id_witness :
  exists s',
    Sim.add_particle j0 (fun p => p) demo3 = Ok s'
    /\ Sim._last_id s' = (Sim._last_id demo3 + 1)%Z
    /\ Sim.particles s' = Sim.particles demo3
    /\ pending s'
       = pending demo3
         ++ [Sim.set_id Sim.default (Sim._last_id demo3 + 1)]
    /\ ~ In (Sim._last_id demo3 + 1)%Z
           (ids (Sim.particles demo3 ++ pending demo3))
    /\ NoDup (ids (Sim.particles s' ++ pending s')).
Proof.
  apply (@fresh_id j0 demo3 (fun p => p)).
  - reach_demo3.
  - vm_compute. reflexivity.
Defined.

Lemma add_particles_law_witness :
  match Sim.add_particles j0 2 demo3 with
  | Ok s' =>
      (1 <= 2)%Z
      /\ Sim._last_id s' = (Sim._last_id demo3 + 2)%Z
      /\ Sim.particles s' = Sim.particles demo3
      /\ pending s'
         = pending demo3
           ++ map (fun k => Sim.set_id Sim.default
                              (Sim._last_id demo3 + 1 + Z.of_nat k))
                (seq 0 (Z.to_nat 2))
  | Raise e =>
      ((2 < 0)%Z /\ e = ValueError) \/ (2%Z = 0%Z /\ e = IndexError)
  end.
Proof.
  apply (@add_particles_law j0 demo3 2).
  - reach_demo3.
  - vm_compute. discriminate.
Defined.


End SimFacts.

(** ** The simulation worker *)

Module WorkerFacts.

Section Facts.

Variable junk : nat -> Sim.Particle.

Lemma step_time (sim sim' : Sim.ParticleSimulation) :
  Sim.step junk sim = Ok sim' ->
  Sim._time sim' = (Sim._time sim + Sim._time_step sim)%Q
  /\ Sim._time_step sim' = Sim._time_step sim.
Proof.
  unfold Sim.step.
  destruct (Sim.run_callback junk (Sim._presolve_callback sim) _ _ _)
    as [s1 |]; [| discriminate].
  cbn [bind].
  destruct (Sim.run_callback junk (Sim._postsolve_callback sim) _ _ _)
    as [s3 |]; [| discriminate].
  cbn [bind]. intros H. injection H as <-. split; reflexivity.
Qed.

Lemma drain_fields (inbound : list Worker.message) (w : Worker.locals) :
  Worker.sim (Worker.drain inbound w) = Worker.sim w
  /\ Worker.step (Worker.drain inbound w) = Worker.step w
  /\ Worker.send (Worker.drain inbound w)
     = Worker.send w || existsb Worker.is_request inbound.
Proof.
  unfold Worker.drain. revert w.
  induction inbound as [| m inbound IH]; intros w; cbn [fold_left existsb].
  - now rewrite orb_false_r.
  - destruct (IH (match m with
                  | Worker.MESSAGE_REQUEST_SIM_UPDATE =>
                      {| Worker.sim := Worker.sim w;
                         Worker.callbacks := Worker.callbacks w;
                         Worker.step := Worker.step w;
                         Worker.send := true |}
                  | Worker.MESSAGE_RUN_CALLBACKS cbs =>
                      {| Worker.sim := Worker.sim w;
                         Worker.callbacks := Some cbs;
                         Worker.step := Worker.step w;
                         Worker.send := Worker.send w |}
                  | _ => w
                  end)) as (H1 & H2 & H3).
    rewrite H1, H2, H3.
    destruct m; cbn [Worker.sim Worker.step Worker.send Worker.is_request];
      repeat split; try reflexivity;
      now rewrite ?orb_true_r, ?orb_false_l, ?orb_true_l.
Qed.

Lemma step_block_fields (w w' : Worker.locals) :
  Worker.step_block junk w = Ok w' ->
  Worker.send w' = Worker.send w
  /\ Worker.step w' = false
  /\ Sim._time_step (Worker.sim w') = Sim._time_step (Worker.sim w)
  /\ (if Worker.step w
      then Sim._time (Worker.sim w')
           = (Sim._time (Worker.sim w) + Sim._time_step (Worker.sim w))%Q
      else Worker.sim w' = Worker.sim w).
Proof.
  unfold Worker.step_block.
  destruct (Worker.step w) eqn:Hstep.
  - destruct (match Worker.callbacks w with
              | Some cbs =>
                  st <- Sim.consolidate junk
                          (Worker._run_callbacks (Worker.sim w) cbs) ;;
                  Ok (Worker.with_state (Worker.sim w) st)
              | None => Ok (Worker.sim w)
              end) as [s1 |] eqn:H1; [| discriminate].
    cbn [bind].
    assert (Hs1 : Sim._time s1 = Sim._time (Worker.sim w)
                  /\ Sim._time_step s1 = Sim._time_step (Worker.sim w)).
    { destruct (Worker.callbacks w) as [cbs |].
      - destruct (Sim.consolidate junk _) as [st |]; [| discriminate].
        cbn [bind] in H1. injection H1 as <-. split; reflexivity.
      - injection H1 as <-. split; reflexivity. }
    destruct (Sim.step junk s1) as [s2 |] eqn:H2; [| discriminate].
    cbn [bind]. intros H. injection H as <-.
    destruct (step_time _ H2) as [Ht Hdt]. destruct Hs1 as [E1 E2].
    cbn [Worker.send Worker.step Worker.sim].
    rewrite Ht, Hdt, E1, E2. auto.
  - intros H. injection H as <-. rewrite Hstep. auto.
Qed.

Lemma update_times_app (a b : list Worker.sent) :
  Worker.update_times (a ++ b)
  = Worker.update_times a ++ Worker.update_times b.
Proof.
  induction a as [| x a IH]; [reflexivity |].
  cbn [app Worker.update_times].
  destruct x as [[| | | | t |] |]; cbn; now rewrite ?IH.
Qed.

Lemma requests_cons (control : option Worker.message)
  (inbound : list Worker.message)
  (rounds : list (option Worker.message * list Worker.message)) :
  Worker.requests ((control, inbound) :: rounds)
  = length (filter Worker.is_request inbound) + Worker.requests rounds.
Proof.
  unfold Worker.requests. cbn [map snd concat].
  now rewrite filter_app, length_app.
Qed.

Lemma existsb_filter (inbound : list Worker.message) :
  existsb Worker.is_request inbound = true ->
  1 <= length (filter Worker.is_request inbound).
Proof.
  induction inbound as [| m l IH]; cbn; [discriminate |].
  destruct (Worker.is_request m); cbn; [lia | exact IH].
Qed.

(** At most one update leaves per request received, counting a request
    already pending. *)
Lemma updates_bounded
  (rounds : list (option Worker.message * list Worker.message))
  (w : Worker.locals) :
  length (Worker.update_times (Worker.run junk rounds w))
  <= Worker.requests rounds + (if Worker.send w then 1 else 0).
Proof.
  revert w. induction rounds as [| [control inbound] rounds IH]; intros w.
  - cbn. lia.
  - rewrite requests_cons. cbn [Worker.run].
    unfold Worker.iteration.
    assert (Hbody :
      length (Worker.update_times
                match (w1 <- Worker.step_block junk
                               (Worker.drain inbound w) ;;
                       Ok (Worker.send_block w1)) with
                | Ok (w', out) => out ++ Worker.run junk rounds w'
                | Raise _ => []
                end)
      <= length (filter Worker.is_request inbound) + Worker.requests rounds
         + (if Worker.send w then 1 else 0)).
    { destruct (Worker.step_block junk (Worker.drain inbound w))
        as [w1 |] eqn:H1; cbn [bind]; [| cbn; lia].
      destruct (step_block_fields _ H1) as (Hsend & _).
      destruct (drain_fields inbound w) as (_ & _ & Hd).
      rewrite Hd in Hsend.
      unfold Worker.send_block.
      destruct (Worker.send w1) eqn:Hs1.
      - rewrite update_times_app, length_app. cbn [Worker.update_times length].
        specialize (IH {| Worker.sim := Worker.sim w1;
                          Worker.callbacks := Worker.callbacks w1;
                          Worker.step := true;
                          Worker.send := false |}).
        cbn [Worker.send] in IH.
        destruct (Worker.send w); [lia |].
        cbn [orb] in Hsend. symmetry in Hsend.
        apply existsb_filter in Hsend. lia.
      - cbn [app]. specialize (IH w1). rewrite Hs1 in IH. lia. }
    destruct control as [[| | | | t | cbs] |]; try exact Hbody.
    cbn. lia.
Qed.

(** Every update carries a time beyond the last one sent: a step is run
    between two sends. *)
Lemma updates_increasing
  (rounds : list (option Worker.message * list Worker.message))
  (w : Worker.locals) (last : Q) :
  (0 < Sim._time_step (Worker.sim w))%Q ->
  (if Worker.step w
   then (last <= Sim._time (Worker.sim w))%Q
   else (last < Sim._time (Worker.sim w))%Q) ->
  StronglySorted Qlt (Worker.update_times (Worker.run junk rounds w))
  /\ Forall (fun t => (last < t)%Q)
       (Worker.update_times (Worker.run junk rounds w)).
Proof.
  revert w last.
  induction rounds as [| [control inbound] rounds IH]; intros w last Hdt Hlast.
  - cbn. split; constructor.
  - cbn [Worker.run]. unfold Worker.iteration.
    assert (Hbody :
      let out :=
        Worker.update_times
          match (w1 <- Worker.step_block junk (Worker.drain inbound w) ;;
                 Ok (Worker.send_block w1)) with
          | Ok (w', out) => out ++ Worker.run junk rounds w'
          | Raise _ => []
          end in
      StronglySorted Qlt out /\ Forall (fun t => (last < t)%Q) out).
    { destruct (Worker.step_block junk (Worker.drain inbound w))
        as [w1 |] eqn:H1; cbn [bind]; [| cbn; split; constructor].
      destruct (step_block_fields _ H1) as (_ & Hstep1 & Hdt1 & Ht1).
      destruct (drain_fields inbound w) as (Hdsim & Hdstep & _).
      rewrite Hdsim in Hdt1. rewrite Hdstep, Hdsim in Ht1.
      assert (Hnow : (last < Sim._time (Worker.sim w1))%Q).
      { destruct (Worker.step w).
        - rewrite Ht1. lra.
        - rewrite Ht1. exact Hlast. }
      unfold Worker.send_block.
      destruct (Worker.send w1) eqn:Hs1.
      - cbn zeta. rewrite update_times_app.
        cbn [Worker.update_times app].
        destruct (IH {| Worker.sim := Worker.sim w1;
                        Worker.callbacks := Worker.callbacks w1;
                        Worker.step := true;
                        Worker.send := false |}
                    (Sim._time (Worker.sim w1)))
          as [Hsorted Hall].
        + cbn [Worker.sim]. rewrite Hdt1. exact Hdt.
        + cbn [Worker.step Worker.sim]. lra.
        + split.
          * constructor; assumption.
          * constructor; [exact Hnow |].
            eapply Forall_impl; [| exact Hall]. cbn. intros t Ht. lra.
      - cbn zeta. cbn [app].
        apply IH.
        + rewrite Hdt1. exact Hdt.
        + rewrite Hstep1. exact Hnow. }
    destruct control as [[| | | | t | cbs] |]; try exact Hbody.
    cbn. split; constructor.
Qed.

(** With a time step that is not positive no update carries a time
    beyond the one before. *)
Lemma updates_not_increasing
  (rounds : list (option Worker.message * list Worker.message))
  (w : Worker.locals) (last : Q) :
  (Sim._time_step (Worker.sim w) <= 0)%Q ->
  (if Worker.step w
   then (Sim._time (Worker.sim w) + Sim._time_step (Worker.sim w) <= last)%Q
   else (Sim._time (Worker.sim w) <= last)%Q) ->
  StronglySorted (fun t t' => (t' <= t)%Q)
    (Worker.update_times (Worker.run junk rounds w))
  /\ Forall (fun t => (t <= last)%Q)
       (Worker.update_times (Worker.run junk rounds w)).
Proof.
  revert w last.
  induction rounds as [| [control inbound] rounds IH]; intros w last Hdt Hlast.
  - cbn. split; constructor.
  - cbn [Worker.run]. unfold Worker.iteration.
    assert (Hbody :
      let out :=
        Worker.update_times
          match (w1 <- Worker.step_block junk (Worker.drain inbound w) ;;
                 Ok (Worker.send_block w1)) with
          | Ok (w', out) => out ++ Worker.run junk rounds w'
          | Raise _ => []
          end in
      StronglySorted (fun t t' => (t' <= t)%Q) out
      /\ Forall (fun t => (t <= last)%Q) out).
    { destruct (Worker.step_block junk (Worker.drain inbound w))
        as [w1 |] eqn:H1; cbn [bind]; [| cbn; split; constructor].
      destruct (step_block_fields _ H1) as (_ & Hstep1 & Hdt1 & Ht1).
      destruct (drain_fields inbound w) as (Hdsim & Hdstep & _).
      rewrite Hdsim in Hdt1. rewrite Hdstep, Hdsim in Ht1.
      assert (Hnow : (Sim._time (Worker.sim w1) <= last)%Q).
      { destruct (Worker.step w); rewrite Ht1; exact Hlast. }
      unfold Worker.send_block.
      destruct (Worker.send w1) eqn:Hs1.
      - cbn zeta. rewrite update_times_app.
        cbn [Worker.update_times app].
        destruct (IH {| Worker.sim := Worker.sim w1;
                        Worker.callbacks := Worker.callbacks w1;
                        Worker.step := true;
                        Worker.send := false |}
                    (Sim._time (Worker.sim w1)))
          as [Hsorted Hall].
        + cbn [Worker.sim]. rewrite Hdt1. exact Hdt.
        + cbn [Worker.step Worker.sim]. rewrite Hdt1. lra.
        + split.
          * constructor; assumption.
          * constructor; [exact Hnow |].
            eapply Forall_impl; [| exact Hall]. cbn. intros t Ht. lra.
      - cbn zeta. cbn [app].
        apply IH.
        + rewrite Hdt1. exact Hdt.
        + rewrite Hstep1. exact Hnow. }
    destruct control as [[| | | | t | cbs] |]; try exact Hbody.
    cbn. split; constructor.
Qed.

(** C9 (as the code has it). In every run of the worker loop, over any
    sequence of rounds of incoming messages, at most one [Update] is sent
    per [RequestUpdate] received. The times carried by successive
    [Update] messages increase strictly (each is also later than the time
    at the start) when the time step is positive; when it is not, which
    the construction of a simulation allows, no [Update] carries a time
    beyond the one before. *)
Theorem worker_flow_control
  (rounds : list (option Worker.message * list Worker.message))
  (sim : Sim.ParticleSimulation) :
  length (Worker.update_times (Worker.run junk rounds (Worker.start sim)))
  <= Worker.requests rounds
  /\ ((0 < Sim._time_step sim)%Q ->
      StronglySorted Qlt
        (Worker.update_times (Worker.run junk rounds (Worker.start sim)))
      /\ Forall (fun t => (Sim._time sim < t)%Q)
           (Worker.update_times
              (Worker.run junk rounds (Worker.start sim))))
  /\ ((Sim._time_step sim <= 0)%Q ->
      StronglySorted (fun t t' => (t' <= t)%Q)
        (Worker.update_times (Worker.run junk rounds (Worker.start sim)))).
Proof.
  split; [| split].
  - pose proof (updates_bounded rounds (Worker.start sim)) as H.
    cbn [Worker.start Worker.send] in H. lia.
  - intros Hdt. apply updates_increasing.
    + exact Hdt.
    + cbn. lra.
  - intros Hdt.
    apply (@updates_not_increasing rounds (Worker.start sim)
             (Sim._time sim + Sim._time_step sim)%Q).
    + exact Hdt.
    + cbn. lra.
Qed.

(** *** One step per update *)

(** The times [t], [t + dt], [t + dt + dt], ... *)
Fixpoint frames (n : nat) (t dt : Q) : list Q :=
  match n with
  | O => []
  | S n' => t :: frames n' (t + dt)%Q dt
  end.

(** The time that the next update will carry. *)
Definition next_time (w : Worker.locals) : Q :=
  if Worker.step w
  then (Sim._time (Worker.sim w) + Sim._time_step (Worker.sim w))%Q
  else Sim._time (Worker.sim w).

Definition update_of (p : Q * list Sim.Particle) : list Worker.sent :=
  [Worker.SentMessage (Worker.MESSAGE_SIM_UPDATE (fst p));
   Worker.SentBuffer (snd p)].

Lemma update_times_updates (pairs : list (Q * list Sim.Particle)) :
  Worker.update_times (flat_map update_of pairs) = map fst pairs.
Proof.
  induction pairs as [| p pairs IH]; [reflexivity |].
  cbn [flat_map update_of app Worker.update_times map]. now rewrite IH.
Qed.

Lemma frames_length (n : nat) (t dt : Q) : length (frames n t dt) = n.
Proof.
  revert t. induction n as [| n IH]; intros t; cbn; [reflexivity |].
  now rewrite IH.
Qed.

Lemma run_frames
  (rounds : list (option Worker.message * list Worker.message))
  (w : Worker.locals) :
  exists pairs,
    Worker.run junk rounds w = flat_map update_of pairs
    /\ map fst pairs
       = frames (length pairs) (next_time w)
           (Sim._time_step (Worker.sim w)).
Proof.
  revert w. induction rounds as [| [control inbound] rounds IH]; intros w.
  { exists []. split; reflexivity. }
  cbn [Worker.run]. unfold Worker.iteration.
  assert (Hbody :
    exists pairs,
      match (w1 <- Worker.step_block junk (Worker.drain inbound w) ;;
             Ok (Worker.send_block w1)) with
      | Ok (w', out) => out ++ Worker.run junk rounds w'
      | Raise _ => []
      end = flat_map update_of pairs
      /\ map fst pairs
         = frames (length pairs) (next_time w)
             (Sim._time_step (Worker.sim w))).
  { destruct (Worker.step_block junk (Worker.drain inbound w))
      as [w1 |] eqn:H1; cbn [bind];
      [| exists []; split; reflexivity].
    destruct (step_block_fields _ H1) as (_ & Hstep1 & Hdt1 & Ht1).
    destruct (drain_fields inbound w) as (Hdsim & Hdstep & _).
    rewrite Hdsim in Hdt1. rewrite Hdstep, Hdsim in Ht1.
    assert (Hnow : Sim._time (Worker.sim w1) = next_time w).
    { unfold next_time. destruct (Worker.step w); [exact Ht1 |].
      now rewrite Ht1. }
    unfold Worker.send_block.
    destruct (Worker.send w1) eqn:Hs1.
    - destruct (IH {| Worker.sim := Worker.sim w1;
                      Worker.callbacks := Worker.callbacks w1;
                      Worker.step := true;
                      Worker.send := false |}) as (pairs & Hrun & Htimes).
      exists ((Sim._time (Worker.sim w1),
               Sim.particles (Sim.state (Worker.sim w1))) :: pairs).
      split.
      + cbn [flat_map update_of fst snd app]. now rewrite Hrun.
      + cbn [map fst length frames]. rewrite Htimes.
        unfold next_time at 1. cbn [Worker.step Worker.sim].
        now rewrite Hnow, Hdt1.
    - destruct (IH w1) as (pairs & Hrun & Htimes).
      exists pairs. split; [exact Hrun |].
      rewrite Htimes. unfold next_time at 1.
      now rewrite Hstep1, Hnow, Hdt1. }
  destruct control as [[| | | | t | cbs] |]; try exact Hbody.
  exists []. split; reflexivity.
Qed.

(** X14. The worker steps the simulation exactly once per update it
    sends: in every run of the loop, what is written to the GUI is a
    sequence of [Update] messages, each followed at once by the buffer of
    the particles, and the k-th of them carries the time of the start
    plus k time steps (k = 1, 2, ...): no simulated frame is skipped and
    none is sent twice. *)
Theorem one_step_per_update
  (rounds : list (option Worker.message * list Worker.message))
  (sim : Sim.ParticleSimulation) :
  exists pairs,
    Worker.run junk rounds (Worker.start sim) = flat_map update_of pairs
    /\ Worker.update_times (Worker.run junk rounds (Worker.start sim))
       = frames (length pairs) (Sim._time sim + Sim._time_step sim)%Q
           (Sim._time_step sim).
Proof.
  destruct (run_frames rounds (Worker.start sim)) as (pairs & Hrun & Ht).
  exists pairs. split; [exact Hrun |].
  rewrite Hrun, update_times_updates. exact Ht.
Qed.

(** *** Callbacks that are never run *)

Definition is_run_callbacks (m : Worker.message) : bool :=
  match m with
  | Worker.MESSAGE_RUN_CALLBACKS _ => true
  | _ => false
  end.

(** The callbacks left by a drain: those of the last [RUN_CALLBACKS]
    message, when there is one. *)
Definition last_callbacks (inbound : list Worker.message)
  (init : option (list Sim.callback)) : option (list Sim.callback) :=
  fold_left (fun acc m =>
               match m with
               | Worker.MESSAGE_RUN_CALLBACKS cbs => Some cbs
               | _ => acc
               end) inbound init.

Lemma drain_eq (inbound : list Worker.message) :
  forall s c st sd,
    Worker.drain inbound (Worker.mkLocals s c st sd)
    = Worker.mkLocals s (last_callbacks inbound c) st
        (sd || existsb Worker.is_request inbound).
Proof.
  unfold Worker.drain, last_callbacks.
  induction inbound as [| m inbound IH]; intros s c st sd;
    cbn [fold_left existsb].
  - now rewrite orb_false_r.
  - destruct m;
      cbn [Worker.sim Worker.callbacks Worker.step Worker.send
           Worker.is_request];
      rewrite IH; f_equal;
      now rewrite ?orb_false_l, ?orb_true_l, ?orb_true_r.
Qed.

Lemma last_callbacks_app (a b : list Worker.message)
  (init : option (list Sim.callback)) :
  last_callbacks (a ++ b) init = last_callbacks b (last_callbacks a init).
Proof. unfold last_callbacks. apply fold_left_app. Qed.

Lemma requests_without_callbacks (inbound : list Worker.message) :
  existsb Worker.is_request
    (filter (fun m => negb (is_run_callbacks m)) inbound)
  = existsb Worker.is_request inbound.
Proof.
  induction inbound as [| m inbound IH]; [reflexivity |].
  destruct m; cbn [filter is_run_callbacks negb existsb Worker.is_request];
    now rewrite IH.
Qed.

(** X15. Callbacks can be lost: when several [RUN_CALLBACKS] messages are
    waiting in the same drain of the inbound channel, only the callbacks
    of the last one are kept. Removing every such message that another
    one follows changes nothing of what the worker does then or later. *)
Theorem earlier_callbacks_dropped
  (control : option Worker.message)
  (before after : list Worker.message) (cbs : list Sim.callback)
  (rounds : list (option Worker.message * list Worker.message))
  (w : Worker.locals) :
  Worker.run junk
    ((control, before ++ Worker.MESSAGE_RUN_CALLBACKS cbs :: after) :: rounds)
    w
  = Worker.run junk
      ((control,
        filter (fun m => negb (is_run_callbacks m)) before
        ++ Worker.MESSAGE_RUN_CALLBACKS cbs :: after) :: rounds) w.
Proof.
  cbn [Worker.run]. unfold Worker.iteration.
  assert (Hd : Worker.drain
                 (before ++ Worker.MESSAGE_RUN_CALLBACKS cbs :: after) w
               = Worker.drain
                   (filter (fun m => negb (is_run_callbacks m)) before
                    ++ Worker.MESSAGE_RUN_CALLBACKS cbs :: after) w).
  { destruct w as [s c st sd]. rewrite !drain_eq. f_equal.
    - rewrite !last_callbacks_app. reflexivity.
    - rewrite !existsb_app, requests_without_callbacks. reflexivity. }
  now rewrite Hd.
Qed.

End Facts.

(** A run of four rounds on the engine of the scenario, with a time step
    of one half: a request, nothing, two requests at once, a stop. *)
Definition demo_worker_sim : Sim.ParticleSimulation :=
  {| Sim._time_step := (1 # 2)%Q;
     Sim._time := 0%Q;
     Sim._presolve_callback := None;
     Sim._postsolve_callback := None;
     Sim.state := SimFacts.demo5 |}.

Definition demo_rounds : list (option Worker.message * list Worker.message) :=
  [(None, [Worker.MESSAGE_REQUEST_SIM_UPDATE]);
   (None, []);
   (None, [Worker.MESSAGE_REQUEST_SIM_UPDATE;
           Worker.MESSAGE_REQUEST_SIM_UPDATE]);
   (Some Worker.MESSAGE_STOP, [Worker.MESSAGE_REQUEST_SIM_UPDATE])].

(** Two updates leave for four requests, the second one step later. *)
Example demo_worker_trace :
  Worker.update_times
    (Worker.run SimFacts.j0 demo_rounds (Worker.start demo_worker_sim))
  = [(0 + (1 # 2))%Q; (0 + (1 # 2) + (1 # 2))%Q].
Proof. reflexivity. Qed.

Lemma worker_flow_control_witness :
  length (Worker.update_times
            (Worker.run SimFacts.j0 demo_rounds
               (Worker.start demo_worker_sim)))
  <= Worker.requests demo_rounds
  /\ ((0 < Sim._time_step demo_worker_sim)%Q ->
      StronglySorted Qlt
        (Worker.update_times
           (Worker.run SimFacts.j0 demo_rounds
              (Worker.start demo_worker_sim)))
      /\ Forall (fun t => (Sim._time demo_worker_sim < t)%Q)
           (Worker.update_times
              (Worker.run SimFacts.j0 demo_rounds
                 (Worker.start demo_worker_sim))))
  /\ ((Sim._time_step demo_worker_sim <= 0)%Q ->
      StronglySorted (fun t t' => (t' <= t)%Q)
        (Worker.update_times
           (Worker.run SimFacts.j0 demo_rounds
              (Worker.start demo_worker_sim)))).
Proof.
  apply (@worker_flow_control SimFacts.j0 demo_rounds demo_worker_sim).
Defined.

(** A simulation constructed with a time step of zero: the two updates
    of the run above carry the same time. *)
Definition still_sim : Sim.ParticleSimulation :=
  Eval vm_compute in
    match Sim.init SimFacts.j0 0 4 2 None None None with
    | Ok sim => sim
    | Raise _ => demo_worker_sim
    end.

Lemma zero_time_step_repeats_time :
  Sim.init SimFacts.j0 0 4 2 None None None = Ok still_sim
  /\ Worker.update_times
       (Worker.run SimFacts.j0 demo_rounds (Worker.start still_sim))
     = [(0 + 0)%Q; (0 + 0 + 0)%Q]
  /\ ~ StronglySorted Qlt
         (Worker.update_times
            (Worker.run SimFacts.j0 demo_rounds (Worker.start still_sim))).
Proof.
  split; [reflexivity |]. split; [reflexivity |].
  intros H.
  change (StronglySorted Qlt [(0 + 0)%Q; (0 + 0 + 0)%Q]) in H.
  inversion H as [| t l _ Hall]; subst.
  inversion Hall as [| t' l' Hlt _]; subst.
  revert Hlt. unfold Qlt. cbn. lia.
Qed.

End WorkerFacts.

(** ** The GUI process *)

Module GuiFacts.

Section Facts.

Variable Row : Type.
Variable cfg : Gui.config.

Definition requests (out : list (Gui.event Row)) : nat :=
  length (filter (@Gui.is_request Row) out).

(** The partial state has its particles exactly while a next state is
    waiting to be shown, and a request is then due. *)
Definition coherent (w : Gui.locals Row) : Prop :=
  match Gui.partial_particles w, Gui.next_state w with
  | None, None => True
  | Some _, Some _ => Gui.request_sim_updates w = true
  | _, _ => False
  end.

(** The requests that can still be sent without reading a new update. *)
Definition credit (w : Gui.locals Row) : nat :=
  (if Gui.request_sim_updates w then 1 else 0) + length (Gui.from_psim w).

Ltac split_match :=
  match goal with
  | |- context [match ?x with _ => _ end] => destruct x eqn:?
  | H : context [match ?x with _ => _ end] |- _ => destruct x eqn:?
  end.

Lemma render_block_requests (current : Gui.SceneState Row) (frame : Z)
  (render : bool) :
  requests (snd (fst (Gui.render_block cfg current frame render))) = 0.
Proof. unfold Gui.render_block. repeat split_match; reflexivity. Qed.

Lemma requests_app (a b : list (Gui.event Row)) :
  requests (a ++ b) = requests a + requests b.
Proof. unfold requests. now rewrite filter_app, length_app. Qed.

Lemma receive_credit (w : Gui.locals Row) (arrived : list (Q * list Row)) :
  coherent w ->
  match Gui.receive cfg w (Gui.from_psim w ++ arrived) with
  | (failed, requested, request1, partial1, pipe1) =>
      requests requested
      + (if match partial1 with Some _ => true | None => request1 end
         then 1 else 0)
      + length pipe1
      <= credit w + length arrived
      /\ match partial1 with
         | Some _ => True
         | None => Gui.next_state w = None \/ failed <> None
         end
  end.
Proof.
  unfold coherent, credit, Gui.receive. intros Hc.
  destruct (Gui.partial_particles w) as [rows |] eqn:Hp;
    destruct (Gui.next_state w) as [next |] eqn:Hn; try contradiction.
  - rewrite Hc, length_app. cbn. split; [lia | exact I].
  - destruct (Gui.from_psim w ++ arrived) as [| [t rows] pipe'] eqn:Hpipe.
    + apply (f_equal (@length _)) in Hpipe. rewrite length_app in Hpipe.
      destruct (Gui.request_sim_updates w); cbn in *;
        (split; [lia | auto]).
    + apply (f_equal (@length _)) in Hpipe. rewrite length_app in Hpipe.
      cbn [length] in Hpipe.
      destruct (KD.Qlt_bool _ _);
        destruct (Gui.request_sim_updates w); cbn in *;
        (split; [lia | auto]).
Qed.

Lemma requests_event (ev : Gui.event Row) (l : list (Gui.event Row)) :
  requests (ev :: l) = (if Gui.is_request ev then 1 else 0) + requests l.
Proof. unfold requests. cbn [filter]. now destruct (Gui.is_request ev). Qed.

Ltac render_requests :=
  repeat match goal with
         | H : Gui.render_block cfg ?c ?f ?r = (_, ?rendered, _) |- _ =>
             lazymatch goal with
             | _ : requests rendered = 0 |- _ => fail
             | _ =>
                 let X := fresh "Hrendered" in
                 pose proof (render_block_requests c f r) as X;
                 rewrite H in X; cbn [fst snd] in X
             end
         end.

Ltac count_requests :=
  unfold coherent, credit in *;
  cbn [Gui.request_sim_updates Gui.from_psim Gui.partial_particles
       Gui.next_state app] in *;
  repeat (rewrite requests_app || rewrite requests_event);
  cbn [Gui.is_request];
  change (requests (@nil (Gui.event Row))) with 0;
  try split; auto; try lia.

Lemma iteration_credit (inp : Gui.input Row) (w : Gui.locals Row) :
  coherent w ->
  match Gui.iteration cfg inp w with
  | (Gui.Continue w', out) =>
      coherent w'
      /\ requests out + credit w' <= credit w + length (Gui.arrivals inp)
  | (_, out) => requests out <= credit w + length (Gui.arrivals inp)
  end.
Proof.
  intros Hc. pose proof (@receive_credit w (Gui.arrivals inp) Hc) as Hr.
  unfold Gui.iteration.
  destruct (Gui.receive cfg w (Gui.from_psim w ++ Gui.arrivals inp))
    as [[[[failed requested] request1] partial1] pipe1].
  destruct Hr as [Hr1 Hr2].
  destruct (Gui.callbacks inp) as [| cb cbs'];
    (destruct (Gui.control inp) as [[| | | | t | cbs] |];
     try (cbn; lia);
     (destruct (Gui.quit inp); [cbn; lia |]);
     (destruct failed as [e |];
      [destruct partial1; count_requests |]);
     destruct partial1 as [rows |];
     repeat split_match; render_requests;
     try (destruct Hr2 as [Hr2 | Hr2]; [| congruence]);
     try congruence;
     repeat match goal with
            | H : (_, _) = (_, _) |- _ => injection H as ? ?
            end;
     subst; count_requests).
Qed.

Lemma run_credit (inputs : list (Gui.input Row)) (w : Gui.locals Row) :
  coherent w ->
  requests (fst (Gui.run cfg inputs w))
  <= credit w + length (concat (map (@Gui.arrivals Row) inputs)).
Proof.
  revert w. induction inputs as [| inp inputs IH]; intros w Hc.
  - cbn. lia.
  - cbn [Gui.run map concat]. rewrite length_app.
    pose proof (@iteration_credit inp w Hc) as Hi.
    destruct (Gui.iteration cfg inp w) as [[w' | | e] out];
      cbn [fst]; try lia.
    destruct Hi as [Hc' Hi]. specialize (IH w' Hc').
    destruct (Gui.run cfg inputs w') as [out' e']. cbn [fst] in *.
    rewrite requests_app. lia.
Qed.

(** X16. The GUI never has more than one request outstanding: in every
    run of the GUI loop, the number of [RequestUpdate] messages written
    to the worker is at most one more than the number of updates that
    have arrived from it. *)
Theorem gui_requests_bounded (initial : list Row)
  (inputs : list (Gui.input Row)) :
  requests (fst (Gui.run cfg inputs (Gui.start cfg initial)))
  <= 1 + length (concat (map (@Gui.arrivals Row) inputs)).
Proof.
  apply (@run_credit inputs (Gui.start cfg initial)). exact I.
Qed.

(** *** The assertion on the time of an update *)

(** The time that the partial state will have when the next update is
    read. *)
Definition expected (w : Gui.locals Row) : Q :=
  match Gui.partial_particles w with
  | None => Gui.partial_time w
  | Some _ => (Gui.partial_time w + Gui.time_step cfg)%Q
  end.

(** The updates still to be read are one time step apart, the first at
    the expected time. *)
Definition in_step (stream : list (Q * list Row)) (e : Q) : Prop :=
  exists t,
    (t == e)%Q
    /\ map fst stream
       = WorkerFacts.frames (length stream) t (Gui.time_step cfg).

Lemma close_enough (t e : Q) :
  (0 < Gui.time_step cfg)%Q -> (t == e)%Q ->
  KD.Qlt_bool (Qabs (t - e)) (Gui.time_step cfg * (1 # 10)) = true.
Proof.
  intros Hdt He.
  assert (Hlt : (Qabs (t - e) < Gui.time_step cfg * (1 # 10))%Q)
    by (apply Qabs_Qlt_condition; split; lra).
  unfold KD.Qlt_bool.
  destruct (Qle_bool (Gui.time_step cfg * (1 # 10)) (Qabs (t - e))) eqn:Hle;
    [| reflexivity].
  apply Qle_bool_iff in Hle. lra.
Qed.

Lemma receive_in_step (w : Gui.locals Row) (stream : list (Q * list Row)) :
  (0 < Gui.time_step cfg)%Q ->
  coherent w ->
  in_step (stream) (expected w) ->
  forall pipe rest, stream = pipe ++ rest ->
  match Gui.receive cfg w pipe with
  | (failed, _, _, partial1, pipe1) =>
      failed = None
      /\ in_step (pipe1 ++ rest)
           match partial1 with
           | None => Gui.partial_time w
           | Some _ => (Gui.partial_time w + Gui.time_step cfg)%Q
           end
      /\ (partial1 = None -> Gui.next_state w = None)
  end.
Proof.
  intros Hdt Hc (t & Ht & Hs) pipe rest ->.
  unfold coherent, expected, Gui.receive in *.
  destruct (Gui.partial_particles w) as [rows |] eqn:Hp;
    destruct (Gui.next_state w) as [next |] eqn:Hn; try contradiction.
  - split; [reflexivity |]. split; [now exists t | discriminate].
  - destruct pipe as [| [t1 rows1] pipe'].
    + split; [reflexivity |]. split; [now exists t | reflexivity].
    + cbn [app length map fst WorkerFacts.frames] in Hs.
      injection Hs as Ht1 Hs. subst t1.
      rewrite (close_enough Hdt Ht).
      split; [reflexivity |]. split; [| reflexivity].
      exists (t + Gui.time_step cfg)%Q. split; [lra | exact Hs].
Qed.

Lemma iteration_in_step (inp : Gui.input Row) (w : Gui.locals Row)
  (rest : list (Q * list Row)) :
  (0 < Gui.time_step cfg)%Q ->
  coherent w ->
  in_step (Gui.from_psim w ++ Gui.arrivals inp ++ rest) (expected w) ->
  match Gui.iteration cfg inp w with
  | (Gui.Continue w', _) => in_step (Gui.from_psim w' ++ rest) (expected w')
  | (Gui.Fail _ e, _) => e <> Gui.AssertionError
  | (Gui.Break _, _) => True
  end.
Proof.
  intros Hdt Hc Hs.
  pose proof (@receive_in_step w _ Hdt Hc Hs
                (Gui.from_psim w ++ Gui.arrivals inp) rest
                ltac:(now rewrite app_assoc)) as Hr.
  unfold Gui.iteration.
  destruct (Gui.receive cfg w (Gui.from_psim w ++ Gui.arrivals inp))
    as [[[[failed requested] request1] partial1] pipe1].
  destruct Hr as (-> & Hr & Hnone).
  destruct (Gui.control inp) as [[| | | | t | cbs] |]; try exact I;
    (destruct (Gui.quit inp); [exact I |]);
    unfold Gui.render_block;
    (destruct partial1 as [rows |];
     [| specialize (Hnone eq_refl); rewrite Hnone]);
    repeat split_match;
    repeat match goal with
           | H : (_, _) = (_, _) |- _ => injection H as ? ?
           end;
    subst; try discriminate; try exact I;
    unfold expected; cbn [Gui.partial_particles Gui.partial_time
                            Gui.from_psim Gui.time];
    exact Hr.
Qed.

Lemma run_in_step (inputs : list (Gui.input Row)) (w : Gui.locals Row) :
  (0 < Gui.time_step cfg)%Q ->
  coherent w ->
  in_step (Gui.from_psim w ++ concat (map (@Gui.arrivals Row) inputs))
    (expected w) ->
  snd (Gui.run cfg inputs w) <> Some Gui.AssertionError.
Proof.
  intros Hdt. revert w.
  induction inputs as [| inp inputs IH]; intros w Hc Hs; [discriminate |].
  cbn [Gui.run map concat] in *.
  pose proof (@iteration_credit inp w Hc) as Hcr.
  pose proof (@iteration_in_step inp w _ Hdt Hc Hs) as Hi.
  destruct (Gui.iteration cfg inp w) as [[w' | | e] out]; cbn [snd].
  - destruct Hcr as [Hc' _]. specialize (IH w' Hc' Hi).
    now destruct (Gui.run cfg inputs w') as [out' e'].
  - discriminate.
  - congruence.
Qed.

(** X17. Fed by the worker, the GUI never fails its assertion: when the
    time step is positive and the updates that arrive carry the times
    that the worker sends (the start time 0 plus one, two, ... time
    steps, in order), no run of the GUI loop ends on the assertion that
    compares the time of an update with the time expected. *)
Theorem gui_assertion_holds (initial : list Row)
  (inputs : list (Gui.input Row)) :
  (0 < Gui.time_step cfg)%Q ->
  map fst (concat (map (@Gui.arrivals Row) inputs))
  = WorkerFacts.frames (length (concat (map (@Gui.arrivals Row) inputs)))
      (0 + Gui.time_step cfg)%Q (Gui.time_step cfg) ->
  snd (Gui.run cfg inputs (Gui.start cfg initial))
  <> Some Gui.AssertionError.
Proof.
  intros Hdt Hframes. apply run_in_step; [exact Hdt | exact I |].
  unfold expected, Gui.start.
  cbn [Gui.from_psim Gui.partial_particles Gui.partial_time app].
  exists (0 + Gui.time_step cfg)%Q. split; [lra | exact Hframes].
Qed.

Lemma too_far (t e : Q) :
  (Gui.time_step cfg <= 0)%Q ->
  KD.Qlt_bool (Qabs (t - e)) (Gui.time_step cfg * (1 # 10)) = false.
Proof.
  intros Hdt. pose proof (Qabs_nonneg (t - e)) as Habs.
  unfold KD.Qlt_bool.
  destruct (Qle_bool (Gui.time_step cfg * (1 # 10)) (Qabs (t - e))) eqn:Hle;
    [reflexivity |].
  assert (H : (Gui.time_step cfg * (1 # 10) <= Qabs (t - e))%Q) by lra.
  apply Qle_bool_iff in H. congruence.
Qed.

(** A state in which nothing has been read and nothing is waiting. *)
Definition unread (w : Gui.locals Row) : Prop :=
  Gui.partial_particles w = None /\ Gui.next_state w = None
  /\ Gui.from_psim w = [].

Lemma run_too_far (inputs : list (Gui.input Row)) (w : Gui.locals Row) :
  (Gui.time_step cfg <= 0)%Q ->
  Gui.capture cfg = false \/ Gui.capture_increment cfg <> 0%Z ->
  Forall (fun inp => Gui.control inp <> Some Worker.MESSAGE_STOP
                     /\ Gui.quit inp = false) inputs ->
  concat (map (@Gui.arrivals Row) inputs) <> [] ->
  unread w ->
  snd (Gui.run cfg inputs w) = Some Gui.AssertionError.
Proof.
  intros Hdt Hcap Hall. revert w.
  induction Hall as [| inp inputs [Hctl Hquit] _ IH]; intros w Hne Hu;
    [cbn in Hne; congruence |].
  destruct Hu as (Hp & Hn & Hpipe).
  cbn [Gui.run map concat] in *.
  unfold Gui.iteration, Gui.receive. rewrite Hquit, Hn, Hp, Hpipe.
  cbn [app].
  destruct (Gui.arrivals inp) as [| [t rows] arrived] eqn:Harr.
  - cbn [app] in Hne.
    assert (Hrender :
      exists out frame3,
        Gui.render_block cfg (Gui.current_state w) (Gui.frame w)
          (Gui.render w) = (None, out, frame3)).
    { unfold Gui.render_block.
      destruct (Gui.render w); [| do 2 eexists; reflexivity].
      destruct (Gui.capture cfg) eqn:Hc; [| do 2 eexists; reflexivity].
      destruct Hcap as [Hcap | Hcap]; [discriminate |].
      apply Z.eqb_neq in Hcap. rewrite Hcap.
      destruct (Gui.frame w mod Gui.capture_increment cfg =? 0)%Z;
        do 2 eexists; reflexivity. }
    destruct Hrender as (out & frame3 & Hrender).
    destruct (Gui.control inp) as [[| | | | t | cbs] |]; try congruence;
      rewrite Hrender;
      match goal with
      | |- snd (let '(_, _) := Gui.run cfg inputs ?w' in _) = _ =>
          specialize (IH w' Hne ltac:(repeat split; reflexivity));
          destruct (Gui.run cfg inputs w'); exact IH
      end.
  - rewrite (too_far t (Gui.partial_time w) Hdt).
    destruct (Gui.control inp) as [[| | | | t' | cbs] |]; try congruence;
      reflexivity.
Qed.

(** X18. With a time step that is not positive the GUI cannot take any
    update: the first update that arrives, while the loop is running and
    no snapshot is due with a capture increment of zero, ends the loop on
    the assertion. *)
Theorem gui_assertion_fails (initial : list Row)
  (inputs : list (Gui.input Row)) :
  (Gui.time_step cfg <= 0)%Q ->
  Gui.capture cfg = false \/ Gui.capture_increment cfg <> 0%Z ->
  Forall (fun inp => Gui.control inp <> Some Worker.MESSAGE_STOP
                     /\ Gui.quit inp = false) inputs ->
  concat (map (@Gui.arrivals Row) inputs) <> [] ->
  snd (Gui.run cfg inputs (Gui.start cfg initial))
  = Some Gui.AssertionError.
Proof.
  intros Hdt Hcap Hall Hne. apply run_too_far; auto.
  repeat split; reflexivity.
Qed.

End Facts.

(** Three rounds with a time step of one half: the two updates of the
    worker arrive in the first and in the third round. *)
Definition demo_cfg : Gui.config :=
  {| Gui.time_step := (1 # 2)%Q; Gui.capture := false;
     Gui.capture_increment := 1 |}.

Definition demo_inputs : list (Gui.input nat) :=
  [ {| Gui.control := None; Gui.quit := false; Gui.callbacks := [];
       Gui.arrivals := [((0 + (1 # 2))%Q, [1])]; Gui.clock := 1%Q |};
    {| Gui.control := None; Gui.quit := false; Gui.callbacks := [];
       Gui.arrivals := []; Gui.clock := 2%Q |};
    {| Gui.control := None; Gui.quit := false; Gui.callbacks := [];
       Gui.arrivals := [((0 + (1 # 2) + (1 # 2))%Q, [2])];
       Gui.clock := 3%Q |} ].

Example demo_gui_requests :
  requests (fst (Gui.run demo_cfg demo_inputs (Gui.start demo_cfg [0])))
  = 2.
Proof. vm_compute. reflexivity. Qed.

Lemma gui_assertion_holds_witness :
  snd (Gui.run demo_cfg demo_inputs (Gui.start demo_cfg [0]))
  <> Some Gui.AssertionError.
Proof.
  apply (@gui_assertion_holds nat demo_cfg [0] demo_inputs).
  - reflexivity.
  - reflexivity.
Defined.

(** The same rounds with a time step of zero. *)
Definition zero_cfg : Gui.config :=
  {| Gui.time_step := 0%Q; Gui.capture := false;
     Gui.capture_increment := 1 |}.

Lemma gui_assertion_fails_witness :
  snd (Gui.run zero_cfg demo_inputs (Gui.start zero_cfg [0]))
  = Some Gui.AssertionError.
Proof.
  apply (@gui_assertion_fails nat zero_cfg [0] demo_inputs).
  - unfold Qle; cbn; lia.
  - left. reflexivity.
  - repeat constructor; discriminate.
  - discriminate.
Defined.

End GuiFacts.

(** ** The k-d tree *)

Module KDFacts.

Lemma Qlt_bool_iff (x y : Q) : KD.Qlt_bool x y = true <-> (x < y)%Q.
Proof.
  unfold KD.Qlt_bool. rewrite negb_true_iff. split.
  - intros H. apply Qnot_le_lt. intros Hle.
    apply Qle_bool_iff in Hle. congruence.
  - intros H. destruct (Qle_bool y x) eqn:E; [| reflexivity].
    apply Qle_bool_iff in E. apply Qlt_not_le in H. contradiction.
Qed.

Lemma Qlt_bool_false (x y : Q) : KD.Qlt_bool x y = false <-> (y <= x)%Q.
Proof.
  unfold KD.Qlt_bool. rewrite negb_false_iff. apply Qle_bool_iff.
Qed.

Lemma Qmin_choice (x y : Q) : Qmin x y = x \/ Qmin x y = y.
Proof.
  unfold Qmin, GenericMinMax.gmin. destruct (x ?= y)%Q; auto.
Qed.

Lemma Qmax_choice (x y : Q) : Qmax x y = x \/ Qmax x y = y.
Proof.
  unfold Qmax, GenericMinMax.gmax. destruct (x ?= y)%Q; auto.
Qed.

(** *** Bounds of a set of points *)

Section Reduction.

(** One coordinate of one of the two reductions: [op] is [Qmin] or [Qmax],
    [rel] the order in which the result lies before every element. *)
Variable op : Q -> Q -> Q.
Variable rel : Q -> Q -> Prop.
Variable proj : KD.point -> Q.
Variable pc : KD.point -> KD.point -> KD.point.
Hypothesis rel_refl : forall x, rel x x.
Hypothesis rel_trans : forall x y z, rel x y -> rel y z -> rel x z.
Hypothesis op_l : forall a b, rel (op a b) a.
Hypothesis op_r : forall a b, rel (op a b) b.
Hypothesis op_choice : forall a b, op a b = a \/ op a b = b.
Hypothesis proj_pc : forall a b, proj (pc a b) = op (proj a) (proj b).

Lemma fold_bound (ps : list KD.point) (a : KD.point) :
  rel (proj (fold_left pc ps a)) (proj a)
  /\ forall p, In p ps -> rel (proj (fold_left pc ps a)) (proj p).
Proof.
  revert a. induction ps as [| q ps IH]; intros a; cbn [fold_left].
  - split; [apply rel_refl | intros p []].
  - destruct (IH (pc a q)) as [H1 H2]. rewrite proj_pc in H1. split.
    + eapply rel_trans; [exact H1 | apply op_l].
    + intros p [<- | Hp]; [| now apply H2].
      eapply rel_trans; [exact H1 | apply op_r].
Qed.

Lemma fold_attained (ps : list KD.point) (a : KD.point) :
  proj (fold_left pc ps a) = proj a
  \/ exists p, In p ps /\ proj (fold_left pc ps a) = proj p.
Proof.
  revert a. induction ps as [| q ps IH]; intros a; cbn [fold_left].
  - now left.
  - destruct (IH (pc a q)) as [H | (p & Hp & H)].
    + rewrite proj_pc in H. destruct (op_choice (proj a) (proj q)) as [E | E];
        rewrite E in H; [now left | right; exists q; split; [now left | exact H]].
    + right. exists p. split; [now right | exact H].
Qed.

End Reduction.

Lemma amin_spec (points : list KD.point) (lb : KD.point) :
  KD.amin points = Ok lb ->
  (forall p, In p points -> (fst lb <= fst p)%Q /\ (snd lb <= snd p)%Q)
  /\ (exists p, In p points /\ fst lb = fst p)
  /\ (exists p, In p points /\ snd lb = snd p).
Proof.
  destruct points as [| a ps]; [discriminate |].
  cbn [KD.amin]. intros H. injection H as <-.
  pose proof (@fold_bound Qmin Qle fst KD.pmin Qle_refl Qle_trans
                Q.le_min_l Q.le_min_r (fun _ _ => eq_refl) ps a) as [F1 F2].
  pose proof (@fold_bound Qmin Qle snd KD.pmin Qle_refl Qle_trans
                Q.le_min_l Q.le_min_r (fun _ _ => eq_refl) ps a) as [S1 S2].
  pose proof (@fold_attained Qmin fst KD.pmin Qmin_choice
                (fun _ _ => eq_refl) ps a) as FA.
  pose proof (@fold_attained Qmin snd KD.pmin Qmin_choice
                (fun _ _ => eq_refl) ps a) as SA.
  repeat split.
  - destruct H as [<- | H]; [exact F1 | now apply F2].
  - destruct H as [<- | H]; [exact S1 | now apply S2].
  - destruct FA as [E | (p & Hp & E)];
      [exists a; split; [now left | exact E]
      | exists p; split; [now right | exact E]].
  - destruct SA as [E | (p & Hp & E)];
      [exists a; split; [now left | exact E]
      | exists p; split; [now right | exact E]].
Qed.

Lemma Qge_refl (x : Q) : (x <= x)%Q.
Proof. apply Qle_refl. Qed.

Lemma amax_spec (points : list KD.point) (ub : KD.point) :
  KD.amax points = Ok ub ->
  (forall p, In p points -> (fst p <= fst ub)%Q /\ (snd p <= snd ub)%Q)
  /\ (exists p, In p points /\ fst ub = fst p)
  /\ (exists p, In p points /\ snd ub = snd p).
Proof.
  destruct points as [| a ps]; [discriminate |].
  cbn [KD.amax]. intros H. injection H as <-.
  set (ge := fun x y : Q => (y <= x)%Q).
  assert (ge_trans : forall x y z, ge x y -> ge y z -> ge x z)
    by (unfold ge; intros x y z H1 H2; eapply Qle_trans; eauto).
  pose proof (@fold_bound Qmax ge fst KD.pmax Qge_refl ge_trans
                Q.le_max_l Q.le_max_r (fun _ _ => eq_refl) ps a) as [F1 F2].
  pose proof (@fold_bound Qmax ge snd KD.pmax Qge_refl ge_trans
                Q.le_max_l Q.le_max_r (fun _ _ => eq_refl) ps a) as [S1 S2].
  pose proof (@fold_attained Qmax fst KD.pmax Qmax_choice
                (fun _ _ => eq_refl) ps a) as FA.
  pose proof (@fold_attained Qmax snd KD.pmax Qmax_choice
                (fun _ _ => eq_refl) ps a) as SA.
  repeat split.
  - destruct H as [<- | H]; [exact F1 | now apply F2].
  - destruct H as [<- | H]; [exact S1 | now apply S2].
  - destruct FA as [E | (p & Hp & E)];
      [exists a; split; [now left | exact E]
      | exists p; split; [now right | exact E]].
  - destruct SA as [E | (p & Hp & E)];
      [exists a; split; [now left | exact E]
      | exists p; split; [now right | exact E]].
Qed.

Lemma amin_ok (points : list KD.point) :
  points <> [] -> exists lb, KD.amin points = Ok lb.
Proof. destruct points; [congruence | eexists; reflexivity]. Qed.

Lemma amax_ok (points : list KD.point) :
  points <> [] -> exists ub, KD.amax points = Ok ub.
Proof. destruct points; [congruence | eexists; reflexivity]. Qed.

(** *** The build loop never raises on a non-empty set of points *)

Section Build.

Variable data : list KD.point.
Variable bucket_size : Z.

Definition row_point (k : nat) : KD.point := nth k data (0%Q, 0%Q).

Lemma take_in (indices : list nat) (p : KD.point) :
  In p (KD.take data indices) <-> exists k, In k indices /\ p = row_point k.
Proof.
  unfold KD.take. rewrite in_map_iff. split; intros (k & H1 & H2);
    exists k; split; auto.
Qed.

Lemma coord_cases (axis : nat) (p : KD.point) :
  KD.coord axis p = fst p \/ KD.coord axis p = snd p.
Proof. destruct axis; cbn; auto. Qed.

(** The bounds of a node bound every point of the node, on both axes. *)
Lemma bounds_spec (indices : list nat) (lb ub : KD.point) :
  KD.amin (KD.take data indices) = Ok lb ->
  KD.amax (KD.take data indices) = Ok ub ->
  forall k, In k indices ->
    (fst lb <= fst (row_point k) <= fst ub)%Q
    /\ (snd lb <= snd (row_point k) <= snd ub)%Q.
Proof.
  intros Hmin Hmax k Hk.
  destruct (amin_spec _ Hmin) as (Hl & _).
  destruct (amax_spec _ Hmax) as (Hu & _).
  assert (Hin : In (row_point k) (KD.take data indices))
    by (apply take_in; eauto).
  specialize (Hl _ Hin). specialize (Hu _ Hin). tauto.
Qed.

Lemma left_nonempty (indices : list nat) (lb ub : KD.point) :
  KD.amin (KD.take data indices) = Ok lb ->
  KD.amax (KD.take data indices) = Ok ub ->
  KD.left_of data (fst (KD.split_of lb ub)) (snd (KD.split_of lb ub))
    indices <> [].
Proof.
  intros Hmin Hmax.
  destruct (amin_spec _ Hmin) as (_ & (p1 & Hp1 & E1) & (p2 & Hp2 & E2)).
  pose proof (bounds_spec _ Hmin Hmax) as Hb.
  unfold KD.split_of, KD.left_of. cbn [fst snd].
  set (axis := KD.argmax _).
  assert (Hex : exists k, In k indices
                          /\ KD.coord axis (row_point k) = KD.coord axis lb).
  { apply take_in in Hp1 as (k1 & Hk1 & ->).
    apply take_in in Hp2 as (k2 & Hk2 & ->).
    destruct axis; cbn [KD.coord]; eauto. }
  destruct Hex as (k & Hk & Ek).
  assert (Hle : (KD.coord axis (row_point k) <= KD.coord axis ub)%Q).
  { specialize (Hb k Hk). destruct axis; cbn [KD.coord]; tauto. }
  intros Hnil.
  assert (Hin : In k (filter
                        (fun k => Qle_bool (KD.coord axis (nth k data (0%Q, 0%Q)))
                                    ((KD.coord axis lb + KD.coord axis ub) / 2))
                        indices)).
  { apply filter_In. split; [exact Hk |].
    apply Qle_bool_iff. fold (row_point k). rewrite <- Ek.
    apply Qle_shift_div_l; [reflexivity |]. lra. }
  rewrite Hnil in Hin. destruct Hin.
Qed.

Lemma right_empty (axis : nat) (loc : Q) (indices : list nat) :
  KD.right_of data axis loc indices = [] ->
  KD.left_of data axis loc indices = indices.
Proof.
  unfold KD.right_of, KD.left_of, KD.Qlt_bool.
  induction indices as [| k l IH]; cbn [filter]; [reflexivity |].
  destruct (Qle_bool (KD.coord axis (nth k data (0%Q, 0%Q))) loc);
    cbn [negb]; [| discriminate].
  intros H. f_equal. now apply IH.
Qed.

(** A node larger than a bucket whose points all fall on the left of the
    split is split into itself: the loop does not end. *)
Lemma build_stuck (fuel : nat) (indices : list nat) (parent : option nat)
  (stack : list (list nat * option nat)) (nodes : list KD.Node)
  (parents : list (option nat)) (buckets : list (list nat)) (i : nat)
  (lb ub : KD.point) :
  KD.amin (KD.take data indices) = Ok lb ->
  KD.amax (KD.take data indices) = Ok ub ->
  (Z.of_nat (length (KD.take data indices)) <=? bucket_size)%Z = false ->
  KD.left_of data (fst (KD.split_of lb ub)) (snd (KD.split_of lb ub)) indices
  = indices ->
  KD.build_loop fuel data bucket_size ((indices, parent) :: stack)
    nodes parents buckets i = None.
Proof.
  intros Hmin Hmax Hbig Hleft.
  revert parent stack nodes parents buckets i.
  induction fuel as [| fuel IH]; intros; [reflexivity |].
  cbn [KD.build_loop]. rewrite Hmin, Hmax, Hbig.
  destruct (KD.split_of lb ub) as [axis loc] eqn:Hs. cbn [fst snd] in Hleft.
  rewrite Hleft. apply IH.
Qed.

Lemma build_no_raise (fuel : nat) (stack : list (list nat * option nat))
  (nodes : list KD.Node) (parents : list (option nat))
  (buckets : list (list nat)) (i : nat) (e : exn) :
  Forall (fun entry => fst entry <> []) stack ->
  KD.build_loop fuel data bucket_size stack nodes parents buckets i
  <> Some (Raise e).
Proof.
  revert stack nodes parents buckets i.
  induction fuel as [| fuel IH]; intros stack nodes parents buckets i Hne.
  - destruct stack as [| [indices parent] stack]; discriminate.
  - destruct stack as [| [indices parent] stack]; [discriminate |].
    inversion Hne as [| ? ? Hi Hrest]; subst. cbn [fst] in Hi.
    cbn [KD.build_loop].
    assert (Hp : KD.take data indices <> []).
    { destruct indices; [congruence | discriminate]. }
    destruct (amin_ok Hp) as (lb & Hmin).
    destruct (amax_ok Hp) as (ub & Hmax).
    rewrite Hmin, Hmax.
    destruct (Z.of_nat (length (KD.take data indices)) <=? bucket_size)%Z
      eqn:Hsize.
    + apply IH. exact Hrest.
    + pose proof (left_nonempty _ Hmin Hmax) as Hl.
      pose proof (@build_stuck fuel indices (Some i)
                    ((KD.right_of data (fst (KD.split_of lb ub))
                        (snd (KD.split_of lb ub)) indices, Some i) :: stack)
                    (nodes ++ [KD.mkNode 1 (-1) lb ub])
                    (parents ++ [parent]) buckets (i + 1) lb ub
                    Hmin Hmax Hsize) as Hstuck.
      destruct (KD.split_of lb ub) as [axis loc] eqn:Hs.
      cbn [fst snd] in *.
      destruct (KD.right_of data axis loc indices) as [| r rs] eqn:Hr.
      * rewrite (right_empty _ _ _ Hr) in *.
        rewrite Hstuck by reflexivity. discriminate.
      * apply IH. constructor; [exact Hl |].
        constructor; [discriminate | exact Hrest].
Qed.

End Build.

Lemma init_no_raise (fuel : nat) (data : list KD.point) (bucket_size : Z)
  (e : exn) :
  (1 <= bucket_size)%Z -> data <> [] ->
  KD.init fuel data bucket_size <> Some (Raise e).
Proof.
  intros Hb Hd. unfold KD.init, KD._build.
  destruct (Z.ltb_spec bucket_size 1) as [| _]; [lia |].
  pose proof (@build_no_raise data bucket_size fuel
                [(seq 0 (length data), None)] [] [] [] 0 e) as Hnr.
  destruct (KD.build_loop fuel data bucket_size _ [] [] [] 0)
    as [[[[nodes parents] buckets] | e'] |]; try discriminate.
  intros E. injection E as ->. apply Hnr; [| reflexivity].
  constructor; [| constructor]. cbn [fst].
  destruct data; [congruence | discriminate].
Qed.

(** *** The sort of the result rows *)

Definition leb (a b : KD.neighbour) : Prop := KD.neighbour_leb a b = true.

Lemma leb_spec (a b : KD.neighbour) :
  leb a b <-> (fst a < fst b)%Q \/ ((fst a == fst b)%Q /\ snd a <= snd b).
Proof.
  unfold leb, KD.neighbour_leb.
  rewrite orb_true_iff, andb_true_iff, Qlt_bool_iff, Qeq_bool_iff,
    Nat.leb_le.
  reflexivity.
Qed.

Lemma leb_total (a b : KD.neighbour) : leb a b \/ leb b a.
Proof.
  rewrite !leb_spec.
  destruct (Q_dec (fst a) (fst b)) as [[H | H] | H]; auto.
  destruct (Nat.le_ge_cases (snd a) (snd b)); [left | right]; right;
    split; auto. now symmetry.
Qed.

Lemma leb_trans (a b c : KD.neighbour) : leb a b -> leb b c -> leb a c.
Proof.
  rewrite !leb_spec. intros [H1 | [H1 H1']] [H2 | [H2 H2']].
  - left. lra.
  - left. lra.
  - left. lra.
  - right. split; [lra | lia].
Qed.

Lemma leb_antisym (a b : KD.neighbour) :
  leb a b -> leb b a -> (fst a == fst b)%Q /\ snd a = snd b.
Proof.
  rewrite !leb_spec. intros [H1 | [H1 H1']] [H2 | [H2 H2']];
    try lra. split; [exact H1 | lia].
Qed.

Lemma leb_false (a b : KD.neighbour) :
  KD.neighbour_leb a b = false -> leb b a.
Proof.
  intros H. destruct (leb_total a b) as [H' | H']; [| exact H'].
  unfold leb in H'. congruence.
Qed.

Lemma insert_sorted_perm (x : KD.neighbour) (l : list KD.neighbour) :
  Permutation (KD.insert_sorted x l) (x :: l).
Proof.
  induction l as [| y l IH]; cbn [KD.insert_sorted]; [reflexivity |].
  destruct (KD.neighbour_leb x y); [reflexivity |].
  rewrite IH. apply perm_swap.
Qed.

Lemma np_sort_perm (l : list KD.neighbour) : Permutation (KD.np_sort l) l.
Proof.
  unfold KD.np_sort. induction l as [| x l IH]; cbn [fold_right];
    [reflexivity |].
  rewrite insert_sorted_perm. now constructor.
Qed.

Lemma insert_sorted_sorted (x : KD.neighbour) (l : list KD.neighbour) :
  StronglySorted leb l -> StronglySorted leb (KD.insert_sorted x l).
Proof.
  induction 1 as [| y l Hs IH Hy]; cbn [KD.insert_sorted].
  - constructor; constructor.
  - destruct (KD.neighbour_leb x y) eqn:E.
    + constructor; [now constructor |].
      constructor; [exact E |].
      eapply Forall_impl; [| exact Hy]. intros z Hz.
      eapply leb_trans; [exact E | exact Hz].
    + constructor; [exact IH |].
      eapply Permutation_Forall; [symmetry; apply insert_sorted_perm |].
      constructor; [now apply leb_false | exact Hy].
Qed.

Lemma np_sort_sorted (l : list KD.neighbour) : StronglySorted leb (KD.np_sort l).
Proof.
  unfold KD.np_sort. induction l as [| x l IH]; cbn [fold_right];
    [constructor |].
  now apply insert_sorted_sorted.
Qed.


Section Rows.

Variable data : list KD.point.
Variable pt : KD.point.

(** The squared distance of point [j] to the query point, and its row. *)
Definition dist (j : nat) : Q := KD.sqdist pt (nth j data (0%Q, 0%Q)).

Definition row (j : nat) : KD.neighbour := (dist j, j).

Definition is_row (x : KD.neighbour) : Prop := x = row (snd x).

Lemma is_row_map (l : list nat) : Forall is_row (map row l).
Proof. apply Forall_map, Forall_forall. intros j _. reflexivity. Qed.

Lemma rows_antisym (x y : KD.neighbour) :
  is_row x -> is_row y -> leb x y -> leb y x -> x = y.
Proof.
  intros Hx Hy H1 H2. destruct (leb_antisym H1 H2) as [_ E].
  rewrite Hx, Hy, E. reflexivity.
Qed.

(** Two sorted lists of rows with the same elements are equal. *)
Lemma sorted_unique (l1 l2 : list KD.neighbour) :
  Forall is_row l1 ->
  StronglySorted leb l1 -> StronglySorted leb l2 ->
  Permutation l1 l2 -> l1 = l2.
Proof.
  revert l2. induction l1 as [| x l1 IH]; intros l2 Hr H1 H2 Hp.
  - apply Permutation_nil in Hp. now subst.
  - destruct l2 as [| y l2].
    { symmetry in Hp. apply Permutation_nil in Hp. discriminate. }
    inversion Hr as [| ? ? Hx Hr']; subst.
    inversion H1 as [| ? ? H1' Hx1]; subst.
    inversion H2 as [| ? ? H2' Hy2]; subst.
    assert (Hyr : is_row y).
    { rewrite Forall_forall in Hr. apply Hr.
      eapply Permutation_in; [symmetry; exact Hp | now left]. }
    assert (Hxy : leb x y).
    { assert (Hin : In y (x :: l1))
        by (eapply Permutation_in; [symmetry; exact Hp | now left]).
      destruct Hin as [<- | Hin].
      - destruct (leb_total x x); assumption.
      - rewrite Forall_forall in Hx1. now apply Hx1. }
    assert (Hyx : leb y x).
    { assert (Hin : In x (y :: l2))
        by (eapply Permutation_in; [exact Hp | now left]).
      destruct Hin as [<- | Hin].
      - destruct (leb_total y y); assumption.
      - rewrite Forall_forall in Hy2. now apply Hy2. }
    assert (x = y) by now apply rows_antisym. subst y.
    f_equal. apply IH; auto. eapply Permutation_cons_inv; eauto.
Qed.

Lemma np_sort_permutation (l l' : list KD.neighbour) :
  Forall is_row l -> Permutation l l' -> KD.np_sort l = KD.np_sort l'.
Proof.
  intros Hr Hp. apply sorted_unique.
  - eapply Permutation_Forall; [symmetry; apply np_sort_perm | exact Hr].
  - apply np_sort_sorted.
  - apply np_sort_sorted.
  - rewrite !np_sort_perm. exact Hp.
Qed.


Lemma np_sort_length (l : list KD.neighbour) :
  length (KD.np_sort l) = length l.
Proof. apply Permutation_length, np_sort_perm. Qed.

End Rows.

(** *** The tree laid out in the node array *)

Inductive tree : Type :=
| Leaf (indices : list nat) (lb ub : KD.point)
| Branch (lb ub : KD.point) (l r : tree).

Fixpoint tsize (t : tree) : nat :=
  match t with
  | Leaf _ _ _ => 1
  | Branch _ _ l r => 1 + tsize l + tsize r
  end.

Fixpoint leaves (t : tree) : list (list nat) :=
  match t with
  | Leaf indices _ _ => [indices]
  | Branch _ _ l r => leaves l ++ leaves r
  end.

Definition lower (t : tree) : KD.point :=
  match t with Leaf _ lb _ => lb | Branch lb _ _ _ => lb end.

Definition upper (t : tree) : KD.point :=
  match t with Leaf _ _ ub => ub | Branch _ ub _ _ => ub end.

(** The nodes of [t] in depth-first order as the first pass leaves them
    (every size 1), the first bucket being number [b0]. *)
Fixpoint enc1 (t : tree) (b0 : nat) : list KD.Node :=
  match t with
  | Leaf _ lb ub => [KD.mkNode 1 (Z.of_nat b0) lb ub]
  | Branch lb ub l r =>
      KD.mkNode 1 (-1) lb ub
      :: enc1 l b0 ++ enc1 r (b0 + length (leaves l))
  end.

(** The same with the sizes of the subtrees. *)
Fixpoint enc (t : tree) (b0 : nat) : list KD.Node :=
  match t with
  | Leaf _ lb ub => [KD.mkNode 1 (Z.of_nat b0) lb ub]
  | Branch lb ub l r =>
      KD.mkNode (tsize t) (-1) lb ub
      :: enc l b0 ++ enc r (b0 + length (leaves l))
  end.

(** The parents of the nodes of [t], whose root is node [i0]. *)
Fixpoint par (t : tree) (parent : option nat) (i0 : nat)
  : list (option nat) :=
  match t with
  | Leaf _ _ _ => [parent]
  | Branch _ _ l r =>
      parent :: par l (Some i0) (i0 + 1)
             ++ par r (Some i0) (i0 + 1 + tsize l)
  end.

Fixpoint szs (t : tree) : list nat :=
  match t with
  | Leaf _ _ _ => [1]
  | Branch _ _ l r => tsize t :: szs l ++ szs r
  end.

(** [t] is the tree that the build makes of [indices]. *)
Fixpoint valid (data : list KD.point) (bucket_size : Z) (t : tree)
  (indices : list nat) : Prop :=
  match t with
  | Leaf idx lb ub =>
      idx = indices
      /\ KD.amin (KD.take data indices) = Ok lb
      /\ KD.amax (KD.take data indices) = Ok ub
      /\ (Z.of_nat (length (KD.take data indices)) <=? bucket_size)%Z = true
  | Branch lb ub l r =>
      KD.amin (KD.take data indices) = Ok lb
      /\ KD.amax (KD.take data indices) = Ok ub
      /\ (Z.of_nat (length (KD.take data indices)) <=? bucket_size)%Z = false
      /\ valid data bucket_size l
           (KD.left_of data (fst (KD.split_of lb ub))
              (snd (KD.split_of lb ub)) indices)
      /\ valid data bucket_size r
           (KD.right_of data (fst (KD.split_of lb ub))
              (snd (KD.split_of lb ub)) indices)
  end.

Fixpoint enc1_forest (ts : list tree) (b0 : nat) : list KD.Node :=
  match ts with
  | [] => []
  | t :: ts' => enc1 t b0 ++ enc1_forest ts' (b0 + length (leaves t))
  end.

Fixpoint par_forest (ts : list tree) (parents : list (option nat))
  (i0 : nat) : list (option nat) :=
  match ts, parents with
  | t :: ts', p :: parents' =>
      par t p i0 ++ par_forest ts' parents' (i0 + tsize t)
  | _, _ => []
  end.

Definition leaves_forest (ts : list tree) : list (list nat) :=
  concat (map leaves ts).

(** The first pass appends, for every entry of the stack, the nodes, the
    parents and the buckets of the tree of this entry. *)
Lemma build_loop_forest (data : list KD.point) (bucket_size : Z)
  (fuel : nat) :
  forall stack nodes parents buckets i res,
    KD.build_loop fuel data bucket_size stack nodes parents buckets i
    = Some (Ok res) ->
    exists ts,
      Forall2 (fun t entry => valid data bucket_size t (fst entry)) ts stack
      /\ res = (nodes ++ enc1_forest ts (length buckets),
                parents ++ par_forest ts (map snd stack) i,
                buckets ++ leaves_forest ts).
Proof.
  induction fuel as [| fuel IH];
    intros stack nodes parents buckets i res Hres.
  - destruct stack as [| [indices parent] stack]; [| discriminate].
    cbn in Hres. injection Hres as <-. exists [].
    split; [constructor |]. cbn. now rewrite !app_nil_r.
  - destruct stack as [| [indices parent] stack].
    { cbn in Hres. injection Hres as <-. exists [].
      split; [constructor |]. cbn. now rewrite !app_nil_r. }
    cbn [KD.build_loop] in Hres.
    destruct (KD.amin (KD.take data indices)) as [lb |] eqn:Hmin;
      [| discriminate].
    destruct (KD.amax (KD.take data indices)) as [ub |] eqn:Hmax;
      [| discriminate].
    destruct (Z.of_nat (length (KD.take data indices)) <=? bucket_size)%Z
      eqn:Hsize.
    + apply IH in Hres as (ts & Hf & ->).
      exists (Leaf indices lb ub :: ts). split.
      * constructor; [| exact Hf]. cbn. auto.
      * cbn [enc1_forest enc1 par_forest par leaves_forest map concat
               leaves snd tsize length].
        rewrite length_app. cbn [length].
        rewrite <- !app_assoc. reflexivity.
    + destruct (KD.split_of lb ub) as [axis loc] eqn:Hs.
      apply IH in Hres as (ts & Hf & ->).
      inversion Hf as [| tl e1 ts1 st1 Hl Hf1]; subst.
      inversion Hf1 as [| tr e2 ts2 st2 Hr Hf2]; subst.
      cbn [fst] in Hl, Hr.
      exists (Branch lb ub tl tr :: ts2). split.
      * constructor; [| exact Hf2]. cbn [valid fst]. rewrite Hs.
        cbn [fst snd]. auto.
      * cbn [enc1_forest enc1 par_forest par leaves_forest map concat
               leaves snd tsize].
        rewrite length_app.
        rewrite <- !app_assoc. cbn [app].
        replace (length buckets + (length (leaves tl) + length (leaves tr)))
          with (length buckets + length (leaves tl) + length (leaves tr))
          by lia.
        replace (i + (1 + tsize tl + tsize tr))
          with (i + 1 + tsize tl + tsize tr) by lia.
        rewrite <- !app_assoc. reflexivity.
Qed.

Lemma par_length (t : tree) (parent : option nat) (i0 : nat) :
  length (par t parent i0) = tsize t.
Proof.
  revert parent i0. induction t as [| lb ub l IHl r IHr]; intros; cbn;
    [reflexivity |].
  rewrite length_app, IHl, IHr. reflexivity.
Qed.

Lemma szs_length (t : tree) : length (szs t) = tsize t.
Proof.
  induction t as [| lb ub l IHl r IHr]; cbn; [reflexivity |].
  rewrite length_app, IHl, IHr. reflexivity.
Qed.

Lemma enc1_length (t : tree) (b0 : nat) : length (enc1 t b0) = tsize t.
Proof.
  revert b0. induction t as [| lb ub l IHl r IHr]; intros; cbn;
    [reflexivity |].
  rewrite length_app, IHl, IHr. reflexivity.
Qed.

Lemma enc_length (t : tree) (b0 : nat) : length (enc t b0) = tsize t.
Proof.
  revert b0. induction t as [| lb ub l IHl r IHr]; intros; cbn;
    [reflexivity |].
  rewrite length_app, IHl, IHr. reflexivity.
Qed.

Lemma enc1_sizes (t : tree) (b0 : nat) :
  map KD.size (enc1 t b0) = repeat 1 (tsize t).
Proof.
  revert b0. induction t as [| lb ub l IHl r IHr]; intros; cbn;
    [reflexivity |].
  rewrite map_app, IHl, IHr, repeat_app. reflexivity.
Qed.

Lemma update_app_l (A : Type) (l1 l2 : list A) (i : nat) (f : A -> A) :
  i < length l1 -> update (l1 ++ l2) i f = update l1 i f ++ l2.
Proof.
  revert i. induction l1 as [| x l1 IH]; intros [| i] H; cbn in *;
    try lia; [reflexivity |].
  f_equal. apply IH. lia.
Qed.

Lemma update_app_mid (A : Type) (l1 l2 : list A) (x : A) (f : A -> A) :
  update (l1 ++ x :: l2) (length l1) f = l1 ++ f x :: l2.
Proof.
  induction l1 as [| y l1 IH]; cbn; [reflexivity | now rewrite IH].
Qed.

Lemma nth_at (A : Type) (l l' : list A) (a d : A) (n : nat) :
  length l = n -> nth n (l ++ a :: l') d = a.
Proof. intros <-. apply nth_middle. Qed.

Lemma update_at (A : Type) (l1 l2 : list A) (x : A) (f : A -> A) (n : nat) :
  length l1 = n -> update (l1 ++ x :: l2) n f = l1 ++ f x :: l2.
Proof. intros <-. apply update_app_mid. Qed.

(** The second pass over the nodes of a subtree, last node first: the
    sizes of the subtree are set, and the size of the subtree is added
    to the parent of its root. *)
Lemma pass_subtree (t : tree) :
  forall (P ppre ppost : list (option nat)) (spre spost : list nat)
         (off p : nat),
    P = ppre ++ par t (Some p) off ++ ppost ->
    length ppre = off -> length spre = off -> p < off ->
    fold_left (KD.size_step P) (rev (seq off (tsize t)))
      (spre ++ repeat 1 (tsize t) ++ spost)
    = update spre p (fun s => s + tsize t) ++ szs t ++ spost.
Proof.
  induction t as [indices lb ub | lb ub l IHl r IHr];
    intros P ppre ppost spre spost off p HP Hpp Hsp Hlt.
  - cbn [tsize seq rev app fold_left repeat szs par] in *.
    unfold KD.size_step. subst P.
    rewrite (@nth_at _ _ _ _ _ _ Hpp), (@nth_at _ _ _ _ _ _ Hsp).
    apply update_app_l. lia.
  - cbn [tsize par szs] in *.
    set (a := tsize l) in *. set (b := tsize r) in *.
    replace (1 + a + b) with (S (a + b)) by lia.
    cbn [seq]. rewrite seq_app. cbn [rev]. rewrite rev_app_distr.
    rewrite !fold_left_app. cbn [fold_left].
    (* the subtree on the right *)
    replace (spre ++ (repeat 1 (S (a + b))) ++ spost)
      with ((spre ++ 1 :: repeat 1 a) ++ repeat 1 b ++ spost)
      by (cbn [repeat]; rewrite repeat_app, <- !app_assoc; cbn [app];
          rewrite <- ?app_assoc; reflexivity).
    rewrite (IHr P (ppre ++ Some p :: par l (Some off) (off + 1)) ppost
               (spre ++ 1 :: repeat 1 a) spost (S off + a) off).
    2: { subst P. rewrite <- !app_assoc. cbn [app]. rewrite <- !app_assoc.
         do 4 f_equal. f_equal. lia. }
    2: { rewrite length_app. cbn [length]. rewrite par_length. fold a. lia. }
    2: { rewrite length_app. cbn [length]. rewrite repeat_length. lia. }
    2: lia.
    rewrite (@update_at _ _ _ _ _ _ Hsp). fold b.
    (* the subtree on the left *)
    replace ((spre ++ (1 + b) :: repeat 1 a) ++ szs r ++ spost)
      with ((spre ++ [1 + b]) ++ repeat 1 a ++ szs r ++ spost)
      by (rewrite <- !app_assoc; reflexivity).
    rewrite (IHl P (ppre ++ [Some p]) (par r (Some off) (off + 1 + a) ++ ppost)
               (spre ++ [1 + b]) (szs r ++ spost) (S off) off).
    2: { subst P. rewrite <- !app_assoc. cbn [app].
         do 2 f_equal. replace (off + 1) with (S off) by lia.
         rewrite <- ?app_assoc. reflexivity. }
    2: { rewrite length_app. cbn [length]. lia. }
    2: { rewrite length_app. cbn [length]. lia. }
    2: lia.
    rewrite (@update_at _ _ _ _ _ _ Hsp). fold a.
    (* the root *)
    unfold KD.size_step. subst P.
    replace (1 + b + a) with (S (a + b)) by lia.
    rewrite <- !app_assoc. cbn [app].
    rewrite (@nth_at _ _ _ _ _ _ Hpp), (@nth_at _ _ _ _ _ _ Hsp).
    rewrite update_app_l by lia.
    rewrite <- ?app_assoc. reflexivity.
Qed.

Lemma size_pass_tree (t : tree) :
  KD.size_pass (par t None 0) (repeat 1 (tsize t)) = szs t.
Proof.
  unfold KD.size_pass. rewrite repeat_length.
  destruct t as [indices lb ub | lb ub l r]; [reflexivity |].
  cbn [tsize par szs].
  set (a := tsize l). set (b := tsize r).
  replace (1 + a + b - 1) with (a + b) by lia.
  rewrite seq_app, rev_app_distr, fold_left_app.
  replace (repeat 1 (1 + a + b))
    with ((1 :: repeat 1 a) ++ repeat 1 b ++ [])
    by (rewrite app_nil_r; cbn [repeat plus]; rewrite repeat_app;
        reflexivity).
  rewrite (@pass_subtree r _ (None :: par l (Some 0) (0 + 1)) []
             (1 :: repeat 1 a) [] (1 + a) 0).
  2: { rewrite app_nil_r. reflexivity. }
  2: { cbn [length]. rewrite par_length. reflexivity. }
  2: { cbn [length]. rewrite repeat_length. reflexivity. }
  2: lia.
  cbn [update]. fold b.
  change ((1 + b) :: repeat 1 a ++ szs r ++ [])
    with ([1 + b] ++ repeat 1 a ++ szs r ++ []).
  rewrite (@pass_subtree l _ [None] (par r (Some 0) (0 + 1 + a))
             [1 + b] (szs r ++ []) 1 0).
  2: reflexivity.
  2: reflexivity.
  2: reflexivity.
  2: lia.
  cbn [update app]. fold a. rewrite app_nil_r.
  f_equal. lia.
Qed.

Lemma combine_app_eq (A B : Type) (l1 l2 : list A) (m1 m2 : list B) :
  length l1 = length m1 ->
  combine (l1 ++ l2) (m1 ++ m2) = combine l1 m1 ++ combine l2 m2.
Proof.
  revert m1. induction l1 as [| x l1 IH]; intros [| y m1] H;
    try discriminate; [reflexivity |].
  cbn. f_equal. apply IH. now injection H.
Qed.

Lemma enc_combine (t : tree) (b0 : nat) :
  map (fun ns => KD.set_size (fst ns) (snd ns)) (combine (enc1 t b0) (szs t))
  = enc t b0.
Proof.
  revert b0. induction t as [indices lb ub | lb ub l IHl r IHr]; intros b0;
    [reflexivity |].
  cbn [enc1 szs enc combine map fst snd].
  rewrite combine_app_eq by now rewrite enc1_length, szs_length.
  rewrite map_app, IHl, IHr. reflexivity.
Qed.

(** The tree that the construction lays out in the arrays. *)
Lemma build_tree (fuel : nat) (data : list KD.point) (bucket_size : Z)
  (T : KD.KDTree) :
  KD._build fuel data bucket_size = Some (Ok T) ->
  exists t,
    valid data bucket_size t (seq 0 (length data))
    /\ T = {| KD._data := data;
              KD._n := length data;
              KD._nodes := enc t 0;
              KD._buckets := leaves t;
              KD._bucket_size := bucket_size |}.
Proof.
  unfold KD._build.
  destruct (KD.build_loop fuel data bucket_size _ [] [] [] 0)
    as [[[[nodes parents] buckets] | e] |] eqn:Hloop; try discriminate.
  apply build_loop_forest in Hloop as (ts & Hf & Hres).
  inversion Hf as [| t e1 ts1 st1 Hv Hf1]; subst.
  inversion Hf1; subst. cbn [fst] in Hv.
  cbn [enc1_forest par_forest leaves_forest map concat snd app length]
    in Hres.
  rewrite !app_nil_r in Hres. injection Hres as -> -> ->.
  intros H. injection H as <-. exists t. split; [exact Hv |].
  rewrite enc1_sizes, size_pass_tree, enc_combine. reflexivity.
Qed.

(** *** What a built tree holds *)

Lemma filter_split_perm (A : Type) (f : A -> bool) (l : list A) :
  Permutation (filter f l ++ filter (fun x => negb (f x)) l) l.
Proof.
  induction l as [| x l IH]; cbn [filter]; [constructor |].
  destruct (f x); cbn [negb app].
  - now constructor.
  - rewrite <- Permutation_middle. now constructor.
Qed.

Lemma split_perm (data : list KD.point) (axis : nat) (loc : Q)
  (indices : list nat) :
  Permutation (KD.left_of data axis loc indices
               ++ KD.right_of data axis loc indices) indices.
Proof. unfold KD.left_of, KD.right_of, KD.Qlt_bool. apply filter_split_perm. Qed.

Lemma valid_perm (data : list KD.point) (bucket_size : Z) (t : tree) :
  forall indices,
    valid data bucket_size t indices ->
    Permutation (concat (leaves t)) indices.
Proof.
  induction t as [idx lb ub | lb ub l IHl r IHr]; intros indices Hv.
  - destruct Hv as (-> & _). cbn. now rewrite app_nil_r.
  - destruct Hv as (_ & _ & _ & Hl & Hr).
    cbn [leaves]. rewrite concat_app.
    rewrite (IHl _ Hl), (IHr _ Hr). apply split_perm.
Qed.

Lemma valid_bounds (data : list KD.point) (bucket_size : Z) (t : tree)
  (indices : list nat) :
  valid data bucket_size t indices ->
  KD.amin (KD.take data indices) = Ok (lower t)
  /\ KD.amax (KD.take data indices) = Ok (upper t).
Proof.
  destruct t; cbn [valid lower upper]; intros H.
  - destruct H as (-> & H1 & H2 & _). auto.
  - destruct H as (H1 & H2 & _). auto.
Qed.

(** Every point of a subtree lies in the box of its root. *)
Lemma valid_box (data : list KD.point) (bucket_size : Z) (t : tree)
  (indices : list nat) (j : nat) :
  valid data bucket_size t indices ->
  In j (concat (leaves t)) ->
  (fst (lower t) <= fst (row_point data j) <= fst (upper t))%Q
  /\ (snd (lower t) <= snd (row_point data j) <= snd (upper t))%Q.
Proof.
  intros Hv Hj.
  destruct (@valid_bounds data bucket_size t indices Hv) as [Hmin Hmax].
  apply (@bounds_spec data indices (lower t) (upper t) Hmin Hmax).
  eapply Permutation_in;
    [apply (@valid_perm data bucket_size t indices Hv) | exact Hj].
Qed.

Lemma valid_buckets (data : list KD.point) (bucket_size : Z) (t : tree) :
  forall indices,
    valid data bucket_size t indices ->
    Forall (fun b => 1 <= length b /\ (Z.of_nat (length b) <= bucket_size)%Z)
      (leaves t).
Proof.
  induction t as [idx lb ub | lb ub l IHl r IHr]; intros indices Hv.
  - destruct Hv as (-> & Hmin & _ & Hsize).
    constructor; [| constructor].
    unfold KD.take in *. rewrite length_map in Hsize.
    apply Z.leb_le in Hsize. split; [| exact Hsize].
    destruct indices; [discriminate | cbn; lia].
  - destruct Hv as (_ & _ & _ & Hl & Hr). cbn [leaves].
    apply Forall_app. eauto.
Qed.

Lemma leaves_length (t : tree) : tsize t + 1 = 2 * length (leaves t).
Proof.
  induction t as [idx lb ub | lb ub l IHl r IHr]; cbn [tsize leaves length];
    [reflexivity |].
  rewrite length_app. lia.
Qed.

Lemma init_tree (fuel : nat) (data : list KD.point) (bucket_size : Z)
  (T : KD.KDTree) :
  KD.init fuel data bucket_size = Some (Ok T) ->
  (1 <= bucket_size)%Z
  /\ exists t,
      valid data bucket_size t (seq 0 (length data))
      /\ T = {| KD._data := data;
                KD._n := length data;
                KD._nodes := enc t 0;
                KD._buckets := leaves t;
                KD._bucket_size := bucket_size |}.
Proof.
  unfold KD.init.
  destruct (Z.ltb_spec bucket_size 1) as [| Hb]; [discriminate |].
  intros H. split; [exact Hb |]. now apply build_tree in H.
Qed.

(** X19. What the construction leaves: when it returns, the buckets hold
    every index of the data exactly once, no bucket is empty and none
    holds more than [bucket_size] indices, and there is one node less
    than twice the number of buckets (a leaf for every bucket, and
    branches of two children). *)
Theorem build_partition (fuel : nat) (data : list KD.point)
  (bucket_size : Z) (T : KD.KDTree) :
  KD.init fuel data bucket_size = Some (Ok T) ->
  KD._data T = data
  /\ KD._n T = length data
  /\ Permutation (concat (KD._buckets T)) (seq 0 (length data))
  /\ Forall (fun b => 1 <= length b
                      /\ (Z.of_nat (length b) <= bucket_size)%Z)
       (KD._buckets T)
  /\ length (KD._nodes T) + 1 = 2 * length (KD._buckets T).
Proof.
  intros H. apply init_tree in H as (_ & t & Hv & ->).
  cbn [KD._data KD._n KD._nodes KD._buckets].
  split; [reflexivity |]. split; [reflexivity |].
  split; [eapply valid_perm; eauto |].
  split; [eapply valid_buckets; eauto |].
  rewrite enc_length. apply leaves_length.
Qed.

(** *** The distances of a point to a box *)

Lemma sq_mono (a b : Q) : (0 <= a <= b)%Q -> (a * a <= b * b)%Q.
Proof. intros [H1 H2]. nra. Qed.

Lemma sq_abs (a m : Q) : (a <= m)%Q -> (- a <= m)%Q -> (a * a <= m * m)%Q.
Proof. intros H1 H2. nra. Qed.

Lemma sq_zero (a : Q) : (0 * 0 <= a * a)%Q.
Proof. assert (0 <= a * a)%Q by nra. lra. Qed.

Lemma near1_le (p x l u : Q) :
  (l <= x <= u)%Q -> (KD.near1 p l u <= KD.sq (p - x))%Q.
Proof.
  intros [Hl Hu]. unfold KD.near1, KD.sq.
  pose proof (Q.le_max_l 0 (Qmax (p - u) (l - p))) as H0.
  destruct (Qmax_choice 0 (Qmax (p - u) (l - p))) as [E0 | E0];
    rewrite E0 in *.
  - apply sq_zero.
  - destruct (Qmax_choice (p - u) (l - p)) as [E | E]; rewrite E in *.
    + apply sq_mono. lra.
    + setoid_replace ((p - x) * (p - x))%Q with ((x - p) * (x - p))%Q
        by ring.
      apply sq_mono. lra.
Qed.

Lemma far1_ge (p x l u : Q) :
  (l <= x <= u)%Q -> (KD.sq (p - x) <= KD.far1 p l u)%Q.
Proof.
  intros [Hl Hu]. unfold KD.far1, KD.sq.
  pose proof (Q.le_max_l 0 (Qmax (u - p) (p - l))) as H0.
  pose proof (Q.le_max_r 0 (Qmax (u - p) (p - l))) as H1.
  pose proof (Q.le_max_l (u - p) (p - l)) as H2.
  pose proof (Q.le_max_r (u - p) (p - l)) as H3.
  set (m := Qmax 0 (Qmax (u - p) (p - l))) in *.
  apply sq_abs; lra.
Qed.

(** X8. The two distances used to prune and to accept a node bracket the
    squared distance to every point of the node's box: the near distance
    is a lower bound and the far distance an upper bound. *)
Theorem node_distance_bounds (pt x lb ub : KD.point) :
  (fst lb <= fst x <= fst ub)%Q ->
  (snd lb <= snd x <= snd ub)%Q ->
  (KD._pt_to_node_near_dist pt lb ub <= KD.sqdist pt x)%Q
  /\ (KD.sqdist pt x <= KD._pt_to_node_far_dist pt lb ub)%Q.
Proof.
  intros H1 H2.
  unfold KD._pt_to_node_near_dist, KD._pt_to_node_far_dist, KD.sqdist.
  pose proof (near1_le (fst pt) H1). pose proof (near1_le (snd pt) H2).
  pose proof (far1_ge (fst pt) H1). pose proof (far1_ge (snd pt) H2).
  split; lra.
Qed.

Lemma node_distance_bounds_witness :
  (KD._pt_to_node_near_dist (0%Q, 0%Q) (1%Q, 1%Q) (3%Q, 2%Q)
   <= KD.sqdist (0%Q, 0%Q) (1%Q, 2%Q))%Q
  /\ (KD.sqdist (0%Q, 0%Q) (1%Q, 2%Q)
      <= KD._pt_to_node_far_dist (0%Q, 0%Q) (1%Q, 1%Q) (3%Q, 2%Q))%Q.
Proof.
  apply (@node_distance_bounds (0%Q, 0%Q) (1%Q, 2%Q) (1%Q, 1%Q) (3%Q, 2%Q));
    cbn; split; unfold Qle; cbn; lia.
Defined.

(** *** The rows of the k-nearest search *)

Lemma Qopp_opp (q : Q) : (- - q)%Q = q.
Proof. destruct q as [n d]. unfold Qopp. cbn. now rewrite Z.opp_involutive. Qed.

Lemma heappush_perm (heap : list KD.entry) (x : KD.entry) :
  Permutation (KD.heappush heap x) (x :: heap).
Proof.
  induction heap as [| y heap IH]; cbn; [reflexivity |].
  destruct (KD.entry_ltb y x).
  - rewrite IH. apply perm_swap.
  - reflexivity.
Qed.

Lemma heappushpop_perm (heap heap' : list KD.entry) (x m : KD.entry) :
  KD.heappushpop heap x = (m, heap') -> Permutation (m :: heap') (x :: heap).
Proof.
  unfold KD.heappushpop. pose proof (heappush_perm heap x) as Hp.
  destruct (KD.heappush heap x) as [| m0 h0].
  - apply Permutation_nil in Hp. discriminate.
  - intros H. injection H as <- <-. exact Hp.
Qed.

Lemma get_z_In (A : Type) (l : list A) (z : Z) (x : A) :
  KD.get_z l z = Ok x -> In x l.
Proof.
  unfold KD.get_z, get.
  destruct (0 <=? z)%Z.
  - destruct (nth_error l (Z.to_nat z)) eqn:H; [| discriminate].
    intros E. injection E as <-. eapply nth_error_In; eauto.
  - destruct (0 <=? Z.of_nat (length l) + z)%Z; [| discriminate].
    destruct (nth_error l _) eqn:H; [| discriminate].
    intros E. injection E as <-. eapply nth_error_In; eauto.
Qed.

Section KNearestRows.

Variable t : KD.KDTree.
Variable pt : KD.point.
Variable count : nat.
Variable R : KD.limit.

(** A heap entry: the negated distance of a point of a bucket that lies
    strictly within the radius. *)
Definition good (e : KD.entry) : Prop :=
  fst e = (- dist (KD._data t) pt (snd e))%Q
  /\ KD.lt_limit (dist (KD._data t) pt (snd e)) R = true
  /\ In (snd e) (concat (KD._buckets t)).

Definition tighter (l : KD.limit) : Prop :=
  forall d, KD.lt_limit d l = true -> KD.lt_limit d R = true.

Definition knn_inv (st : list KD.entry * KD.limit) : Prop :=
  length (fst st) <= count /\ Forall good (fst st) /\ tighter (snd st).

Lemma leaf_step_inv (st : list KD.entry * KD.limit) (j : nat) :
  knn_inv st -> In j (concat (KD._buckets t)) ->
  knn_inv (KD.leaf_step (KD._data t) pt count st j).
Proof.
  destruct st as [heap lim]. intros (Hlen & Hgood & Htight) Hj.
  cbn [fst snd] in *. unfold KD.leaf_step.
  fold (dist (KD._data t) pt j).
  destruct (KD.lt_limit (dist (KD._data t) pt j) lim) eqn:Hlt;
    [| now repeat split].
  assert (Hnew : good ((- dist (KD._data t) pt j)%Q, j)).
  { repeat split; cbn [fst snd]; auto. }
  destruct (Nat.leb_spec count (length heap)) as [Hfull | Hroom].
  - destruct (KD.heappushpop heap ((- dist (KD._data t) pt j)%Q, j))
      as [popped heap'] eqn:Hpp.
    apply heappushpop_perm in Hpp.
    assert (Hall : Forall good (popped :: heap')).
    { eapply Permutation_Forall; [symmetry; exact Hpp |].
      now constructor. }
    inversion Hall as [| ? ? Hpop Hrest]; subst.
    apply Permutation_length in Hpp. cbn [length] in Hpp.
    repeat split; cbn [fst snd]; [lia | exact Hrest |].
    destruct Hpop as (Hfst & Hin & _). rewrite Hfst, Qopp_opp.
    intros d Hd. destruct R as [r |]; [| reflexivity].
    cbn [KD.lt_limit] in *. apply Qlt_bool_iff in Hd, Hin.
    apply Qlt_bool_iff. eapply Qlt_trans; eauto.
  - pose proof (heappush_perm heap ((- dist (KD._data t) pt j)%Q, j)) as Hp.
    repeat split; cbn [fst snd].
    + apply Permutation_length in Hp. cbn [length] in Hp. lia.
    + eapply Permutation_Forall; [symmetry; exact Hp |]. now constructor.
    + exact Htight.
Qed.

Lemma leaf_inv (indices : list nat) (st : list KD.entry * KD.limit) :
  knn_inv st ->
  Forall (fun j => In j (concat (KD._buckets t))) indices ->
  knn_inv (fold_left (KD.leaf_step (KD._data t) pt count) indices st).
Proof.
  intros Hst Hall. revert st Hst.
  induction Hall as [| j indices Hj _ IH]; intros st Hst; cbn [fold_left];
    [exact Hst |].
  apply IH. now apply leaf_step_inv.
Qed.

Lemma knn_loop_inv (fuel : nat) :
  forall (stack : list (nat * Q)) (st : list KD.entry * KD.limit)
         (res : list KD.entry),
    knn_inv st ->
    KD.knn_loop fuel t pt count stack st = Some (Ok res) ->
    length res <= count /\ Forall good res.
Proof.
  induction fuel as [| fuel IH]; intros stack st res Hst.
  - destruct stack as [| [i d] stack]; [| discriminate].
    cbn. intros H. injection H as <-. destruct Hst as (H1 & H2 & _). auto.
  - destruct stack as [| [i d] stack].
    { cbn. intros H. injection H as <-. destruct Hst as (H1 & H2 & _). auto. }
    cbn [KD.knn_loop].
    destruct (KD.gt_limit d (snd st)); [now apply IH |].
    destruct (get (KD._nodes t) i) as [nd |]; [| discriminate].
    destruct (KD.size nd =? 1).
    + destruct (KD.get_z (KD._buckets t) (KD.bucket nd)) as [indices |] eqn:Hb;
        [| discriminate].
      apply IH. apply leaf_inv; [exact Hst |].
      apply get_z_In in Hb. apply Forall_forall. intros j Hj.
      apply in_concat. eauto.
    + destruct (KD.children (KD._nodes t) pt i) as [cs |]; [| discriminate].
      now apply IH.
Qed.

End KNearestRows.

(** X9. The k-nearest search, whatever the tree it is run on: when
    [search] is asked for fewer points than the tree holds and returns,
    it returns at most [count] rows; every row names a point of a bucket
    and carries the squared distance of that point to the query point,
    and this distance is strictly smaller than the squared radius. *)
Theorem k_nearest_rows (t : KD.KDTree) (pt : KD.point) (count : Z)
  (radius : option Q) (sort : bool) (rows : list KD.neighbour) :
  (count < Z.of_nat (KD._n t))%Z ->
  KD.search t pt (Some count) radius sort = Some (Ok rows) ->
  (Z.of_nat (length rows) <= Z.max 0 count)%Z
  /\ Forall (fun r =>
               is_row (KD._data t) pt r
               /\ KD.strictly_within radius r = true
               /\ In (snd r) (concat (KD._buckets t))) rows.
Proof.
  intros Hn. unfold KD.search.
  destruct (Z.ltb_spec count 1) as [Hc | Hc].
  { intros H. injection H as <-. split; [cbn; lia | constructor]. }
  destruct (match radius with
            | Some r => KD.Qlt_bool r 0
            | None => false
            end).
  { intros H. injection H as <-. split; [cbn; lia | constructor]. }
  destruct (Z.leb_spec (Z.of_nat (KD._n t)) count) as [| _]; [lia |].
  unfold KD._search_k_nearests.
  destruct (KD.root_stack t pt) as [stack |]; [| discriminate].
  destruct (KD.knn_loop _ t pt (Z.to_nat count) stack _)
    as [[nearests |] |] eqn:Hloop; try discriminate.
  apply knn_loop_inv with (R := option_map KD.sq radius) in Hloop.
  2: { split; [cbn; lia | split; [constructor | intros d Hd; exact Hd]]. }
  destruct Hloop as [Hlen Hgood].
  set (out := map (fun e => ((- fst e)%Q, snd e)) nearests).
  assert (Hout : length out <= Z.to_nat count
                 /\ Forall (fun r =>
                              is_row (KD._data t) pt r
                              /\ KD.strictly_within radius r = true
                              /\ In (snd r) (concat (KD._buckets t))) out).
  { subst out. rewrite length_map. split; [exact Hlen |].
    apply Forall_map. eapply Forall_impl; [| exact Hgood].
    intros [d j] (Hd & Hlt & Hin). cbn [fst snd] in *.
    subst d. rewrite Qopp_opp. repeat split; auto. }
  destruct Hout as [Hl Hf]. clearbody out.
  intros H. injection H as <-. destruct sort.
  - split.
    + rewrite np_sort_length. unfold KD.neighbour. lia.
    + eapply Permutation_Forall; [symmetry; apply np_sort_perm | exact Hf].
  - split; [unfold KD.neighbour in *; lia | exact Hf].
Qed.

(** *** Points that cannot be split *)

Lemma take_all (data : list KD.point) :
  KD.take data (seq 0 (length data)) = data.
Proof.
  unfold KD.take. induction data as [| x data IH]; [reflexivity |].
  cbn [length seq map nth]. f_equal.
  rewrite <- seq_shift, map_map. exact IH.
Qed.

Lemma pmin_same (p : KD.point) : KD.pmin p p = p.
Proof.
  destruct p as [a b]. unfold KD.pmin. cbn [fst snd].
  assert (Ha : Qmin a a = a) by (destruct (Qmin_choice a a); assumption).
  assert (Hb : Qmin b b = b) by (destruct (Qmin_choice b b); assumption).
  now rewrite Ha, Hb.
Qed.

Lemma pmax_same (p : KD.point) : KD.pmax p p = p.
Proof.
  destruct p as [a b]. unfold KD.pmax. cbn [fst snd].
  assert (Ha : Qmax a a = a) by (destruct (Qmax_choice a a); assumption).
  assert (Hb : Qmax b b = b) by (destruct (Qmax_choice b b); assumption).
  now rewrite Ha, Hb.
Qed.

Lemma fold_same (f : KD.point -> KD.point -> KD.point) (p : KD.point)
  (n : nat) :
  f p p = p -> fold_left f (repeat p n) p = p.
Proof.
  intros Hf. induction n as [| n IH]; cbn [repeat fold_left];
    [reflexivity |].
  now rewrite Hf.
Qed.

Lemma left_of_same (p : KD.point) (n axis : nat) (indices : list nat) :
  Forall (fun k => k < n) indices ->
  KD.left_of (repeat p n) axis
    ((KD.coord axis p + KD.coord axis p) / 2)%Q indices = indices.
Proof.
  intros Hall. unfold KD.left_of.
  induction Hall as [| k indices Hk _ IH]; cbn [filter]; [reflexivity |].
  assert (Hp : nth k (repeat p n) (0%Q, 0%Q) = p).
  { rewrite (nth_indep _ _ p) by now rewrite repeat_length.
    apply nth_repeat. }
  rewrite Hp.
  assert (Hle : Qle_bool (KD.coord axis p)
                  ((KD.coord axis p + KD.coord axis p) / 2) = true).
  { apply Qle_bool_iff. apply Qle_shift_div_l; [reflexivity | lra]. }
  rewrite Hle. now rewrite IH.
Qed.

(** X10. A set of points that are all the same point and do not fit one
    bucket cannot be split: the left half of every split is the whole
    set, and the construction of the tree does not end, however many
    iterations it is given. *)
Theorem build_diverges (p : KD.point) (n : nat) (bucket_size : Z)
  (fuel : nat) :
  (1 <= bucket_size < Z.of_nat n)%Z ->
  KD.init fuel (repeat p n) bucket_size = None.
Proof.
  intros [Hb Hn]. unfold KD.init.
  destruct (Z.ltb_spec bucket_size 1) as [| _]; [lia |].
  unfold KD._build.
  destruct n as [| n]; [cbn in Hn; lia |].
  rewrite (@build_stuck (repeat p (S n)) bucket_size fuel
             (seq 0 (length (repeat p (S n)))) None [] [] [] [] 0 p p).
  - reflexivity.
  - rewrite take_all. cbn [repeat KD.amin]. f_equal.
    apply fold_same, pmin_same.
  - rewrite take_all. cbn [repeat KD.amax]. f_equal.
    apply fold_same, pmax_same.
  - rewrite take_all, repeat_length. apply Z.leb_gt. lia.
  - unfold KD.split_of. cbn [fst snd].
    apply left_of_same. rewrite repeat_length.
    apply Forall_forall. intros k Hk. apply in_seq in Hk. lia.
Qed.

Lemma build_diverges_witness :
  KD.init 100 (repeat (1%Q, 2%Q) 3) 2 = None.
Proof. apply (@build_diverges (1%Q, 2%Q) 3 2 100). lia. Defined.

(** *** Subtrees in the arrays *)

Definition root_node (t : tree) (b0 : nat) : KD.Node :=
  match t with
  | Leaf _ lb ub => KD.mkNode 1 (Z.of_nat b0) lb ub
  | Branch lb ub _ _ => KD.mkNode (tsize t) (-1) lb ub
  end.

Lemma enc_root (t : tree) (b0 : nat) :
  exists rest, enc t b0 = root_node t b0 :: rest.
Proof. destruct t; cbn; eauto. Qed.

Lemma tsize_pos (t : tree) : 1 <= tsize t.
Proof. destruct t; cbn; lia. Qed.

Lemma root_size (t : tree) (b0 : nat) : KD.size (root_node t b0) = tsize t.
Proof. destruct t; reflexivity. Qed.

Lemma root_bounds (t : tree) (b0 : nat) :
  KD.lower_bounds (root_node t b0) = lower t
  /\ KD.upper_bounds (root_node t b0) = upper t.
Proof. destruct t; split; reflexivity. Qed.

(** The subtree [t] has its nodes from position [off] on and its buckets
    from bucket [b0] on. *)
Definition located (T : KD.KDTree) (t : tree) (off b0 : nat) : Prop :=
  exists pre post bpre bpost,
    KD._nodes T = pre ++ enc t b0 ++ post /\ length pre = off
    /\ KD._buckets T = bpre ++ leaves t ++ bpost /\ length bpre = b0.

Lemma get_at (A : Type) (l l' : list A) (a : A) (n : nat) :
  length l = n -> get (l ++ a :: l') n = Ok a.
Proof.
  intros <-. unfold get.
  rewrite nth_error_app2, Nat.sub_diag by lia. reflexivity.
Qed.

Lemma get_z_nat (A : Type) (l : list A) (b : nat) :
  KD.get_z l (Z.of_nat b) = get l b.
Proof.
  unfold KD.get_z. destruct (Z.leb_spec 0 (Z.of_nat b)); [| lia].
  now rewrite Nat2Z.id.
Qed.

Lemma located_get (T : KD.KDTree) (t : tree) (off b0 : nat) :
  located T t off b0 -> get (KD._nodes T) off = Ok (root_node t b0).
Proof.
  intros (pre & post & _ & _ & Hn & Hoff & _).
  destruct (enc_root t b0) as (rest & Hr).
  rewrite Hn, Hr. cbn [app]. now apply get_at.
Qed.

Ltac norm_app :=
  repeat first [rewrite <- app_assoc | progress cbn [app]].

Lemma located_children (T : KD.KDTree) (lb ub : KD.point) (l r : tree)
  (off b0 : nat) :
  located T (Branch lb ub l r) off b0 ->
  located T l (off + 1) b0
  /\ located T r (off + 1 + tsize l) (b0 + length (leaves l)).
Proof.
  intros (pre & post & bpre & bpost & Hn & Hoff & Hb & Hb0).
  cbn [enc leaves] in *. split.
  - exists (pre ++ [KD.mkNode (1 + tsize l + tsize r) (-1) lb ub]),
      (enc r (b0 + length (leaves l)) ++ post), bpre, (leaves r ++ bpost).
    repeat split.
    + rewrite Hn. norm_app. reflexivity.
    + rewrite length_app. cbn. lia.
    + rewrite Hb. norm_app. reflexivity.
    + exact Hb0.
  - exists (pre ++ KD.mkNode (1 + tsize l + tsize r) (-1) lb ub :: enc l b0),
      post, (bpre ++ leaves l), bpost.
    repeat split.
    + rewrite Hn. norm_app. reflexivity.
    + rewrite length_app. cbn [length]. rewrite enc_length. lia.
    + rewrite Hb. norm_app. reflexivity.
    + rewrite length_app. lia.
Qed.

Lemma located_bucket (T : KD.KDTree) (idx : list nat) (lb ub : KD.point)
  (off b0 : nat) :
  located T (Leaf idx lb ub) off b0 ->
  KD.get_z (KD._buckets T) (Z.of_nat b0) = Ok idx.
Proof.
  intros (_ & _ & bpre & bpost & _ & _ & Hb & Hb0).
  rewrite get_z_nat, Hb. cbn [leaves app]. now apply get_at.
Qed.

Lemma located_slice (T : KD.KDTree) (t : tree) (off b0 : nat) :
  located T t off b0 ->
  slice (KD._nodes T) off (off + tsize t) = enc t b0.
Proof.
  intros (pre & post & _ & _ & Hn & Hoff & _).
  rewrite Hn, <- Hoff.
  replace (length pre) with (length pre + 0) at 1 by lia.
  rewrite ListFacts.slice_app_mid by (rewrite enc_length; lia).
  unfold slice. rewrite Nat.sub_0_r. cbn [skipn].
  apply firstn_all2. rewrite enc_length. lia.
Qed.

Lemma gather_app (buckets : list (list nat)) (l1 l2 : list KD.Node) :
  KD.gather buckets (l1 ++ l2)
  = (a <- KD.gather buckets l1 ;;
     b <- KD.gather buckets l2 ;;
     Ok (a ++ b)).
Proof.
  induction l1 as [| nd l1 IH]; cbn [app KD.gather].
  - cbn [bind]. destruct (KD.gather buckets l2); reflexivity.
  - destruct (KD.get_z buckets (KD.bucket nd)) as [indices |];
      [| reflexivity].
    cbn [bind]. rewrite IH.
    destruct (KD.gather buckets l1) as [a |]; [| reflexivity].
    cbn [bind].
    destruct (KD.gather buckets l2) as [b |]; [| reflexivity].
    cbn [bind]. now rewrite app_assoc.
Qed.

Lemma gather_enc (buckets : list (list nat)) (t : tree) :
  forall b0 bpre bpost,
    buckets = bpre ++ leaves t ++ bpost -> length bpre = b0 ->
    KD.gather buckets (filter (fun c => KD.size c =? 1) (enc t b0))
    = Ok (concat (leaves t)).
Proof.
  induction t as [idx lb ub | lb ub l IHl r IHr];
    intros b0 bpre bpost Hb Hb0.
  - cbn [enc filter KD.size Nat.eqb KD.gather KD.bucket leaves concat].
    rewrite get_z_nat, Hb. cbn [leaves app].
    rewrite (@get_at _ _ _ _ _ Hb0). reflexivity.
  - cbn [enc filter KD.size leaves] in *.
    pose proof (tsize_pos l). pose proof (tsize_pos r).
    destruct (Nat.eqb_spec (tsize (Branch lb ub l r)) 1) as [E | _];
      [cbn [tsize] in E; lia |].
    rewrite filter_app, gather_app.
    rewrite (IHl b0 bpre (leaves r ++ bpost))
      by (rewrite ?Hb, <- ?app_assoc; auto).
    cbn [bind].
    rewrite (IHr (b0 + length (leaves l)) (bpre ++ leaves l) bpost).
    + cbn [bind]. now rewrite concat_app.
    + rewrite Hb, <- !app_assoc. reflexivity.
    + rewrite length_app. lia.
Qed.

Lemma located_gather (T : KD.KDTree) (t : tree) (off b0 : nat) :
  located T t off b0 ->
  KD.gather (KD._buckets T)
    (filter (fun c => KD.size c =? 1)
       (slice (KD._nodes T) off (off + tsize t)))
  = Ok (concat (leaves t)).
Proof.
  intros Hl. rewrite (located_slice Hl).
  destruct Hl as (_ & _ & bpre & bpost & _ & _ & Hb & Hb0).
  eapply gather_enc; eauto.
Qed.

(** *** The search of all the points within a radius *)

Section RadiusSearch.

Variable T : KD.KDTree.
Variable pt : KD.point.
Variable R : KD.limit.

Definition near (t : tree) : Q :=
  KD._pt_to_node_near_dist pt (lower t) (upper t).

Definition far (t : tree) : Q :=
  KD._pt_to_node_far_dist pt (lower t) (upper t).

Definition leaf_rows (indices : list nat) : list (option Q * nat) :=
  map (fun dj => (Some (fst dj), snd dj))
    (filter (fun dj => KD.le_limit (fst dj) R)
       (map (fun j => (KD.sqdist pt (nth j (KD._data T) (0%Q, 0%Q)), j))
          indices)).

(** The search as a recursion on the tree: what the loop does from the
    moment it pops the root of [t] to the moment it is left with the
    rest of the stack. *)
Fixpoint rad_tree (t : tree) (acc : list (option Q * nat))
  : list (option Q * nat) :=
  if KD.gt_limit (near t) R then acc
  else if KD.le_limit (far t) R
       then acc ++ map (fun j => (None, j)) (concat (leaves t))
       else match t with
            | Leaf indices _ _ => acc ++ leaf_rows indices
            | Branch _ _ l r =>
                if Qle_bool (near l) (near r)
                then rad_tree r (rad_tree l acc)
                else rad_tree l (rad_tree r acc)
            end.

Lemma located_children_nodes (lb ub : KD.point) (l r : tree)
  (off b0 : nat) :
  located T (Branch lb ub l r) off b0 ->
  KD.children (KD._nodes T) pt off
  = Ok (if Qle_bool (near l) (near r)
        then [(off + 1, near l); (off + 1 + tsize l, near r)]
        else [(off + 1 + tsize l, near r); (off + 1, near l)]).
Proof.
  intros Hloc. destruct (located_children Hloc) as [Hl Hr].
  unfold KD.children.
  rewrite (located_get Hl). cbn [bind]. rewrite root_size.
  rewrite (located_get Hr). cbn [bind].
  destruct (root_bounds l b0) as [-> ->].
  destruct (root_bounds r (b0 + length (leaves l))) as [-> ->].
  fold (near l). fold (near r).
  destruct (Qle_bool (near l) (near r)); reflexivity.
Qed.

Lemma rad_loop_tree (t : tree) :
  forall off b0,
    located T t off b0 ->
    exists k,
      1 <= k <= tsize t
      /\ forall fuel stack acc,
          KD.radius_loop (k + fuel) T pt R ((off, near t) :: stack) acc
          = KD.radius_loop fuel T pt R stack (rad_tree t acc).
Proof.
  induction t as [idx lb ub | lb ub l IHl r IHr]; intros off b0 Hloc.
  - exists 1. split; [cbn; lia |]. intros fuel stack acc.
    cbn [Nat.add KD.radius_loop rad_tree].
    destruct (KD.gt_limit (near (Leaf idx lb ub)) R); [reflexivity |].
    rewrite (located_get Hloc).
    cbn [root_node KD.lower_bounds KD.upper_bounds KD.size KD.bucket].
    change (KD._pt_to_node_far_dist pt lb ub) with (far (Leaf idx lb ub)).
    destruct (KD.le_limit (far (Leaf idx lb ub)) R).
    + pose proof (located_gather Hloc) as Hg. cbn [tsize] in Hg.
      rewrite Hg. reflexivity.
    + cbn [Nat.eqb]. rewrite (located_bucket Hloc). reflexivity.
  - pose proof (located_children Hloc) as [Hl Hr].
    destruct (IHl _ _ Hl) as (k1 & Hk1 & Hloop1).
    destruct (IHr _ _ Hr) as (k2 & Hk2 & Hloop2).
    pose proof (located_get Hloc) as Hget.
    pose proof (located_gather Hloc) as Hg.
    pose proof (located_children_nodes Hloc) as Hch.
    pose proof (tsize_pos l) as Hsl. pose proof (tsize_pos r) as Hsr.
    assert (Hsz : (tsize (Branch lb ub l r) =? 1) = false).
    { apply Nat.eqb_neq. cbn [tsize]. lia. }
    assert (Hbr : forall acc,
      rad_tree (Branch lb ub l r) acc
      = if KD.gt_limit (near (Branch lb ub l r)) R then acc
        else if KD.le_limit (far (Branch lb ub l r)) R
             then acc ++ map (fun j => (None, j))
                           (concat (leaves (Branch lb ub l r)))
             else if Qle_bool (near l) (near r)
                  then rad_tree r (rad_tree l acc)
                  else rad_tree l (rad_tree r acc)) by reflexivity.
    assert (Hstep : forall fuel stack acc,
      KD.radius_loop (S fuel) T pt R
        ((off, near (Branch lb ub l r)) :: stack) acc
      = if KD.gt_limit (near (Branch lb ub l r)) R
        then KD.radius_loop fuel T pt R stack acc
        else if KD.le_limit (far (Branch lb ub l r)) R
             then KD.radius_loop fuel T pt R stack
                    (acc ++ map (fun j => (None, j))
                              (concat (leaves (Branch lb ub l r))))
             else KD.radius_loop fuel T pt R
                    ((if Qle_bool (near l) (near r)
                      then [(off + 1, near l); (off + 1 + tsize l, near r)]
                      else [(off + 1 + tsize l, near r); (off + 1, near l)])
                     ++ stack) acc).
    { intros fuel stack acc. cbn [KD.radius_loop].
      destruct (KD.gt_limit (near (Branch lb ub l r)) R); [reflexivity |].
      rewrite Hget.
      change (KD.lower_bounds (root_node (Branch lb ub l r) b0)) with lb.
      change (KD.upper_bounds (root_node (Branch lb ub l r) b0)) with ub.
      change (KD.size (root_node (Branch lb ub l r) b0))
        with (tsize (Branch lb ub l r)).
      change (KD._pt_to_node_far_dist pt lb ub)
        with (far (Branch lb ub l r)).
      destruct (KD.le_limit (far (Branch lb ub l r)) R).
      - rewrite Hg. reflexivity.
      - rewrite Hsz, Hch. reflexivity. }
    assert (Hts : tsize (Branch lb ub l r) = 1 + tsize l + tsize r)
      by reflexivity.
    clear Hloc Hget Hg Hch Hsz.
    remember (Branch lb ub l r) as t eqn:Et. clear Et.
    assert (Hpruned :
      KD.gt_limit (near t) R = true
      \/ (KD.gt_limit (near t) R = false /\ KD.le_limit (far t) R = true)
      \/ (KD.gt_limit (near t) R = false /\ KD.le_limit (far t) R = false)).
    { destruct (KD.gt_limit (near t) R); destruct (KD.le_limit (far t) R);
        auto. }
    destruct Hpruned as [Hp | [[Hp Hw] | [Hp Hw]]].
    + exists 1. split; [lia |]. intros fuel stack acc.
      change (1 + fuel) with (S fuel). rewrite Hstep, Hbr, Hp. reflexivity.
    + exists 1. split; [lia |]. intros fuel stack acc.
      change (1 + fuel) with (S fuel). rewrite Hstep, Hbr, Hp, Hw.
      reflexivity.
    + exists (1 + k1 + k2). split; [lia |].
      intros fuel stack acc.
      replace (1 + k1 + k2 + fuel) with (S (k1 + k2 + fuel)) by lia.
      rewrite Hstep, Hbr, Hp, Hw.
      destruct (Qle_bool (near l) (near r)); cbn [app].
      * replace (k1 + k2 + fuel) with (k1 + (k2 + fuel)) by lia.
        rewrite Hloop1. apply Hloop2.
      * replace (k1 + k2 + fuel) with (k2 + (k1 + fuel)) by lia.
        rewrite Hloop2. apply Hloop1.
Qed.

End RadiusSearch.

Lemma filter_permutation (A : Type) (f : A -> bool) (l l' : list A) :
  Permutation l l' -> Permutation (filter f l) (filter f l').
Proof.
  induction 1 as [| x l l' _ IH | x y l | l l' l'' _ IH1 _ IH2]; cbn.
  - constructor.
  - destruct (f x); [now constructor | exact IH].
  - destruct (f x), (f y); try reflexivity. apply perm_swap.
  - etransitivity; eauto.
Qed.

Lemma filter_every (A : Type) (f : A -> bool) (l : list A) :
  (forall x, In x l -> f x = true) -> filter f l = l.
Proof.
  induction l as [| x l IH]; intros H; cbn; [reflexivity |].
  rewrite (H x (or_introl eq_refl)), IH; [reflexivity |].
  intros y Hy. apply H. now right.
Qed.

Lemma filter_none (A : Type) (f : A -> bool) (l : list A) :
  (forall x, In x l -> f x = false) -> filter f l = [].
Proof.
  induction l as [| x l IH]; intros H; cbn; [reflexivity |].
  rewrite (H x (or_introl eq_refl)). apply IH.
  intros y Hy. apply H. now right.
Qed.

(** A node farther than the radius holds no point within it, and a node
    wholly nearer than the radius holds only such points. *)
Lemma pruned_limit (a d : Q) (R : KD.limit) :
  KD.gt_limit a R = true -> (a <= d)%Q -> KD.le_limit d R = false.
Proof.
  destruct R as [r |]; cbn; [| discriminate].
  intros H Hle. apply Qlt_bool_iff in H.
  destruct (Qle_bool d r) eqn:E; [| reflexivity].
  apply Qle_bool_iff in E. lra.
Qed.

Lemma accepted_limit (b d : Q) (R : KD.limit) :
  KD.le_limit b R = true -> (d <= b)%Q -> KD.le_limit d R = true.
Proof.
  destruct R as [r |]; cbn; [| reflexivity].
  intros H Hle. apply Qle_bool_iff in H. apply Qle_bool_iff. lra.
Qed.

Section RadiusRows.

Variable data : list KD.point.
Variable bucket_size : Z.
Variable T : KD.KDTree.
Variable pt : KD.point.
Variable R : KD.limit.

Hypothesis T_data : KD._data T = data.

Definition in_radius (x : KD.neighbour) : bool := KD.le_limit (fst x) R.

Lemma subtree_distances (t : tree) (indices : list nat) (j : nat) :
  valid data bucket_size t indices ->
  In j (concat (leaves t)) ->
  (near pt t <= dist data pt j)%Q /\ (dist data pt j <= far pt t)%Q.
Proof.
  intros Hv Hj.
  destruct (@valid_box data bucket_size t indices j Hv Hj) as [H1 H2].
  unfold near, far, dist, KD._pt_to_node_near_dist, KD._pt_to_node_far_dist,
    KD.sqdist.
  fold (row_point data j).
  pose proof (near1_le (fst pt) H1). pose proof (near1_le (snd pt) H2).
  pose proof (far1_ge (fst pt) H1). pose proof (far1_ge (snd pt) H2).
  split; lra.
Qed.

Lemma fill_leaf_rows (indices : list nat) :
  map (KD.fill_distance data pt) (leaf_rows T pt R indices)
  = filter in_radius (map (row data pt) indices).
Proof.
  unfold leaf_rows. rewrite T_data, map_map.
  erewrite map_ext; [apply map_id |].
  intros [d j]. reflexivity.
Qed.

Lemma fill_whole (l : list nat) :
  map (KD.fill_distance data pt) (map (fun j => (None, j)) l)
  = map (row data pt) l.
Proof. rewrite map_map. reflexivity. Qed.

Lemma rad_tree_eq (t : tree) (acc : list (option Q * nat)) :
  rad_tree T pt R t acc
  = if KD.gt_limit (near pt t) R then acc
    else if KD.le_limit (far pt t) R
         then acc ++ map (fun j => (None, j)) (concat (leaves t))
         else match t with
              | Leaf indices _ _ => acc ++ leaf_rows T pt R indices
              | Branch _ _ l r =>
                  if Qle_bool (near pt l) (near pt r)
                  then rad_tree T pt R r (rad_tree T pt R l acc)
                  else rad_tree T pt R l (rad_tree T pt R r acc)
              end.
Proof. destruct t; reflexivity. Qed.

(** The rows found in a subtree are the rows of its points that lie
    within the radius. *)
Lemma rad_tree_rows (t : tree) :
  forall indices acc,
    valid data bucket_size t indices ->
    Permutation
      (map (KD.fill_distance data pt) (rad_tree T pt R t acc))
      (map (KD.fill_distance data pt) acc
       ++ filter in_radius (map (row data pt) (concat (leaves t)))).
Proof.
  induction t as [idx lb ub | lb ub l IHl r IHr]; intros indices acc Hv;
    pose proof (fun j => @subtree_distances _ indices j Hv) as Hd;
    rewrite rad_tree_eq.
  - destruct (KD.gt_limit (near pt (Leaf idx lb ub)) R) eqn:Hp.
    { rewrite filter_none; [now rewrite app_nil_r |].
      intros x Hx. apply in_map_iff in Hx as (j & <- & Hj).
      eapply pruned_limit; [exact Hp | apply Hd, Hj]. }
    destruct (KD.le_limit (far pt (Leaf idx lb ub)) R) eqn:Hw.
    { rewrite map_app, fill_whole, filter_every; [reflexivity |].
      intros x Hx. apply in_map_iff in Hx as (j & <- & Hj).
      eapply accepted_limit; [exact Hw | apply Hd, Hj]. }
    rewrite map_app, fill_leaf_rows. cbn [leaves concat].
    now rewrite app_nil_r.
  - destruct (KD.gt_limit (near pt (Branch lb ub l r)) R) eqn:Hp.
    { rewrite filter_none; [now rewrite app_nil_r |].
      intros x Hx. apply in_map_iff in Hx as (j & <- & Hj).
      eapply pruned_limit; [exact Hp | apply Hd, Hj]. }
    destruct (KD.le_limit (far pt (Branch lb ub l r)) R) eqn:Hw.
    { rewrite map_app, fill_whole, filter_every; [reflexivity |].
      intros x Hx. apply in_map_iff in Hx as (j & <- & Hj).
      eapply accepted_limit; [exact Hw | apply Hd, Hj]. }
    destruct Hv as (_ & _ & _ & Hl & Hr).
    cbn [leaves]. rewrite concat_app, map_app, filter_app.
    destruct (Qle_bool (near pt l) (near pt r)).
    + rewrite (IHr _ (rad_tree T pt R l acc) Hr).
      rewrite (IHl _ acc Hl). now rewrite app_assoc.
    + rewrite (IHl _ (rad_tree T pt R r acc) Hl).
      rewrite (IHr _ acc Hr). rewrite <- !app_assoc.
      apply Permutation_app_head, Permutation_app_comm.
Qed.

End RadiusRows.

Lemma located_whole (T : KD.KDTree) (t : tree) :
  KD._nodes T = enc t 0 -> KD._buckets T = leaves t -> located T t 0 0.
Proof.
  intros Hn Hb. exists [], [], [], [].
  rewrite Hn, Hb. cbn [app length]. now rewrite !app_nil_r.
Qed.

(** The search of all the points within a radius returns, on a built
    tree, with the rows of the points of the data that lie within the
    radius. *)
Lemma search_all_rows (fuel : nat) (data : list KD.point) (bucket_size : Z)
  (T : KD.KDTree) (pt : KD.point) (radius : option Q) (sort : bool) :
  KD.init fuel data bucket_size = Some (Ok T) ->
  exists out,
    KD._search_all_within_radius T pt radius sort
    = Some (Ok (if sort then KD.np_sort out else out))
    /\ Permutation out (filter (KD.within radius) (KD.all_rows data pt)).
Proof.
  intros Hinit. apply init_tree in Hinit as (_ & t & Hv & HT).
  assert (Hdata : KD._data T = data) by (subst T; reflexivity).
  assert (Hloc : located T t 0 0)
    by (apply located_whole; subst T; reflexivity).
  assert (Hlen : length (KD._nodes T) = tsize t)
    by (subst T; cbn [KD._nodes]; apply enc_length).
  clear HT.
  unfold KD._search_all_within_radius, KD.root_stack.
  rewrite (located_get Hloc). cbn [bind].
  destruct (root_bounds t 0) as [-> ->]. fold (near pt t).
  destruct (@rad_loop_tree T pt (option_map KD.sq radius) t 0 0 Hloc)
    as (k & Hk & Hloop).
  rewrite Hlen.
  replace (tsize t) with (k + (tsize t - k)) by lia.
  rewrite Hloop. destruct (tsize t - k); cbn [KD.radius_loop].
  all: rewrite Hdata; eexists; split; [reflexivity |].
  all: rewrite (@rad_tree_rows data bucket_size T pt
                  (option_map KD.sq radius) Hdata t _ [] Hv).
  all: cbn [map app]; apply filter_permutation.
  all: unfold KD.all_rows; apply Permutation_map.
  all: eapply valid_perm; exact Hv.
Qed.


(** X20. Asked for all the points, or for at least as many points as
    there are, a search on a built tree returns, and it returns exactly
    the points within the radius: one row for every point of the data
    whose squared distance to the query point is at most the radius
    squared (every point when there is no radius), each with its index
    and this squared distance, and no other row; sorted, they come in
    ascending order of the distance and then of the index. *)
Theorem search_all_within_radius (fuel : nat) (data : list KD.point)
  (bucket_size : Z) (T : KD.KDTree) (pt : KD.point) (count : option Z)
  (radius : option Q) (sort : bool) :
  KD.init fuel data bucket_size = Some (Ok T) ->
  match count with
  | None => True
  | Some c => (Z.of_nat (length data) <= c)%Z
  end ->
  match radius with
  | None => True
  | Some r => (0 <= r)%Q
  end ->
  exists rows,
    KD.search T pt count radius sort = Some (Ok rows)
    /\ Permutation rows (filter (KD.within radius) (KD.all_rows data pt))
    /\ (sort = true ->
        rows = KD.np_sort (filter (KD.within radius) (KD.all_rows data pt))).
Proof.
  intros Hinit Hc Hr.
  destruct (@search_all_rows fuel data bucket_size T pt radius sort Hinit)
    as (out & Hs & Hp).
  apply init_tree in Hinit as (_ & t & Hv & HT).
  assert (Hn : KD._n T = length data) by (subst T; reflexivity).
  assert (Hpos : 1 <= length data).
  { destruct (@valid_bounds data bucket_size t _ Hv) as [Hmin _].
    destruct data; [discriminate Hmin | cbn; lia]. }
  assert (Hrows : Forall (is_row data pt)
                    (filter (KD.within radius) (KD.all_rows data pt))).
  { apply Forall_forall. intros x Hx. apply filter_In in Hx as [Hx _].
    pose proof (is_row_map data pt (seq 0 (length data))) as Hall.
    rewrite Forall_forall in Hall. apply Hall, Hx. }
  exists (if sort then KD.np_sort out else out).
  split.
  - unfold KD.search. rewrite Hn.
    assert (Hneg : match radius with
                   | Some r => KD.Qlt_bool r 0
                   | None => false
                   end = false).
    { destruct radius as [r |]; [| reflexivity]. now apply Qlt_bool_false. }
    destruct count as [c |].
    + destruct (Z.ltb_spec c 1) as [| _]; [lia |].
      rewrite Hneg.
      destruct (Z.leb_spec (Z.of_nat (length data)) c) as [_ |]; [| lia].
      exact Hs.
    + rewrite Hneg, Z.leb_refl. exact Hs.
  - split.
    + destruct sort; [rewrite np_sort_perm |]; exact Hp.
    + intros ->. symmetry.
      apply (@np_sort_permutation data pt); [exact Hrows |].
      symmetry. exact Hp.
Qed.

(** *** The search of the nearest points *)

Section KNearest.

Variable data : list KD.point.
Variable bucket_size : Z.
Variable T : KD.KDTree.
Variable pt : KD.point.
Variable count : nat.
Variable R0 : KD.limit.

Hypothesis T_data : KD._data T = data.





















End KNearest.








(** *** A tree of five points in buckets of two *)

Definition demo_data : list KD.point :=
  [(0%Q, 0%Q); (1%Q, 0%Q); (5%Q, 5%Q); (6%Q, 5%Q); (2%Q, 1%Q)].

Definition empty_tree : KD.KDTree :=
  {| KD._data := []; KD._n := 0; KD._nodes := []; KD._buckets := [];
     KD._bucket_size := 1 |}.

Definition demo_tree : KD.KDTree :=
  Eval vm_compute in
    match KD.init 10 demo_data 2 with
    | Some (Ok t) => t
    | _ => empty_tree
    end.

Definition demo_rows : list KD.neighbour :=
  Eval vm_compute in
    match KD.search demo_tree (0%Q, 0%Q) (Some 2%Z) (Some 3%Q) true with
    | Some (Ok rows) => rows
    | _ => []
    end.

Example demo_tree_built : KD.init 10 demo_data 2 = Some (Ok demo_tree).
Proof. vm_compute. reflexivity. Qed.

Example demo_rows_indices : map snd demo_rows = [0; 1].
Proof. reflexivity. Qed.

Lemma k_nearest_rows_witness :
  (Z.of_nat (length demo_rows) <= Z.max 0 2)%Z
  /\ Forall (fun r =>
               is_row (KD._data demo_tree) (0%Q, 0%Q) r
               /\ KD.strictly_within (Some 3%Q) r = true
               /\ In (snd r) (concat (KD._buckets demo_tree))) demo_rows.
Proof.
  apply (@k_nearest_rows demo_tree (0%Q, 0%Q) 2 (Some 3%Q) true demo_rows).
  - cbn. lia.
  - vm_compute. reflexivity.
Defined.

Lemma search_all_within_radius_witness :
  exists rows,
    KD.search demo_tree (0%Q, 0%Q) None (Some 3%Q) true = Some (Ok rows)
    /\ Permutation rows
         (filter (KD.within (Some 3%Q)) (KD.all_rows demo_data (0%Q, 0%Q)))
    /\ (true = true ->
        rows = KD.np_sort
                 (filter (KD.within (Some 3%Q))
                    (KD.all_rows demo_data (0%Q, 0%Q)))).
Proof.
  apply (@search_all_within_radius 10 demo_data 2 demo_tree (0%Q, 0%Q) None
           (Some 3%Q) true).
  - vm_compute. reflexivity.
  - exact I.
  - unfold Qle. cbn. lia.
Defined.


(** The hypotheses of the search of the two nearest points hold of the
    five points: it returns the points 0 and 1, as the reference does. *)
Example demo_nearest_two :
  KD.search demo_tree (0%Q, 0%Q) (Some 2%Z) (Some 3%Q) true
  = Some (Ok (KD.brute_force demo_data (0%Q, 0%Q) (Some 2%Z) (Some 3%Q)))
  /\ map snd (KD.brute_force demo_data (0%Q, 0%Q) (Some 2%Z) (Some 3%Q))
     = [0; 1].
Proof. split; vm_compute; reflexivity. Qed.




Lemma build_partition_witness :
  KD._data demo_tree = demo_data
  /\ KD._n demo_tree = length demo_data
  /\ Permutation (concat (KD._buckets demo_tree)) (seq 0 (length demo_data))
  /\ Forall (fun b => 1 <= length b /\ (Z.of_nat (length b) <= 2)%Z)
       (KD._buckets demo_tree)
  /\ length (KD._nodes demo_tree) + 1 = 2 * length (KD._buckets demo_tree).
Proof.
  apply (@build_partition 10 demo_data 2 demo_tree).
  vm_compute. reflexivity.
Defined.

End KDFacts.

(** ** Construction *)

Module ConstructionFacts.

(** C8 (as the code has it). A [KDTree] built with a bucket size below 1
    and an [OrderedBuffer] or a [ParticleSimulation] constructed with a
    bucket capacity below 1 raise the [ValueError] standing for
    ConfigurationError, as does a simulation with a negative initial
    capacity; with a bucket size or capacity of at least 1 (and, for the
    tree, a non-empty array of points; for the simulation, a non-negative
    initial capacity) construction does not raise. The time step is not
    examined: every time step is accepted. *)
Theorem construction_errors (junk : nat -> Sim.Particle) :
  (forall fuel data bucket_size,
      (bucket_size < 1)%Z ->
      KD.init fuel data bucket_size = Some (Raise ValueError))
  /\ (forall fuel data bucket_size e,
         (1 <= bucket_size)%Z -> data <> [] ->
         KD.init fuel data bucket_size <> Some (Raise e))
  /\ (forall (A : Type) bucket_capacity,
         (bucket_capacity < 1)%Z ->
         OBuf.init A bucket_capacity = Raise ValueError)
  /\ (forall (A : Type) bucket_capacity,
         (1 <= bucket_capacity)%Z ->
         exists b, OBuf.init A bucket_capacity = Ok b)
  /\ (forall time_step capacity bucket_capacity initialize presolve postsolve,
         (capacity < 0)%Z \/ (bucket_capacity < 1)%Z ->
         Sim.init junk time_step capacity bucket_capacity
           initialize presolve postsolve = Raise ValueError)
  /\ (forall time_step capacity bucket_capacity initialize presolve postsolve,
         (0 <= capacity)%Z -> (1 <= bucket_capacity)%Z ->
         SimFacts.callback_ok initialize ->
         exists sim,
           Sim.init junk time_step capacity bucket_capacity
             initialize presolve postsolve = Ok sim
           /\ Sim._time_step sim = time_step
           /\ Sim._time sim = 0%Q).
Proof.
  split; [| split; [| split; [| split; [| split]]]].
  - intros fuel data bucket_size H. unfold KD.init.
    destruct (Z.ltb_spec bucket_size 1); [reflexivity | lia].
  - intros fuel data bucket_size e Hb Hd. now apply KDFacts.init_no_raise.
  - intros A bucket_capacity H. unfold OBuf.init.
    destruct (Z.ltb_spec bucket_capacity 1); [reflexivity | lia].
  - intros A bucket_capacity H. unfold OBuf.init.
    destruct (Z.ltb_spec bucket_capacity 1); [lia | eexists; reflexivity].
  - intros time_step capacity bucket_capacity initialize presolve postsolve H.
    unfold Sim.init, DynArr.init, OBuf.init.
    destruct (Z.ltb_spec capacity 0); [reflexivity |]. cbn [bind].
    destruct (Z.ltb_spec bucket_capacity 1); [reflexivity | lia].
  - intros time_step capacity bucket_capacity initialize presolve postsolve
      Hc Hb Hok.
    unfold Sim.init.
    destruct (DynArr.init junk capacity) as [a |] eqn:Ha.
    2: { unfold DynArr.init in Ha.
         destruct (Z.ltb_spec capacity 0); [lia | discriminate]. }
    destruct (OBuf.init Sim.Particle bucket_capacity) as [b |] eqn:Hbuf.
    2: { unfold OBuf.init in Hbuf.
         destruct (Z.ltb_spec bucket_capacity 1); [lia | discriminate]. }
    cbn [bind].
    pose proof (@SimFacts.Inv_init junk capacity bucket_capacity a b Ha Hbuf)
      as HInv.
    destruct (@SimFacts.run_callback_ok junk initialize time_step 0%Q _
                HInv Hok) as (s' & -> & _).
    cbn [bind]. eexists. repeat split.
Qed.

(** A time step of zero and a negative time step are accepted. *)
Lemma nonpositive_time_step_accepted :
  (exists sim, Sim.init SimFacts.j0 0%Q 4 2 None None None = Ok sim)
  /\ (exists sim, Sim.init SimFacts.j0 (-1)%Q 4 2 None None None = Ok sim).
Proof. split; eexists; reflexivity. Qed.

End ConstructionFacts.
